(** * deh9000: record model, DECORATE states parser and state remapper

    A shallow embedding of [deh9000/c.py] (the ordered-field record
    model), [deh9000/sounds.py] (the sound record type) and
    [deh9000/states_parser.py] (the DECORATE parser and the remapper),
    followed by the properties established about them. *)

From Stdlib Require Import ZArith List Ascii String Lia.
From stdpp Require Import base option list strings gmap pretty.

Local Open Scope string_scope.
Local Open Scope list_scope.
Local Open Scope Z_scope.

(** ** Python values, exceptions and results *)

(** The values the programs store in record fields: [None], integers,
    strings, action objects of the external [actions] module (module
    level singletons, identified here by their attribute name) and
    the float not-a-number, [float('nan')]. A field takes whatever
    the caller assigns; of the values a caller can assign, the
    not-a-number is the one that [==] and [!=] do not treat as equal
    to itself, which is why it is in the model. *)
Inductive pyval : Type :=
  | PNone
  | PInt (z : Z)
  | PStr (s : string)
  | PAction (name : string)
  | PNaN.

Global Instance pyval_eq_dec : EqDecision pyval.
Proof. solve_decision. Defined.

(** [a != b]: the not-a-number differs from every value, itself
    included; two other values differ when they are not the same
    value. *)
Definition py_ne (a b : pyval) : bool :=
  match a, b with
  | PNaN, _ | _, PNaN => true
  | _, _ => bool_decide (a <> b)
  end.

(** [x is not None]. *)
Definition is_not_None (v : pyval) : bool :=
  match v with PNone => false | _ => true end.

(** The messages of [StatesParseException], by the place that raises
    them. *)
Inductive parse_msg : Type :=
  | UnknownSprite (name : string)
  | UnknownActionPointer (name : string)
  | LabelDefinedMultipleTimes (name : string)
  | LoopWithoutPrecedingState
  | LoopWithoutPrecedingLabel
  | StopWithoutPrecedingState
  | GotoWithoutPreviousState
  | GotoToUnknownLabel (label : string)
  | GotoOffsetTooLong (label : string) (offset : Z)
  | ParseError
  | SequenceShouldEnd.

(** Exceptions. [StatesParseException] carries the line number of the
    ["line %d: ..."] prefix when it is raised through
    [_Parser.exception], and none when it is raised directly. *)
Inductive exn : Type :=
  | ValueError
  | AttributeError
  | AssertionError
  | IndexError
  | KeyError
  | TypeError
  | StatesParseException (line : option Z) (msg : parse_msg)
  | StateRemapException.

(** The outcome of a call: a value, a raised exception, or a loop of
    the model that ran out of its iteration budget. *)
Inductive result (A : Type) : Type :=
  | Ok (a : A)
  | Raise (e : exn)
  | OutOfFuel.
Arguments Ok {A} a.
Arguments Raise {A} e.
Arguments OutOfFuel {A}.

Definition bind {A B} (m : result A) (k : A -> result B) : result B :=
  match m with
  | Ok a => k a
  | Raise e => Raise e
  | OutOfFuel => OutOfFuel
  end.

Notation "x <- m ;; k" := (bind m (fun x => k))
  (at level 100, m at next level, right associativity).

(** A [for] loop whose body may raise. *)
Fixpoint for_each {A S} (body : S -> A -> result S) (xs : list A) (s : S)
  : result S :=
  match xs with
  | [] => Ok s
  | x :: xs' => s' <- body s x ;; for_each body xs' s'
  end.

(** Python sequence indexing [l[i]] with an integer [i]: negative
    indices count from the end, anything out of range raises. *)
Definition py_norm_index (len : nat) (i : Z) : option nat :=
  if 0 <=? i then
    (if i <? Z.of_nat len then Some (Z.to_nat i) else None)
  else
    (if - Z.of_nat len <=? i then Some (Z.to_nat (Z.of_nat len + i)) else None).

Definition py_getitem {A} (l : list A) (i : Z) : result A :=
  match py_norm_index (length l) i with
  | Some n => match l !! n with Some x => Ok x | None => Raise IndexError end
  | None => Raise IndexError
  end.

(** The in-place update of the object stored at [l[i]]. *)
Definition py_update {A} (l : list A) (i : Z) (f : A -> A) : result (list A) :=
  match py_norm_index (length l) i with
  | Some n => match l !! n with
              | Some x => Ok (<[n := f x]> l)
              | None => Raise IndexError
              end
  | None => Raise IndexError
  end.

(** ** c.py: records with ordered fields *)

Module C.

(** A record type: its class name, its [DEHACKED_NAME] and its
    [StructField] declarations in declaration order (what
    [field_names] sorts by), each with the attribute name and the
    [deh_name] given to [StructField]. *)
Record struct_type : Type := {
  type_name : string;
  DEHACKED_NAME : string;
  fields : list (string * option string)
}.

Global Instance struct_type_eq_dec : EqDecision struct_type.
Proof. solve_decision. Defined.

(** Constructor arguments: the positional ones and the keyword ones
    (the items of the dictionary, in its iteration order). *)
Definition init_args : Type := list pyval * list (string * pyval).

(** An instance: its class, the dictionary [_fields] (keyed by the
    number of the field, here its declaration position) and
    [_original_values]. *)
Record Struct : Type := {
  stype : struct_type;
  _fields : gmap nat pyval;
  _original_values : init_args
}.

Definition field_names (ty : struct_type) : list string :=
  map fst (fields ty).

Fixpoint index_of (f : string) (names : list string) : option nat :=
  match names with
  | [] => None
  | n :: names' =>
      if String.eqb f n then Some 0%nat else S <$> index_of f names'
  end.

(** [getattr(self, f)] for a declared field reads its slot of
    [_fields]; any other name is no attribute of the modelled
    instance. *)
Definition getattr (s : Struct) (f : string) : result pyval :=
  match index_of f (field_names (stype s)) with
  | Some i => match _fields s !! i with
              | Some v => Ok v
              | None => Raise KeyError
              end
  | None => Raise AttributeError
  end.

(** [setattr(self, f, value)] for a declared field writes its slot;
    for another name Python stores a plain instance attribute and
    [_fields] is untouched. *)
Definition setattr (s : Struct) (f : string) (v : pyval) : Struct :=
  match index_of f (field_names (stype s)) with
  | Some i => {| stype := stype s;
                 _fields := <[i := v]> (_fields s);
                 _original_values := _original_values s |}
  | None => s
  end.

(** [set_values]: positional values first, then the named ones. *)
Definition set_values (args : list pyval) (kwargs : list (string * pyval))
    (s : Struct) : result Struct :=
  let names := field_names (stype s) in
  if (length names <? length args)%nat then Raise ValueError
  else
    let s1 := foldl (fun s' '(f, v) => setattr s' f v) s (zip names args) in
    for_each (fun s' '(f, v) =>
                if bool_decide (f ∈ names) then Ok (setattr s' f v)
                else Raise ValueError)
             kwargs s1.

(** [__init__]: every field starts at zero, then [set_values], then
    the arguments are remembered. *)
Definition new (ty : struct_type) (args : list pyval)
    (kwargs : list (string * pyval)) : result Struct :=
  let s0 := foldl (fun s' f => setattr s' f (PInt 0))
                  {| stype := ty; _fields := ∅;
                     _original_values := ([], []) |}
                  (field_names ty) in
  s1 <- set_values args kwargs s0 ;;
  Ok {| stype := ty; _fields := _fields s1;
        _original_values := (args, kwargs) |}.

(** [copy_from(other)]. *)
Definition copy_from (self other : Struct) : result Struct :=
  if decide (stype self = stype other) then
    for_each (fun s f => v <- getattr other f ;; Ok (setattr s f v))
             (field_names (stype self)) self
  else Raise AssertionError.

(** [original()]. *)
Definition original (s : Struct) : result Struct :=
  new (stype s) (fst (_original_values s)) (snd (_original_values s)).

(** [field_deh_name(field)]. *)
Definition field_deh_name (ty : struct_type) (f : string)
  : result (option string) :=
  match index_of f (field_names ty) with
  | Some i => match fields ty !! i with
              | Some (_, d) => Ok d
              | None => Raise AttributeError
              end
  | None => Raise AttributeError
  end.

(** [diff(other=None)]: the fields whose values differ under
    [!=]. *)
Definition diff (self : Struct) (other : option Struct) : result (list string) :=
  o <- match other with
       | None => original self
       | Some o => Ok o
       end ;;
  for_each (fun acc f =>
              a <- getattr self f ;;
              b <- getattr o f ;;
              Ok (if py_ne a b then acc ++ [f] else acc))
           (field_names (stype self)) [].

(** The line feed character, and [sep.join(parts)]. *)
Definition LF : string := String (ascii_of_nat 10) EmptyString.

(** [str(value)] as the percent-s conversion applies it; how an action
    object prints is left to the [actions] module ([action_str]). *)
Definition py_str (action_str : string -> string) (v : pyval) : string :=
  match v with
  | PNone => "None"
  | PInt z => pretty z
  | PStr s => s
  | PAction name => action_str name
  | PNaN => "nan"
  end.

(** Truth value of a [deh_name]: [None] and the empty string are
    false. *)
Definition truthy (d : option string) : bool :=
  match d with
  | Some s => negb (String.eqb s "")
  | None => false
  end.

(** [dehacked_header(array_index)]. *)
Definition dehacked_header (s : Struct) (array_index : Z) : string :=
  DEHACKED_NAME (stype s) +:+ " " +:+ pretty array_index.

(** [dehacked_output(fields=None, array_index=0)]. *)
Definition dehacked_output (action_str : string -> string) (s : Struct)
    (fields : option (list string)) (array_index : Z) : result string :=
  let fields := match fields with
                | None => field_names (stype s)
                | Some fs => fs
                end in
  results <- for_each
      (fun results field =>
         deh_name <- field_deh_name (stype s) field ;;
         if truthy deh_name then
           v <- getattr s field ;;
           Ok (results ++ [default "" deh_name +:+ " = " +:+ py_str action_str v])
         else Ok results)
      fields [] ;;
  match results with
  | [] => Ok ""
  | _ => Ok (String.concat LF (dehacked_header s array_index :: results))
  end.

(** [dehacked_diffs(other=None, array_index=0)]. *)
Definition dehacked_diffs (action_str : string -> string) (s : Struct)
    (other : option Struct) (array_index : Z) : result (list string) :=
  d <- diff s other ;;
  out <- dehacked_output action_str s (Some d) array_index ;;
  Ok (if String.eqb out "" then [] else [out]).

(** *** Enumerations and arrays of records *)

(** [Enum.create_globals(globals)]: every name of the enumeration is
    bound in the dictionary to its position, in order, so that a name
    that occurs again is bound to its later position. *)
Definition create_globals (self : list string) (globals : gmap string pyval)
  : gmap string pyval :=
  foldl (fun g p => <[p.2 := PInt (Z.of_nat p.1)]> g) globals
        (zip (seq 0 (length self)) self).

(** What [StructArray] accepts for an element: a list or tuple of
    positional values, a dictionary of named values, or an
    instance. *)
Inductive initializer : Type :=
  | InitSeq (args : list pyval)
  | InitDict (kwargs : list (string * pyval))
  | InitStruct (s : Struct).

Record StructArray : Type := {
  _struct_type : struct_type;
  _elements : list Struct
}.

(** One turn of the loop of [StructArray.__init__]. *)
Definition init_element (ty : struct_type) (el : initializer) : result Struct :=
  match el with
  | InitSeq args => new ty args []
  | InitDict kwargs => new ty [] kwargs
  | InitStruct s => if decide (stype s = ty) then Ok s else Raise ValueError
  end.

(** [StructArray(struct_type, elements)]. The first test builds an
    instance without arguments, which is an instance of [Struct] for
    every record type. *)
Definition StructArray_new (ty : struct_type) (elements : list initializer)
  : result StructArray :=
  _ <- new ty [] [] ;;
  els <- for_each (fun acc el => s <- init_element ty el ;; Ok (acc ++ [s]))
                  elements [] ;;
  Ok {| _struct_type := ty; _elements := els |}.

(** [len(array)] and [array[i]]. *)
Definition StructArray_len (a : StructArray) : Z :=
  Z.of_nat (length (_elements a)).

Definition StructArray_getitem (a : StructArray) (i : Z) : result Struct :=
  py_getitem (_elements a) i.

(** [StructArray.original()]. *)
Definition StructArray_original (a : StructArray) : result StructArray :=
  origs <- for_each (fun acc el => o <- original el ;; Ok (acc ++ [o]))
                    (_elements a) [] ;;
  StructArray_new (_struct_type a) (map InitStruct origs).

(** [StructArray.dehacked_diffs(other=None)]. *)
Definition StructArray_dehacked_diffs (action_str : string -> string)
    (a : StructArray) (other : option StructArray) : result (list string) :=
  for_each
    (fun result p =>
       other_el <- match other with
                   | Some o => el <- StructArray_getitem o (Z.of_nat p.1) ;;
                               Ok (Some el)
                   | None => Ok None
                   end ;;
       d <- dehacked_diffs action_str p.2 other_el (Z.of_nat p.1) ;;
       Ok (result ++ d))
    (zip (seq 0 (length (_elements a))) (_elements a)) [].

End C.

(** ** sounds.py: the sound record type *)

Module Sounds.

Definition sfxinfo_t : C.struct_type := {|
  C.type_name := "sfxinfo_t";
  C.DEHACKED_NAME := "Sound";
  C.fields := [
    ("name", None);
    ("singularity", Some "Zero/One");
    ("priority", Some "Value");
    ("link", None);
    ("pitch", Some "Zero 2");
    ("volume", Some "Zero 3");
    ("data", Some "Zero 4");
    ("usefulness", Some "Neg. One 1");
    ("lumpnum", Some "Neg. One 2")
  ]
|}.

(** [sfxenum_t]. *)
Definition sfxenum_t : list string :=
  [
    "sfx_None"; "sfx_pistol"; "sfx_shotgn"; "sfx_sgcock"; "sfx_dshtgn";
    "sfx_dbopn"; "sfx_dbcls"; "sfx_dbload"; "sfx_plasma"; "sfx_bfg";
    "sfx_sawup"; "sfx_sawidl"; "sfx_sawful"; "sfx_sawhit";
    "sfx_rlaunc"; "sfx_rxplod"; "sfx_firsht"; "sfx_firxpl";
    "sfx_pstart"; "sfx_pstop"; "sfx_doropn"; "sfx_dorcls";
    "sfx_stnmov"; "sfx_swtchn"; "sfx_swtchx"; "sfx_plpain";
    "sfx_dmpain"; "sfx_popain"; "sfx_vipain"; "sfx_mnpain";
    "sfx_pepain"; "sfx_slop"; "sfx_itemup"; "sfx_wpnup"; "sfx_oof";
    "sfx_telept"; "sfx_posit1"; "sfx_posit2"; "sfx_posit3";
    "sfx_bgsit1"; "sfx_bgsit2"; "sfx_sgtsit"; "sfx_cacsit";
    "sfx_brssit"; "sfx_cybsit"; "sfx_spisit"; "sfx_bspsit";
    "sfx_kntsit"; "sfx_vilsit"; "sfx_mansit"; "sfx_pesit";
    "sfx_sklatk"; "sfx_sgtatk"; "sfx_skepch"; "sfx_vilatk"; "sfx_claw";
    "sfx_skeswg"; "sfx_pldeth"; "sfx_pdiehi"; "sfx_podth1";
    "sfx_podth2"; "sfx_podth3"; "sfx_bgdth1"; "sfx_bgdth2";
    "sfx_sgtdth"; "sfx_cacdth"; "sfx_skldth"; "sfx_brsdth";
    "sfx_cybdth"; "sfx_spidth"; "sfx_bspdth"; "sfx_vildth";
    "sfx_kntdth"; "sfx_pedth"; "sfx_skedth"; "sfx_posact"; "sfx_bgact";
    "sfx_dmact"; "sfx_bspact"; "sfx_bspwlk"; "sfx_vilact"; "sfx_noway";
    "sfx_barexp"; "sfx_punch"; "sfx_hoof"; "sfx_metal"; "sfx_chgun";
    "sfx_tink"; "sfx_bdopn"; "sfx_bdcls"; "sfx_itmbk"; "sfx_flame";
    "sfx_flamst"; "sfx_getpow"; "sfx_bospit"; "sfx_boscub";
    "sfx_bossit"; "sfx_bospn"; "sfx_bosdth"; "sfx_manatk";
    "sfx_mandth"; "sfx_sssit"; "sfx_ssdth"; "sfx_keenpn"; "sfx_keendt";
    "sfx_skeact"; "sfx_skesit"; "sfx_skeatk"; "sfx_radio"
  ].

(** The constants that [sfxenum_t.create_globals(globals())] defines,
    and [NUMSFX]. *)
Definition sfx_globals : gmap string pyval := C.create_globals sfxenum_t ∅.

Definition NUMSFX : Z := Z.of_nat (length sfxenum_t).

End Sounds.

(** ** states_parser.py: the DECORATE parser and the remapper *)

Module StatesParser.
Import C.

(** *** Character classes and string primitives

    The classes of the [re] module on byte strings: [\s], [\d], [\w]
    and, under [re.I], [[a-z]]. *)

Definition in_range (lo hi : N) (c : ascii) : bool :=
  (N.leb lo (N_of_ascii c) && N.leb (N_of_ascii c) hi)%bool.

Definition is_space (c : ascii) : bool :=
  (N.eqb (N_of_ascii c) 32 || in_range 9 13 c)%bool.
Definition is_digit (c : ascii) : bool := in_range 48 57 c.
Definition is_upper (c : ascii) : bool := in_range 65 90 c.
Definition is_lower (c : ascii) : bool := in_range 97 122 c.
Definition is_alpha (c : ascii) : bool := (is_upper c || is_lower c)%bool.
Definition is_word (c : ascii) : bool :=
  (is_alpha c || is_digit c || N.eqb (N_of_ascii c) 95)%bool.

Definition lower_char (c : ascii) : ascii :=
  if is_upper c then ascii_of_N (N_of_ascii c + 32) else c.
Definition upper_char (c : ascii) : ascii :=
  if is_lower c then ascii_of_N (N_of_ascii c - 32) else c.

Fixpoint str_map (f : ascii -> ascii) (s : string) : string :=
  match s with
  | EmptyString => EmptyString
  | String c s' => String (f c) (str_map f s')
  end.

(** [s.lower()] and [s.upper()]. *)
Definition lower (s : string) : string := str_map lower_char s.
Definition upper (s : string) : string := str_map upper_char s.

(** The longest prefix of characters of a class, and what follows it:
    how a greedy [c*] splits its input when what must follow cannot
    start with a character of the class. *)
Fixpoint take_while (p : ascii -> bool) (s : string) : string :=
  match s with
  | String c s' => if p c then String c (take_while p s') else EmptyString
  | EmptyString => EmptyString
  end.

Fixpoint skip (p : ascii -> bool) (s : string) : string :=
  match s with
  | String c s' => if p c then skip p s' else s
  | EmptyString => EmptyString
  end.

(** [c+]: at least one character of the class. *)
Definition some_of (p : ascii -> bool) (s : string) : option (string * string) :=
  match take_while p s with
  | EmptyString => None
  | w => Some (w, skip p s)
  end.

(** A literal; with [ci] the comparison ignores case, as under
    [re.I]. The matched text and the rest are returned. *)
Fixpoint literal (ci : bool) (lit s : string) : option (string * string) :=
  match lit with
  | EmptyString => Some (EmptyString, s)
  | String l lit' =>
      match s with
      | String c s' =>
          if (if ci then Ascii.eqb (lower_char c) (lower_char l)
              else Ascii.eqb c l)
          then r ← literal ci lit' s'; Some (String c r.1, r.2)
          else None
      | EmptyString => None
      end
  end.

(** One given character. *)
Definition char (c : ascii) (s : string) : option string :=
  match s with
  | String x s' => if Ascii.eqb x c then Some s' else None
  | EmptyString => None
  end.

(** [line.strip() == ""]. *)
Definition is_blank (line : string) : bool :=
  match skip is_space line with
  | EmptyString => true
  | _ => false
  end.

(** [\s*$]: only white space is left. *)
Definition at_end (s : string) : bool := is_blank s.

(** [defstr.split("\n")]. *)
Fixpoint split_lines (s : string) : list string :=
  match s with
  | EmptyString => [EmptyString]
  | String c s' =>
      if N.eqb (N_of_ascii c) 10 then EmptyString :: split_lines s'
      else match split_lines s' with
           | l :: ls => String c l :: ls
           | [] => [String c EmptyString]
           end
  end.

(** [int(text)] for a text of the shape [-?\d+]. *)
Fixpoint digits_value (acc : Z) (s : string) : Z :=
  match s with
  | String c s' => digits_value (10 * acc + (Z.of_N (N_of_ascii c) - 48)) s'
  | EmptyString => acc
  end.

Definition int_of_string (s : string) : Z :=
  match char "-" s with
  | Some s' => - digits_value 0 s'
  | None => digits_value 0 s
  end.

(** *** The regular expressions

    Each is the [match] of the compiled expression at the start of the
    line: the captured groups and the text after the end of the match,
    or [None]. *)

(** [GOTO_LABEL_RE]: the label and the rest of the line. *)
Definition GOTO_LABEL_RE (line : string) : option (string * string) :=
  r ← some_of is_word (skip is_space line);
  s' ← char ":" (skip is_space r.2);
  Some (r.1, skip is_space s').

(** The groups of [FRAME_DEF_RE]. *)
Record frame_groups : Type := {
  g_sprname : string;
  g_frame : string;
  g_tics : string;
  g_bright : option string;
  g_action : option string
}.

(** The optional group for an action name. *)
Definition action_name (s : string) : option (string * string) :=
  a ← literal true "A_" s;
  r ← some_of is_word a.2;
  Some (a.1 +:+ r.1, r.2).

Definition FRAME_DEF_RE (line : string) : option (frame_groups * string) :=
  match skip is_space line with
  | String c1 (String c2 (String c3 (String c4 s1))) =>
      if (is_word c1 && is_word c2 && is_word c3 && is_word c4)%bool then
        sp1 ← some_of is_space s1;
        fr ← some_of is_alpha sp1.2;
        sp2 ← some_of is_space fr.2;
        let sign := match char "-" sp2.2 with
                    | Some s' => ("-", s')
                    | None => (EmptyString, sp2.2)
                    end in
        dg ← some_of is_digit sign.2;
        let s2 := skip is_space dg.2 in
        let br := match literal true "bright" s2 with
                  | Some r => (Some r.1, r.2)
                  | None => (None, s2)
                  end in
        let s3 := skip is_space br.2 in
        let ac := match action_name s3 with
                  | Some r => (Some r.1, r.2)
                  | None => (None, s3)
                  end in
        if at_end ac.2 then
          Some ({| g_sprname := String c1 (String c2 (String c3 (String c4 EmptyString)));
                   g_frame := fr.1;
                   g_tics := sign.1 +:+ dg.1;
                   g_bright := br.1;
                   g_action := ac.1 |}, EmptyString)
        else None
      else None
  | _ => None
  end.

(** [GOTO_STATEMENT_RE]: the label and the optional offset. *)
Definition GOTO_STATEMENT_RE (line : string)
  : option ((string * option string) * string) :=
  kw ← literal true "Goto" (skip is_space line);
  sp ← some_of is_space kw.2;
  lb ← some_of is_word sp.2;
  let s1 := skip is_space lb.2 in
  let off := match s' ← char "+" s1; some_of is_digit (skip is_space s') with
             | Some r => (Some r.1, r.2)
             | None => (None, s1)
             end in
  if at_end off.2 then Some ((lb.1, off.1), EmptyString) else None.

(** [LOOP_STATEMENT_RE] and [STOP_STATEMENT_RE]. *)
Definition keyword_line (kw line : string) : option (unit * string) :=
  r ← literal false kw (skip is_space line);
  if at_end r.2 then Some (tt, EmptyString) else None.

Definition LOOP_STATEMENT_RE : string -> option (unit * string) :=
  keyword_line "Loop".
Definition STOP_STATEMENT_RE : string -> option (unit * string) :=
  keyword_line "Stop".

(** [DECORATE_NAMES]. *)
Definition DECORATE_NAMES : gmap string string :=
  list_to_map [
    ("see", "seestate");
    ("spawn", "spawnstate");
    ("pain", "painstate");
    ("melee", "meleestate");
    ("missile", "missilestate");
    ("death", "deathstate");
    ("xdeath", "xdeathstate");
    ("raise", "raisestate");
    ("select", "upstate");
    ("deselect", "downstate");
    ("ready", "readystate");
    ("fire", "atkstate");
    ("flash", "flashstate")
  ].

(** Modelled from the spec: [states.py], which declares [state_t], is
    not among the sources. The fields and their order are those of the
    spec's State record (sprite code, frame code, duration, action,
    next-state link); the patch-format names, which nothing below
    reads, are those of a Dehacked frame. *)
Definition state_t : struct_type := {|
  type_name := "state_t";
  DEHACKED_NAME := "Frame";
  fields := [
    ("sprite", Some "Sprite number");
    ("frame", Some "Sprite subnumber");
    ("tics", Some "Duration");
    ("action", None);
    ("nextstate", Some "Next frame")
  ]
|}.

(** *** The external registries and the interpreter's choices *)

Section Parser.

(** [spritenum_t.index]: the position of a name in the sprite
    enumeration of [sprites.py], when it is there. *)
Variable spritenum_t_index : string -> option Z.

(** Whether the [actions] module binds the name to an instance of
    [actions.Action]. *)
Variable is_Action : string -> bool.

(** The order in which the interpreter enumerates a set of two or more
    label names. *)
Variable label_order : list string -> list string.

(** A Python set of names, kept without repetition. *)
Definition set_add {A} `{EqDecision A} (x : A) (s : list A) : list A :=
  if bool_decide (x ∈ s) then s else s ++ [x].

Definition set_iter (labels : list string) : list string :=
  match labels with
  | [] | [_] => labels
  | _ => label_order labels
  end.

Definition sprite_for_name (name : string) : result Z :=
  match spritenum_t_index ("SPR_" +:+ upper name) with
  | Some i => Ok i
  | None => Raise (StatesParseException None (UnknownSprite name))
  end.

Definition action_pointer_for_name (name : option string) : result pyval :=
  match name with
  | None => Ok PNone
  | Some EmptyString => Ok PNone
  | Some n =>
      if is_Action n then Ok (PAction n)
      else Raise (StatesParseException None (UnknownActionPointer n))
  end.

(** The characters of a string, as [for fr in params["frame"]] takes
    them. *)
Fixpoint chars (s : string) : list ascii :=
  match s with
  | EmptyString => []
  | String c s' => c :: chars s'
  end.

(** [construct_states(params)]: the states the generator yields. The
    look-ups run when the generator is first advanced, before any
    state is built, and building a state cannot fail, so the consumer
    cannot tell the generator from this list. *)
Definition construct_states (params : frame_groups) : result (list Struct) :=
  sprite_num <- sprite_for_name (g_sprname params) ;;
  let tics := int_of_string (g_tics params) in
  let is_bright := bool_decide (g_bright params <> None) in
  action <- action_pointer_for_name (g_action params) ;;
  for_each
    (fun acc fr =>
       let frame := Z.of_N (N_of_ascii (lower_char fr)) - 97 in
       let frame := if is_bright then Z.lor frame 32768 else frame in
       st <- new state_t [] [("sprite", PInt sprite_num);
                             ("frame", PInt frame);
                             ("tics", PInt tics);
                             ("action", action)] ;;
       Ok (acc ++ [st]))
    (chars (g_frame params)) [].

(** *** The parser object *)

Record _Parser : Type := {
  states : list Struct;
  state_labels : gmap string Z;
  previous_state_id : Z;
  loop_start_id : Z;
  saved_gotos : list (Z * Z * string * Z);
  line_number : Z;
  lines : list string
}.

Definition with_lines (ls : list string) (n : Z) (p : _Parser) : _Parser :=
  {| states := states p; state_labels := state_labels p;
     previous_state_id := previous_state_id p;
     loop_start_id := loop_start_id p; saved_gotos := saved_gotos p;
     line_number := n; lines := ls |}.

Definition with_states (sts : list Struct) (p : _Parser) : _Parser :=
  {| states := sts; state_labels := state_labels p;
     previous_state_id := previous_state_id p;
     loop_start_id := loop_start_id p; saved_gotos := saved_gotos p;
     line_number := line_number p; lines := lines p |}.

Definition with_labels (m : gmap string Z) (start : Z) (p : _Parser) : _Parser :=
  {| states := states p; state_labels := m;
     previous_state_id := previous_state_id p;
     loop_start_id := start; saved_gotos := saved_gotos p;
     line_number := line_number p; lines := lines p |}.

Definition with_previous (prev : Z) (p : _Parser) : _Parser :=
  {| states := states p; state_labels := state_labels p;
     previous_state_id := prev;
     loop_start_id := loop_start_id p; saved_gotos := saved_gotos p;
     line_number := line_number p; lines := lines p |}.

(** The end of a run: both markers go back to -1. *)
Definition end_sequence (gotos : list (Z * Z * string * Z)) (p : _Parser)
  : _Parser :=
  {| states := states p; state_labels := state_labels p;
     previous_state_id := -1; loop_start_id := -1; saved_gotos := gotos;
     line_number := line_number p; lines := lines p |}.

(** [_Parser()]; [parse] sets the last two attributes before anything
    reads them. *)
Definition _Parser_init : result _Parser :=
  null <- new state_t [] [] ;;
  Ok {| states := [null]; state_labels := ∅;
        previous_state_id := -1; loop_start_id := -1;
        saved_gotos := []; line_number := 1; lines := [] |}.

(** [more_lines()]. *)
Fixpoint drop_blank (ls : list string) (n : Z) : list string * Z :=
  match ls with
  | l :: ls' => if is_blank l then drop_blank ls' (n + 1) else (ls, n)
  | [] => ([], n)
  end.

Definition more_lines (p : _Parser) : bool * _Parser :=
  let r := drop_blank (lines p) (line_number p) in
  (bool_decide (r.1 <> []), with_lines r.1 r.2 p).

(** [next_line()]. *)
Definition next_line (p : _Parser) : string * _Parser :=
  let r := more_lines p in
  (match lines r.2 with l :: _ => l | [] => EmptyString end, r.2).

(** [matches_regexp(regexp)]: on a match the first line is replaced by
    what follows the match. *)
Definition matches_regexp {G} (regexp : string -> option (G * string))
    (p : _Parser) : result (option G * _Parser) :=
  let r := next_line p in
  match regexp r.1 with
  | Some (g, rest) =>
      match lines r.2 with
      | _ :: ls => Ok (Some g, with_lines (rest :: ls) (line_number r.2) r.2)
      | [] => Raise IndexError
      end
  | None => Ok (None, r.2)
  end.

(** The characters still to be read; every match of an expression
    above takes at least one of them, which bounds the loops. *)
Definition pending (p : _Parser) : nat :=
  foldr (fun l n => (String.length l + n)%nat) 0%nat (lines p).

(** [parse_labels()]. *)
Fixpoint parse_labels_loop (fuel : nat) (labels : list string) (p : _Parser)
  : result (list string * _Parser) :=
  match fuel with
  | O => OutOfFuel
  | S fuel' =>
      r <- matches_regexp GOTO_LABEL_RE p ;;
      match r.1 with
      | None => Ok (labels, r.2)
      | Some label => parse_labels_loop fuel' (set_add label labels) r.2
      end
  end.

Definition parse_labels (p : _Parser) : result (list string * _Parser) :=
  parse_labels_loop (S (pending p)) [] p.

(** [exception(s, line_number=None)]. *)
Definition exception {A} (p : _Parser) (msg : parse_msg) : result A :=
  Raise (StatesParseException (Some (line_number p)) msg).

(** [set_label(name, state_id)]. *)
Definition set_label (name : string) (state_id : Z) (p : _Parser)
  : result _Parser :=
  if bool_decide (name ∈ dom (state_labels p)) then
    exception p (LabelDefinedMultipleTimes name)
  else
    let m := <[name := state_id]> (state_labels p) in
    let m' := match DECORATE_NAMES !! lower name with
              | Some doom_name =>
                  if (negb (String.eqb doom_name EmptyString)
                      && bool_decide (doom_name ∉ dom m))%bool
                  then <[doom_name := state_id]> m
                  else m
              | None => m
              end in
    Ok (with_labels m' state_id p).

(** [alloc_new_state()]. *)
Definition alloc_new_state (p : _Parser) : result (Z * _Parser) :=
  st <- new state_t [] [] ;;
  Ok (Z.of_nat (length (states p)), with_states (states p ++ [st]) p).

(** [self.states[i].f = v] and [self.states[i].copy_from(o)]. *)
Definition state_setattr (sts : list Struct) (i : Z) (f : string) (v : pyval)
  : result (list Struct) :=
  py_update sts i (fun st => setattr st f v).

Definition state_copy_from (sts : list Struct) (i : Z) (other : Struct)
  : result (list Struct) :=
  st <- py_getitem sts i ;;
  st' <- copy_from st other ;;
  py_update sts i (fun _ => st').

(** One turn of the loop of [parse_frame_def] over the constructed
    states; [labels] is emptied at the end of the first turn. *)
Definition add_state (acc : list string * _Parser) (state : Struct)
  : result (list string * _Parser) :=
  r <- alloc_new_state acc.2 ;;
  let state_id := r.1 in
  sts <- state_copy_from (states r.2) state_id state ;;
  sts <- (if bool_decide (previous_state_id r.2 <> -1)
          then state_setattr sts (previous_state_id r.2)
                             "nextstate" (PInt state_id)
          else Ok sts) ;;
  let p1 := with_previous state_id (with_states sts r.2) in
  p2 <- for_each (fun q label => set_label label state_id q)
                 (set_iter acc.1) p1 ;;
  Ok ([], p2).

(** [parse_frame_def()]. *)
Definition parse_frame_def (p : _Parser) : result (bool * _Parser) :=
  r <- parse_labels p ;;
  m <- matches_regexp FRAME_DEF_RE r.2 ;;
  match m.1 with
  | None => Ok (false, m.2)
  | Some params =>
      sts <- construct_states params ;;
      a <- for_each add_state sts (r.1, m.2) ;;
      Ok (true, a.2)
  end.

(** [parse_loop()]. *)
Definition parse_loop (p : _Parser) : result (bool * _Parser) :=
  m <- matches_regexp LOOP_STATEMENT_RE p ;;
  match m.1 with
  | None => Ok (false, m.2)
  | Some _ =>
      let q := m.2 in
      if bool_decide (previous_state_id q = -1) then
        exception q LoopWithoutPrecedingState
      else if bool_decide (loop_start_id q = -1) then
        exception q LoopWithoutPrecedingLabel
      else
        sts <- state_setattr (states q) (previous_state_id q)
                             "nextstate" (PInt (loop_start_id q)) ;;
        Ok (true, end_sequence (saved_gotos q) (with_states sts q))
  end.

(** [parse_stop()]. *)
Definition parse_stop (p : _Parser) : result (bool * _Parser) :=
  m <- matches_regexp STOP_STATEMENT_RE p ;;
  match m.1 with
  | None => Ok (false, m.2)
  | Some _ =>
      let q := m.2 in
      if bool_decide (previous_state_id q = -1) then
        exception q StopWithoutPrecedingState
      else
        sts <- state_setattr (states q) (previous_state_id q)
                             "tics" (PInt (-1)) ;;
        sts <- state_setattr sts (previous_state_id q)
                             "nextstate" (PInt 0) ;;
        Ok (true, end_sequence (saved_gotos q) (with_states sts q))
  end.

(** [parse_goto()]. *)
Definition parse_goto (p : _Parser) : result (bool * _Parser) :=
  m <- matches_regexp GOTO_STATEMENT_RE p ;;
  match m.1 with
  | None => Ok (false, m.2)
  | Some params =>
      let q := m.2 in
      if bool_decide (previous_state_id q = -1) then
        exception q GotoWithoutPreviousState
      else
        let offset := match params.2 with
                      | None | Some EmptyString => int_of_string "0"
                      | Some o => int_of_string o
                      end in
        Ok (true,
            end_sequence
              (saved_gotos q ++
                 [(line_number q, previous_state_id q, params.1, offset)])
              q)
  end.

(** An object used as a sequence index must be an integer. *)
Definition py_index (v : pyval) : result Z :=
  match v with
  | PInt z => Ok z
  | _ => Raise TypeError
  end.

(** One turn of the loop of [resolve_goto]. The test is
    [next_state_id == -1]; of the values of the model only the
    integer -1 is equal to -1. *)
Definition goto_hop (p : _Parser) (line_number : Z) (label : string)
    (offset : Z) (state_id : pyval) : result pyval :=
  i <- py_index state_id ;;
  st <- py_getitem (states p) i ;;
  next_state_id <- getattr st "nextstate" ;;
  if decide (next_state_id = PInt (-1)) then
    Raise (StatesParseException (Some line_number)
                                (GotoOffsetTooLong label offset))
  else Ok next_state_id.

(** [resolve_goto(line_number, label, offset)]. *)
Definition resolve_goto (p : _Parser) (line_number : Z) (label : string)
    (offset : Z) : result pyval :=
  match state_labels p !! label with
  | None =>
      Raise (StatesParseException (Some line_number)
                                  (GotoToUnknownLabel label))
  | Some state_id =>
      for_each (fun sid (_ : unit) => goto_hop p line_number label offset sid)
               (replicate (Z.to_nat offset) tt) (PInt state_id)
  end.

(** [apply_gotos()]. *)
Definition apply_gotos (p : _Parser) : result _Parser :=
  for_each
    (fun q '(line_number, state_id, label, offset) =>
       target <- resolve_goto q line_number label offset ;;
       sts <- state_setattr (states q) state_id "nextstate" target ;;
       Ok (with_states sts q))
    (saved_gotos p) p.

(** The [while] loop of [_Parser.parse]. *)
Fixpoint parse_while (fuel : nat) (p : _Parser) : result _Parser :=
  match fuel with
  | O => OutOfFuel
  | S fuel' =>
      let m := more_lines p in
      if m.1 then
        a <- parse_frame_def m.2 ;;
        if a.1 then parse_while fuel' a.2
        else
          b <- parse_loop a.2 ;;
          if b.1 then parse_while fuel' b.2
          else
            c <- parse_goto b.2 ;;
            if c.1 then parse_while fuel' c.2
            else
              d <- parse_stop c.2 ;;
              if d.1 then parse_while fuel' d.2
              else exception d.2 ParseError
      else Ok m.2
  end.

(** [_Parser.parse(defstr)]. *)
Definition _Parser_parse (p : _Parser) (defstr : string) : result _Parser :=
  let p0 := with_lines (split_lines defstr) 1 p in
  p1 <- parse_while (S (pending p0)) p0 ;;
  if bool_decide (previous_state_id p1 <> -1) then
    exception p1 SequenceShouldEnd
  else apply_gotos p1.

(** [parse(defstr)]. *)
Definition parse (defstr : string)
  : result (list Struct * gmap string Z) :=
  p <- _Parser_init ;;
  q <- _Parser_parse p defstr ;;
  Ok (states q, state_labels q).

End Parser.

(** *** The remapper *)

Section Remap.

(** Which member of a non-empty set [set.pop()] takes: a position in
    the enumeration of the set. *)
Variable pop_choice : list Z -> nat.

(** [s.pop()] on a set. *)
Definition set_pop (s : list Z) : result (Z * list Z) :=
  match s with
  | [] => Raise KeyError
  | _ =>
      let i := (pop_choice s mod length s)%nat in
      match s !! i with
      | Some x => Ok (x, delete i s)
      | None => Raise KeyError
      end
  end.

(** [alloc_states.remove(x)]. *)
Fixpoint list_remove (x : Z) (l : list Z) : result (list Z) :=
  match l with
  | [] => Raise ValueError
  | y :: l' =>
      if decide (x = y) then Ok l'
      else l'' <- list_remove x l' ;; Ok (y :: l'')
  end.

(** The first loop of [_generate_old_to_new]: the free slots by
    whether the original of the state they hold has an action. *)
Definition categorize (new : list Struct) (alloc_states : list Z)
  : result (list Z * list Z) :=
  for_each
    (fun sets state_id =>
       st <- py_getitem new state_id ;;
       orig <- original st ;;
       act <- getattr orig "action" ;;
       Ok (if is_not_None act then (set_add state_id sets.1, sets.2)
           else (sets.1, set_add state_id sets.2)))
    alloc_states ([], []).

(** What the second loop carries from turn to turn. *)
Record alloc : Type := {
  alloc_action : list Z;
  alloc_non_action : list Z;
  old_to_new : list Z;
  alloc_states : list Z
}.

(** The choice of a slot for a state with ([true]) or without an
    action. *)
Definition take_slot (has_action : bool) (a : alloc)
  : result (Z * list Z * list Z) :=
  if has_action then
    if (0 <? length (alloc_action a))%nat then
      r <- set_pop (alloc_action a) ;; Ok (r.1, r.2, alloc_non_action a)
    else
      r <- set_pop (alloc_non_action a) ;; Ok (r.1, alloc_action a, r.2)
  else
    if (0 <? length (alloc_non_action a))%nat then
      r <- set_pop (alloc_non_action a) ;; Ok (r.1, alloc_action a, r.2)
    else
      r <- set_pop (alloc_action a) ;; Ok (r.1, r.2, alloc_non_action a).

(** One turn of the second loop. *)
Definition assign (old : list Struct) (a : alloc) (old_id : nat)
  : result alloc :=
  st <- py_getitem old (Z.of_nat old_id) ;;
  act <- getattr st "action" ;;
  r <- take_slot (is_not_None act) a ;;
  let new_id := r.1.1 in
  pool <- list_remove new_id (alloc_states a) ;;
  Ok {| alloc_action := r.1.2; alloc_non_action := r.2;
        old_to_new := <[old_id := new_id]> (old_to_new a);
        alloc_states := pool |}.

(** [_generate_old_to_new(old, new, alloc_states)]: the table and the
    pool as the call leaves it. *)
Definition _generate_old_to_new (old new : list Struct) (pool : list Z)
  : result (list Z * list Z) :=
  if Z.of_nat (length old) - 1 >? Z.of_nat (length pool) then
    Raise StateRemapException
  else
    sets <- categorize new pool ;;
    a <- for_each (assign old) (seq 1 (length old - 1))
           {| alloc_action := sets.1; alloc_non_action := sets.2;
              old_to_new := replicate (length old) 0;
              alloc_states := pool |} ;;
    Ok (old_to_new a, alloc_states a).

(** One turn of the copying loop of [remap_states]. The test is
    [nextstate != -1]; of the values of the model every one but the
    integer -1 differs from -1. *)
Definition copy_state (old : list Struct) (table : list Z)
    (new : list Struct) (old_id : nat) : result (list Struct) :=
  new_id <- py_getitem table (Z.of_nat old_id) ;;
  src <- py_getitem old (Z.of_nat old_id) ;;
  new1 <- state_copy_from new new_id src ;;
  dst <- py_getitem new1 new_id ;;
  nextstate <- getattr dst "nextstate" ;;
  if decide (nextstate <> PInt (-1)) then
    i <- py_index nextstate ;;
    target <- py_getitem table i ;;
    state_setattr new1 new_id "nextstate" (PInt target)
  else Ok new1.

(** [remap_states(old, new, alloc_states)]: the returned table, and
    the destination and the pool as the call leaves them. *)
Definition remap_states (old new : list Struct) (pool : list Z)
  : result (list Z * list Struct * list Z) :=
  g <- _generate_old_to_new old new pool ;;
  new' <- for_each (copy_state old g.1) (seq 1 (length old - 1)) new ;;
  Ok (g.1, new', g.2).

End Remap.

End StatesParser.

(** * Notions used in the statements *)

Module StructSpec.
Import C.

(** A field that holds a value. After [__init__] every declared field
    does. *)
Definition filled (s : Struct) (f : string) : Prop :=
  exists v, getattr s f = Ok v.

(** An instance as [__init__] leaves it and field assignments keep
    it: every declared field holds a value. *)
Definition initialised (s : Struct) : Prop :=
  forall f, f ∈ field_names (stype s) -> filled s f.

(** The line [render] owes to a requested field: none when the field
    is not declared, when its external name is [None] or when that
    name is the empty string. *)
Definition field_line (action_str : string -> string) (s : Struct)
    (f : string) : option string :=
  match index_of f (field_names (stype s)) with
  | Some i =>
      match fields (stype s) !! i, _fields s !! i with
      | Some (_, Some d), Some v =>
          if String.eqb d "" then None
          else Some (d +:+ " = " +:+ py_str action_str v)
      | _, _ => None
      end
  | None => None
  end.

(** The rendering: nothing at all without value lines, otherwise the
    header and the value lines, one per line. *)
Definition render (action_str : string -> string) (s : Struct)
    (requested : list string) (index : Z) : string :=
  match omap (field_line action_str s) requested with
  | [] => ""
  | ls => String.concat LF ((DEHACKED_NAME (stype s) +:+ " " +:+ pretty index) :: ls)
  end.

(** The same with a line for every requested field whose external
    name is not [None], the empty name included. *)
Definition field_line_non_null (action_str : string -> string) (s : Struct)
    (f : string) : option string :=
  match index_of f (field_names (stype s)) with
  | Some i =>
      match fields (stype s) !! i, _fields s !! i with
      | Some (_, Some d), Some v => Some (d +:+ " = " +:+ py_str action_str v)
      | _, _ => None
      end
  | None => None
  end.

Definition render_non_null (action_str : string -> string) (s : Struct)
    (requested : list string) (index : Z) : string :=
  match omap (field_line_non_null action_str s) requested with
  | [] => ""
  | ls => String.concat LF ((DEHACKED_NAME (stype s) +:+ " " +:+ pretty index) :: ls)
  end.

(** A record type with one field whose external name is the empty
    string, and its instance built without arguments. *)
Definition blank_name_t : struct_type := {|
  type_name := "blank_name_t";
  DEHACKED_NAME := "Thing";
  fields := [("value", Some "")]
|}.

Definition blank_name_instance : Struct := {|
  stype := blank_name_t;
  _fields := {[ 0%nat := PInt 0 ]};
  _original_values := ([], [])
|}.

(** Whether a field holds the not-a-number, the fields of an
    instance that do, and an instance none of whose fields does. *)
Definition holds_nan (s : Struct) (f : string) : bool :=
  match getattr s f with
  | Ok PNaN => true
  | _ => false
  end.

Definition nan_fields (s : Struct) : list string :=
  filter (fun f => holds_nan s f = true) (field_names (stype s)).

Definition nan_free (s : Struct) : Prop :=
  forall f, getattr s f <> Ok PNaN.

(** Every value stored in an instance has the property [P]. *)
Definition holds_only (P : pyval -> Prop) (s : Struct) : Prop :=
  forall i w, _fields s !! i = Some w -> P w.

(** The pistol sound: [sfxinfo_t("pistol", 0, 64, pitch=-1, volume=-1)]. *)
Definition pistol : Struct := {|
  stype := Sounds.sfxinfo_t;
  _fields := list_to_map
    [(0%nat, PStr "pistol"); (1%nat, PInt 0); (2%nat, PInt 64);
     (3%nat, PInt 0); (4%nat, PInt (-1)); (5%nat, PInt (-1));
     (6%nat, PInt 0); (7%nat, PInt 0); (8%nat, PInt 0)];
  _original_values :=
    ([PStr "pistol"; PInt 0; PInt 64],
     [("pitch", PInt (-1)); ("volume", PInt (-1))])
|}.

End StructSpec.

Module ParserSpec.
Import C StatesParser.

(** The values of the fields of a state, in declaration order. *)
Definition field_values (st : Struct) : list (result pyval) :=
  map (getattr st) (field_names state_t).

(** A text from its lines. *)
Definition text (ls : list string) : string := String.concat LF ls.

(** The two-label sequence of an imp. *)
Definition two_label_input : string :=
  text ["Spawn:"; "TROO AB 10 A_Look"; "Loop";
        "See:"; "TROO AABB 3 A_Chase"; "Loop"].

(** A goto two steps past a label whose only state ends in [Stop]. *)
Definition overrun_input : string :=
  text ["A:"; "TROO A 1"; "Stop"; "B:"; "TROO B 1"; "Goto A+2"].

(** A label with an alias, then a label written as that alias. *)
Definition alias_clash_input : string :=
  text ["Spawn:"; "TROO A 1"; "Stop"; "spawnstate:"; "TROO B 1"; "Stop"].

(** A parser in the middle of its work, with one label bound. *)
Definition parser_with (labels : gmap string Z) (ls : list string) : _Parser := {|
  states := [];
  state_labels := labels;
  previous_state_id := -1;
  loop_start_id := -1;
  saved_gotos := [];
  line_number := 1;
  lines := ls
|}.

(** A parser that has a binding for [seestate] only, and the same
    after [See] is bound to state 2. *)
Definition see_taken : _Parser :=
  parser_with {[ "seestate" := 7 ]} [].

Definition see_bound : _Parser :=
  with_labels (<[ "See" := 2 ]> {[ "seestate" := 7 ]}) 2 see_taken.

(** Registries that know the imp's sprite and two of its actions,
    and an interpreter that enumerates sets in insertion order. *)
Definition imp_sprites (n : string) : option Z :=
  if String.eqb n "SPR_TROO" then Some 0 else None.

Definition imp_actions (n : string) : bool :=
  (String.eqb n "A_Look" || String.eqb n "A_Chase")%bool.

Definition insertion_order (l : list string) : list string := l.

(** An expression is consuming when what follows a match is shorter
    than the line. *)
Definition consuming {G} (re : string -> option (G * string)) : Prop :=
  forall line g rest,
    re line = Some (g, rest) -> (String.length rest < String.length line)%nat.

(** A control statement: a line that one of the three statement
    expressions matches. *)
Definition is_control (line : string) : Prop :=
  is_Some (LOOP_STATEMENT_RE line) \/
  is_Some (GOTO_STATEMENT_RE line) \/
  is_Some (STOP_STATEMENT_RE line).

(** A label line: the label expression matches and takes the whole
    line. *)
Definition is_label_line (line : string) : Prop :=
  exists name, GOTO_LABEL_RE line = Some (name, "").

(** A parser with a sprite and a label behind it, about to read two
    more labels and a [Loop]. *)
Definition before_loop : _Parser := {|
  states := [];
  state_labels := {[ "Spawn" := 1; "spawnstate" := 1 ]};
  previous_state_id := 1;
  loop_start_id := 1;
  saved_gotos := [];
  line_number := 3;
  lines := ["Idle:"; " Spawn :"; "  Loop"; "See:"]
|}.

End ParserSpec.

Module RemapSpec.
Import C StatesParser.


(** Whether a source state carries an action. *)
Definition carries_action (st : Struct) (b : bool) : Prop :=
  exists v, getattr st "action" = Ok v /\ b = is_not_None v.

(** The greedy allocation in the words of the specification. The
    source states are taken in order; for each, [true] when it
    carries an action, a slot is drawn from the action-capable slots
    if there is one and else from the others, and the other way
    round for a state without action. The drawn slot leaves its
    set. *)
Inductive greedy : list bool -> list Z -> list Z -> list Z -> Prop :=
  | greedy_done capable plain :
      greedy [] capable plain []
  | greedy_action_capable acts capable capable' plain x ids :
      capable ≡ₚ x :: capable' ->
      greedy acts capable' plain ids ->
      greedy (true :: acts) capable plain (x :: ids)
  | greedy_action_fallback acts plain plain' x ids :
      plain ≡ₚ x :: plain' ->
      greedy acts [] plain' ids ->
      greedy (true :: acts) [] plain (x :: ids)
  | greedy_plain_plain acts capable plain plain' x ids :
      plain ≡ₚ x :: plain' ->
      greedy acts capable plain' ids ->
      greedy (false :: acts) capable plain (x :: ids)
  | greedy_plain_fallback acts capable capable' x ids :
      capable ≡ₚ x :: capable' ->
      greedy acts capable' [] ids ->
      greedy (false :: acts) capable [] (x :: ids).

(** How the link of a copied state relates to the link of its
    source: -1 stays -1, any other link is looked up in the table. *)
Definition link_rewritten (table : list Z) (src dst : Struct) : Prop :=
  exists link,
    getattr src "nextstate" = Ok link /\
    ((link = PInt (-1) /\ getattr dst "nextstate" = Ok (PInt (-1))) \/
     (link <> PInt (-1) /\
      exists i target,
        link = PInt i /\ py_getitem table i = Ok target /\
        getattr dst "nextstate" = Ok (PInt target))).

(** A state as the constructor builds it from keyword arguments. *)
Definition state_of (kwargs : list (string * pyval)) : Struct :=
  match new state_t [] kwargs with
  | Ok st => st
  | _ => {| stype := state_t; _fields := ∅; _original_values := ([], kwargs) |}
  end.

(** A source of one state whose link was never resolved, a source of
    two states, one without and one with an action, and a destination
    of four states of which the last two have an action. *)
Definition unresolved_source : list Struct :=
  [state_of []; state_of [("tics", PInt 5); ("nextstate", PInt (-1))]].

Definition two_state_source : list Struct :=
  [state_of [];
   state_of [("tics", PInt 5); ("action", PNone); ("nextstate", PInt 2)];
   state_of [("tics", PInt 7); ("action", PAction "A_Look");
             ("nextstate", PInt 1)]].

Definition small_table : list Struct :=
  [state_of [];
   state_of [("action", PNone)];
   state_of [("action", PAction "A_Chase")];
   state_of [("action", PAction "A_Fall")]].

(** [set.pop()] taking the first member in the enumeration. *)
Definition pop_first (s : list Z) : nat := 0%nat.

(** The destination as a successful [remap_states] leaves it. *)
Definition table_after (old new : list Struct) (pool : list Z) : list Struct :=
  match remap_states pop_first old new pool with
  | Ok r => r.1.2
  | _ => []
  end.

End RemapSpec.

Module RecordSpec.
Import C.

Global Instance parse_msg_eq_dec : EqDecision parse_msg.
Proof. solve_decision. Defined.

Global Instance exn_eq_dec : EqDecision exn.
Proof. solve_decision. Defined.

Global Instance result_eq_dec {A} `{EqDecision A} : EqDecision (result A).
Proof. solve_decision. Defined.

(** The value the last assignment to [f] in a list of assignments
    gives it, if there is one. *)
Fixpoint assoc_last (f : string) (l : list (string * pyval)) : option pyval :=
  match l with
  | [] => None
  | (g, v) :: l' =>
      match assoc_last f l' with
      | Some w => Some w
      | None => if String.eqb f g then Some v else None
      end
  end.

(** The arguments a constructor takes without complaint: no more
    positional values than fields, and named values for declared
    fields only. *)
Definition accepted (ty : struct_type) (args : list pyval)
    (kwargs : list (string * pyval)) : Prop :=
  (length args <= length (fields ty))%nat /\
  Forall (fun kv => kv.1 ∈ field_names ty) kwargs.

(** The value of the field at position [i] after construction: the
    named value if there is one, else the positional value if there
    is one, else zero. *)
Definition initial_value (args : list pyval) (kwargs : list (string * pyval))
    (i : nat) (f : string) : pyval :=
  match assoc_last f kwargs with
  | Some v => v
  | None => default (PInt 0) (args !! i)
  end.

(** Whether a field of [self] differs, under [!=], from the same
    field of [other], and the fields of [self] that do, in
    declaration order. *)
Definition differs (self other : Struct) (f : string) : bool :=
  match getattr self f, getattr other f with
  | Ok a, Ok b => py_ne a b
  | _, _ => false
  end.

Definition differing (self other : Struct) : list string :=
  filter (fun f => differs self other f = true) (field_names (stype self)).

(** A coordinate, as in the example of [c.py]. *)
Definition Coordinate : struct_type := {|
  type_name := "Coordinate";
  DEHACKED_NAME := "Co-ordinate";
  fields := [("x", Some "X Value"); ("y", Some "Y Value")]
|}.

Definition instance_of (ty : struct_type) (args : list pyval)
    (kwargs : list (string * pyval)) : Struct :=
  match new ty args kwargs with
  | Ok s => s
  | _ => {| stype := ty; _fields := ∅; _original_values := (args, kwargs) |}
  end.

(** [Coordinate(float('nan'), 2)]. *)
Definition nan_coordinate : Struct :=
  instance_of Coordinate [PNaN; PInt 2] [].

Definition array_of (ty : struct_type) (elements : list initializer)
  : StructArray :=
  match StructArray_new ty elements with
  | Ok a => a
  | _ => {| _struct_type := ty; _elements := [] |}
  end.

(** One turn of the loop of [StructArray.dehacked_diffs]. *)
Definition diff_turn (action_str : string -> string)
    (other : option StructArray) (acc : list string) (p : nat * Struct)
  : result (list string) :=
  other_el <- (match other with
               | Some o => el <- StructArray_getitem o (Z.of_nat p.1) ;;
                           Ok (Some el)
               | None => Ok None
               end) ;;
  d <- dehacked_diffs action_str p.2 other_el (Z.of_nat p.1) ;;
  Ok (acc ++ d).

(** An array whose elements are initialised instances of its
    class. *)
Definition sound_array (a : StructArray) : Prop :=
  Forall (fun s => stype s = _struct_type a /\ StructSpec.initialised s)
         (_elements a).

End RecordSpec.

Module LinkSpec.
Import C StatesParser StructSpec ParserSpec.

(** A state that fits a table of [len] states: an initialised
    [state_t] whose link is an index of the table. *)
Definition linked (len : nat) (st : Struct) : Prop :=
  stype st = state_t /\ initialised st /\
  exists n, getattr st "nextstate" = Ok (PInt n) /\ 0 <= n < Z.of_nat len.

(** The table holds the NULL state, as [state_t()] builds it, at
    index 0. *)
Definition null_first (sts : list Struct) : Prop :=
  exists null, new state_t [] [] = Ok null /\ sts !! 0%nat = Some null.

(** An index of a state other than the NULL state. *)
Definition state_index (sts : list Struct) (i : Z) : Prop :=
  1 <= i < Z.of_nat (length sts).

(** A marker of the parser: -1 or the index of a state. *)
Definition marker (sts : list Struct) (i : Z) : Prop :=
  i = -1 \/ state_index sts i.

(** What the parser keeps true of its attributes from one statement
    to the next. *)
Record well_formed (p : _Parser) : Prop := {
  wf_states : Forall (linked (length (states p))) (states p);
  wf_null : null_first (states p);
  wf_previous : marker (states p) (previous_state_id p);
  wf_loop : marker (states p) (loop_start_id p);
  wf_labels : forall name i,
      state_labels p !! name = Some i -> state_index (states p) i;
  wf_gotos : Forall (fun g : Z * Z * string * Z =>
                       state_index (states p) g.1.1.2) (saved_gotos p)
}.

(** The exceptions the parser raises on purpose, without the one for
    a goto offset that runs past the end of a sequence. *)
Definition parse_failure (e : exn) : Prop :=
  match e with
  | StatesParseException _ (GotoOffsetTooLong _ _) => False
  | StatesParseException _ _ => True
  | _ => False
  end.

(** A call that returns a value with the property [P], or raises one
    of these exceptions. *)
Definition sound {A} (P : A -> Prop) (r : result A) : Prop :=
  match r with
  | Ok a => P a
  | Raise e => parse_failure e
  | OutOfFuel => True
  end.

(** The result of [parse]: the NULL state first, every link an index
    of the list, every label the index of a state after the first. *)
Definition well_linked (r : list Struct * gmap string Z) : Prop :=
  null_first r.1 /\
  Forall (linked (length r.1)) r.1 /\
  forall name i, r.2 !! name = Some i -> state_index r.1 i.

(** A slot of the destination that can take a state: an index that
    is not negative, at which the destination holds a [state_t] that
    can recall its original. *)
Definition slot_ready (new : list Struct) (i : Z) : Prop :=
  0 <= i /\
  exists st o, new !! Z.to_nat i = Some st /\ stype st = state_t /\
               original st = Ok o.

(** A free state of a table, as the constructor builds it from
    keyword arguments. *)
Definition free_state (kwargs : list (string * pyval)) : Struct :=
  match new state_t [] kwargs with
  | Ok st => st
  | _ => {| stype := state_t; _fields := ∅; _original_values := ([], kwargs) |}
  end.

(** A destination of twelve states, of which those at even indices
    have an action. *)
Definition wide_table : list Struct :=
  map (fun i => free_state [("action",
                             if Nat.even i then PAction "A_Look" else PNone)])
      (seq 0 12).

(** What [parse] returns for a text, with the registries of the imp
    and sets enumerated in insertion order. *)
Definition parsed (defstr : string) : list Struct * gmap string Z :=
  match parse imp_sprites imp_actions insertion_order defstr with
  | Ok r => r
  | _ => ([], ∅)
  end.

End LinkSpec.

Module FrameSpec.
Import C StatesParser ParserSpec.





(** The link of a state. *)
Definition link (st : Struct) : result pyval := getattr st "nextstate".


Definition states_of (params : frame_groups) : list Struct :=
  match construct_states imp_sprites imp_actions params with
  | Ok sts => sts
  | _ => []
  end.



(** The complaint about a first statement that is no frame line:
    the tests are made in the order of [_Parser.parse]. *)
Definition first_error (line : string) : parse_msg :=
  match LOOP_STATEMENT_RE line with
  | Some _ => LoopWithoutPrecedingState
  | None =>
      match GOTO_STATEMENT_RE line with
      | Some _ => GotoWithoutPreviousState
      | None =>
          match STOP_STATEMENT_RE line with
          | Some _ => StopWithoutPrecedingState
          | None => ParseError
          end
      end
  end.

End FrameSpec.

(** * Properties *)

(** ** General lemmas on results and loops *)

Lemma bind_Ok {A B} (m : result A) (k : A -> result B) (b : B) :
  bind m k = Ok b -> exists a, m = Ok a /\ k a = Ok b.
Proof. destruct m; simpl; intros H; try discriminate. eauto. Qed.

Lemma for_each_app {A S} (body : S -> A -> result S) (xs ys : list A) (s : S) :
  for_each body (xs ++ ys) s = bind (for_each body xs s) (for_each body ys).
Proof.
  revert s. induction xs as [|x xs IH]; intros s; simpl; [reflexivity|].
  destruct (body s x); simpl; auto.
Qed.

(** A property of the loop state that every turn keeps is kept by the
    loop. *)
Lemma for_each_invariant {A S} (P : S -> Prop) (body : S -> A -> result S)
    (xs : list A) (s s' : S) :
  (forall s1 x s2, x ∈ xs -> P s1 -> body s1 x = Ok s2 -> P s2) ->
  P s -> for_each body xs s = Ok s' -> P s'.
Proof.
  revert s. induction xs as [|x xs IH]; simpl; intros s Hstep Hs Hrun.
  - congruence.
  - apply bind_Ok in Hrun as (s1 & H1 & H2).
    apply (IH s1); auto.
    + intros. eapply Hstep; eauto. now apply list_elem_of_further.
    + eapply Hstep; eauto. apply list_elem_of_here.
Qed.

(** ** The record model *)

Module StructFacts.
Import C StructSpec.

Lemma index_of_is_Some (f : string) (names : list string) :
  f ∈ names -> is_Some (index_of f names).
Proof.
  induction names as [|n names IH]; intros Hin.
  - inversion Hin.
  - simpl. destruct (String.eqb f n) eqn:E; [eauto|].
    apply String.eqb_neq in E.
    apply elem_of_cons in Hin as [->|Hin]; [congruence|].
    destruct (IH Hin) as [i ->]. simpl. eauto.
Qed.

Lemma index_of_elem (f : string) (names : list string) (i : nat) :
  index_of f names = Some i -> names !! i = Some f.
Proof.
  revert i. induction names as [|n names IH]; intros i; simpl; [discriminate|].
  destruct (String.eqb f n) eqn:E.
  - apply String.eqb_eq in E as ->. now intros [= <-].
  - destruct (index_of f names) as [j|]; simpl; [|discriminate].
    intros [= <-]. simpl. now apply IH.
Qed.

Lemma stype_setattr s f v : stype (setattr s f v) = stype s.
Proof. unfold setattr. now destruct (index_of f _). Qed.

Lemma original_values_setattr s f v :
  _original_values (setattr s f v) = _original_values s.
Proof. unfold setattr. now destruct (index_of f _). Qed.

Lemma filled_setattr s f g v : filled s f -> filled (setattr s g v) f.
Proof.
  unfold filled, getattr. rewrite stype_setattr. intros [w Hw].
  destruct (index_of f (field_names (stype s))) as [i|]; [|discriminate].
  unfold setattr. destruct (index_of g (field_names (stype s))) as [j|]; simpl.
  - destruct (decide (j = i)) as [->|Hne].
    + rewrite lookup_insert_eq. eauto.
    + rewrite lookup_insert_ne by done. eauto.
  - eauto.
Qed.

Lemma filled_setattr_same s g v :
  g ∈ field_names (stype s) -> filled (setattr s g v) g.
Proof.
  intros Hin. destruct (index_of_is_Some _ _ Hin) as [i Hi].
  unfold filled, getattr. rewrite stype_setattr, Hi.
  unfold setattr. rewrite Hi. simpl. rewrite lookup_insert_eq. eauto.
Qed.

Lemma getattr_setattr_same s g v :
  g ∈ field_names (stype s) -> getattr (setattr s g v) g = Ok v.
Proof.
  intros Hin. destruct (index_of_is_Some _ _ Hin) as [i Hi].
  unfold getattr. rewrite stype_setattr, Hi.
  unfold setattr. rewrite Hi. simpl. now rewrite lookup_insert_eq.
Qed.

Lemma index_of_inj f g names i :
  index_of f names = Some i -> index_of g names = Some i -> f = g.
Proof.
  intros Hf Hg. apply index_of_elem in Hf, Hg. congruence.
Qed.

Lemma getattr_setattr_other s f g v :
  f <> g -> getattr (setattr s g v) f = getattr s f.
Proof.
  intros Hne. unfold getattr. rewrite stype_setattr.
  destruct (index_of f (field_names (stype s))) as [i|] eqn:Hi; [|reflexivity].
  unfold setattr.
  destruct (index_of g (field_names (stype s))) as [j|] eqn:Hj; [|reflexivity].
  simpl. rewrite lookup_insert_ne; [reflexivity|].
  intros ->. apply Hne. eapply index_of_inj; eauto.
Qed.

(** The zeroing loop of [__init__]. *)
Lemma zero_fields_spec (l : list string) (s : Struct) :
  let s' := foldl (fun s' f => setattr s' f (PInt 0)) s l in
  stype s' = stype s /\
  _original_values s' = _original_values s /\
  (forall f, filled s f -> filled s' f) /\
  (forall f, f ∈ l -> f ∈ field_names (stype s) -> filled s' f).
Proof.
  revert s. induction l as [|x l IH]; intros s; simpl.
  - repeat split; auto. intros f Hf. inversion Hf.
  - destruct (IH (setattr s x (PInt 0))) as (Ht & Ho & Hk & Hn).
    rewrite stype_setattr in *. rewrite original_values_setattr in Ho.
    repeat split; auto.
    + intros f Hf. apply Hk. now apply filled_setattr.
    + intros f Hin Hdecl. apply elem_of_cons in Hin as [->|Hin].
      * apply Hk. now apply filled_setattr_same.
      * now apply Hn.
Qed.

Lemma positional_spec (l : list (string * pyval)) (s : Struct) :
  let s' := foldl (fun s' '(f, v) => setattr s' f v) s l in
  stype s' = stype s /\ (forall f, filled s f -> filled s' f).
Proof.
  revert s. induction l as [|[x v] l IH]; intros s; simpl; [auto|].
  destruct (IH (setattr s x v)) as (Ht & Hk).
  rewrite stype_setattr in Ht. split; auto.
  intros f Hf. apply Hk. now apply filled_setattr.
Qed.

Lemma set_values_spec args kwargs s s' :
  set_values args kwargs s = Ok s' ->
  stype s' = stype s /\ (forall f, filled s f -> filled s' f).
Proof.
  unfold set_values.
  destruct (length (field_names (stype s)) <? length args)%nat; [discriminate|].
  intros Hrun.
  destruct (positional_spec (zip (field_names (stype s)) args) s) as (Ht & Hk).
  simpl in Ht, Hk.
  eapply (for_each_invariant
            (fun q => stype q = stype s /\ forall f, filled s f -> filled q f))
    in Hrun; auto.
  intros s1 [f v] s2 _ (Ht1 & Hk1). case_bool_decide; [|discriminate].
  intros [= <-]. rewrite stype_setattr. split; auto.
  intros g Hg. now apply filled_setattr, Hk1.
Qed.

(** What [__init__] establishes. *)
Lemma new_spec ty args kwargs s :
  new ty args kwargs = Ok s ->
  stype s = ty /\ _original_values s = (args, kwargs) /\
  (forall f, f ∈ field_names ty -> filled s f).
Proof.
  unfold new. intros Hrun. apply bind_Ok in Hrun as (s1 & H1 & [= <-]).
  simpl. repeat split.
  apply set_values_spec in H1 as (Ht & Hk).
  set (s0 := {| stype := ty; _fields := ∅; _original_values := ([], []) |}) in *.
  destruct (zero_fields_spec (field_names ty) s0) as (Ht0 & _ & _ & Hn).
  simpl in Ht0, Hn. rewrite Ht0 in Ht.
  intros f Hf. destruct (Hk f) as [v Hv]; [now apply Hn|].
  exists v. unfold getattr in *. simpl. now rewrite Ht in Hv.
Qed.

(** Replaying the constructor arguments gives the instance back. *)
Lemma original_new ty args kwargs s :
  new ty args kwargs = Ok s -> original s = Ok s.
Proof.
  intros Hnew. unfold original.
  destruct (new_spec _ _ _ _ Hnew) as (-> & -> & _). exact Hnew.
Qed.

(** [!=] of a value and itself, and of two values either way. *)
Lemma py_ne_same v : py_ne v v = bool_decide (v = PNaN).
Proof.
  destruct v; unfold py_ne; repeat case_bool_decide; congruence.
Qed.

(** Against an integer, [!=] is plain inequality of values: the
    tests of a link against -1 can be read either way. *)
Lemma py_ne_int v z : py_ne v (PInt z) = bool_decide (v <> PInt z).
Proof.
  destruct v; reflexivity.
Qed.

Lemma py_ne_sym a b : py_ne a b = py_ne b a.
Proof.
  destruct a, b; unfold py_ne; try reflexivity;
    repeat case_bool_decide; congruence.
Qed.

Lemma holds_nan_spec s f : holds_nan s f = true <-> getattr s f = Ok PNaN.
Proof.
  unfold holds_nan. destruct (getattr s f) as [[| | | |]| |]; split;
    congruence.
Qed.

Lemma nan_free_fields s (l : list string) :
  nan_free s -> filter (fun f => holds_nan s f = true) l = [].
Proof.
  intros Hs. induction l as [|f l IH]; [reflexivity|].
  rewrite filter_cons_False; [exact IH|].
  intros H. apply holds_nan_spec in H. now apply (Hs f).
Qed.

(** The loop of [diff] against an instance with the same values: the
    fields that hold the not-a-number differ, and no other. *)
Lemma diff_loop_same (s o : Struct) (l acc : list string) :
  (forall f, f ∈ l -> exists v, getattr s f = Ok v /\ getattr o f = Ok v) ->
  for_each (fun acc f =>
              a <- getattr s f ;;
              b <- getattr o f ;;
              Ok (if py_ne a b then acc ++ [f] else acc)) l acc
  = Ok (acc ++ filter (fun f => holds_nan s f = true) l).
Proof.
  revert acc. induction l as [|f l IH]; intros acc Hall; cbn [for_each].
  - now rewrite app_nil_r.
  - destruct (Hall f) as (v & Hs & Ho); [apply list_elem_of_here|].
    rewrite Hs, Ho. cbn [bind]. rewrite py_ne_same.
    rewrite IH by (intros g Hg; apply Hall; now apply list_elem_of_further).
    case_bool_decide as Hv.
    + rewrite filter_cons_True by (apply holds_nan_spec; congruence).
      now rewrite <- app_assoc.
    + rewrite filter_cons_False; [reflexivity|].
      intros H. apply holds_nan_spec in H. congruence.
Qed.

(** What the constructor stores comes from its arguments. *)
Lemma setattr_holds_only (P : pyval -> Prop) s f v :
  P v -> holds_only P s -> holds_only P (setattr s f v).
Proof.
  intros Hv Hs i w. unfold setattr.
  destruct (index_of f (field_names (stype s))) as [k|]; cbn; [|apply Hs].
  intros H. apply lookup_insert_Some in H as [[_ <-]|[_ H]]; eauto.
Qed.

Lemma zero_fields_hold_only (P : pyval -> Prop) (l : list string) :
  forall s, P (PInt 0) -> holds_only P s ->
            holds_only P (foldl (fun s' f => setattr s' f (PInt 0)) s l).
Proof.
  induction l as [|f l IH]; intros s H0 Hs; cbn [foldl]; [exact Hs|].
  apply IH; [exact H0|]. now apply setattr_holds_only.
Qed.

Lemma assignments_hold_only (P : pyval -> Prop) (l : list (string * pyval)) :
  forall s, Forall (fun kv => P kv.2) l -> holds_only P s ->
            holds_only P (foldl (fun s' '(f, v) => setattr s' f v) s l).
Proof.
  induction l as [|[f v] l IH]; intros s Hl Hs; cbn [foldl]; [exact Hs|].
  inversion Hl as [|? ? Hv Hl']; subst.
  apply IH; [exact Hl'|]. now apply setattr_holds_only.
Qed.

Lemma new_holds_only (P : pyval -> Prop) ty args kwargs s :
  new ty args kwargs = Ok s ->
  P (PInt 0) -> Forall P args -> Forall (fun kv => P kv.2) kwargs ->
  holds_only P s.
Proof.
  unfold new. intros Hrun H0 Hargs Hkw.
  apply bind_Ok in Hrun as (s1 & H1 & [= <-]).
  unfold holds_only. cbn [_fields]. fold (holds_only P s1).
  unfold set_values in H1.
  destruct (_ <? _)%nat; [discriminate|].
  eapply (for_each_invariant (holds_only P)) in H1; [exact H1| |].
  - intros q [f v] q' Hin Hq. case_bool_decide; [|discriminate].
    intros [= <-]. apply setattr_holds_only; [|exact Hq].
    rewrite Forall_forall in Hkw. now apply (Hkw (f, v)).
  - apply assignments_hold_only.
    + apply Forall_forall. intros [f v] Hin. cbn.
      rewrite Forall_forall in Hargs. apply Hargs.
      eapply elem_of_zip_r; eauto.
    + apply zero_fields_hold_only; [exact H0|].
      intros i w H. cbn in H. now rewrite lookup_empty in H.
Qed.

Lemma holds_only_nan_free s : holds_only (fun v => v <> PNaN) s -> nan_free s.
Proof.
  intros Hs f. unfold getattr.
  destruct (index_of f (field_names (stype s))) as [i|]; [|discriminate].
  destruct (_fields s !! i) as [w|] eqn:E; [|discriminate].
  intros [= ->]. now apply (Hs i PNaN).
Qed.

Lemma new_nan_free ty args kwargs s :
  new ty args kwargs = Ok s ->
  Forall (fun v => v <> PNaN) args ->
  Forall (fun kv : string * pyval => kv.2 <> PNaN) kwargs ->
  nan_free s.
Proof.
  intros Hnew Hargs Hkw. apply holds_only_nan_free.
  apply (new_holds_only (fun v => v <> PNaN) ty args kwargs s Hnew);
    [intros H; discriminate H|assumption|assumption].
Qed.

(** C7, as amended. For every record type and all constructor
    arguments that the constructor accepts, [original()] of the fresh
    instance succeeds and [diff] against it, given explicitly or by
    default, lists the fields that hold the not-a-number, which
    differs from itself, and no other field; so it is the empty list
    when no constructor argument is the not-a-number. *)
Theorem diff_original_after_construction
    (ty : struct_type) (args : list pyval) (kwargs : list (string * pyval))
    (s : Struct) :
  new ty args kwargs = Ok s ->
  exists o, original s = Ok o /\
            diff s (Some o) = Ok (nan_fields s) /\
            diff s None = Ok (nan_fields s) /\
            (Forall (fun v => v <> PNaN) args ->
             Forall (fun kv : string * pyval => kv.2 <> PNaN) kwargs ->
             diff s (Some o) = Ok [] /\ diff s None = Ok []).
Proof.
  intros Hnew. exists s. pose proof (original_new _ _ _ _ Hnew) as Ho.
  destruct (new_spec _ _ _ _ Hnew) as (Ht & _ & Hfill).
  assert (Hloop : diff s (Some s) = Ok (nan_fields s)).
  { unfold diff. cbn [bind]. rewrite diff_loop_same; [reflexivity|].
    intros f Hf. rewrite Ht in Hf. destruct (Hfill f Hf) as [v Hv]. eauto. }
  assert (Hdefault : diff s None = Ok (nan_fields s)).
  { unfold diff. rewrite Ho. exact Hloop. }
  split; [exact Ho|]. split; [exact Hloop|]. split; [exact Hdefault|].
  intros Hargs Hkw. rewrite Hloop, Hdefault.
  assert (Hfree : nan_fields s = []).
  { apply nan_free_fields. now apply (new_nan_free ty args kwargs s). }
  now rewrite Hfree.
Qed.

Lemma diff_original_after_construction_witness :
  exists o, original pistol = Ok o /\
            diff pistol (Some o) = Ok (nan_fields pistol) /\
            diff pistol None = Ok (nan_fields pistol) /\
            (Forall (fun v => v <> PNaN) [PStr "pistol"; PInt 0; PInt 64] ->
             Forall (fun kv : string * pyval => kv.2 <> PNaN)
                    [("pitch", PInt (-1)); ("volume", PInt (-1))] ->
             diff pistol (Some o) = Ok [] /\ diff pistol None = Ok []).
Proof.
  apply (diff_original_after_construction Sounds.sfxinfo_t
           [PStr "pistol"; PInt 0; PInt 64]
           [("pitch", PInt (-1)); ("volume", PInt (-1))]).
  vm_compute. reflexivity.
Defined.

(** C7, as stated, fails: the constructor accepts the not-a-number
    for the first field of a coordinate, and [diff] of the fresh
    coordinate against its original, given explicitly or by default,
    is the list with that field. *)
Lemma diff_original_lists_nan :
  new RecordSpec.Coordinate [PNaN; PInt 2] [] = Ok RecordSpec.nan_coordinate /\
  original RecordSpec.nan_coordinate = Ok RecordSpec.nan_coordinate /\
  diff RecordSpec.nan_coordinate (Some RecordSpec.nan_coordinate) = Ok ["x"] /\
  diff RecordSpec.nan_coordinate None = Ok ["x"].
Proof.
  repeat split; vm_compute; reflexivity.
Qed.

Lemma new_initialised ty args kwargs s :
  new ty args kwargs = Ok s -> initialised s.
Proof.
  intros Hnew f Hf. destruct (new_spec _ _ _ _ Hnew) as (Ht & _ & Hfill).
  apply Hfill. now rewrite <- Ht.
Qed.

Lemma index_of_lt (f : string) (names : list string) (i : nat) :
  index_of f names = Some i -> (i < length names)%nat.
Proof. intros H. apply index_of_elem in H. now apply lookup_lt_Some in H. Qed.

(** One turn of the loop of [dehacked_output] appends the line of the
    field, if it has one. *)
Lemma render_turn action_str s f (results : list string) :
  f ∈ field_names (stype s) -> filled s f ->
  (deh_name <- field_deh_name (stype s) f ;;
   if truthy deh_name then
     v <- getattr s f ;;
     Ok (results ++ [default "" deh_name +:+ " = " +:+ py_str action_str v])
   else Ok results)
  = Ok (results ++ option_list (field_line action_str s f)).
Proof.
  intros Hin [v Hv]. unfold field_deh_name, field_line.
  destruct (index_of_is_Some _ _ Hin) as [i Hi]. rewrite Hi.
  pose proof (index_of_lt _ _ _ Hi) as Hlt.
  unfold field_names in Hlt. rewrite length_map in Hlt.
  destruct (lookup_lt_is_Some_2 _ _ Hlt) as [[n d] Hd]. rewrite Hd. simpl.
  unfold getattr in Hv. rewrite Hi in Hv.
  destruct (_fields s !! i) as [w|] eqn:Hw; [|discriminate].
  injection Hv as ->.
  destruct d as [d|]; simpl.
  - destruct (String.eqb d "") eqn:E; simpl.
    + now rewrite app_nil_r.
    + unfold getattr. rewrite Hi, Hw. reflexivity.
  - now rewrite app_nil_r.
Qed.

Lemma render_loop action_str s (l results : list string) :
  (forall f, f ∈ l -> f ∈ field_names (stype s) /\ filled s f) ->
  for_each
    (fun results field =>
       deh_name <- field_deh_name (stype s) field ;;
       if truthy deh_name then
         v <- getattr s field ;;
         Ok (results ++ [default "" deh_name +:+ " = " +:+ py_str action_str v])
       else Ok results) l results
  = Ok (results ++ omap (field_line action_str s) l).
Proof.
  revert results. induction l as [|f l IH]; intros results Hall; simpl.
  - now rewrite app_nil_r.
  - destruct (Hall f) as [Hin Hf]; [apply list_elem_of_here|].
    rewrite render_turn by assumption. simpl.
    rewrite IH by (intros g Hg; apply Hall; now apply list_elem_of_further).
    rewrite <- app_assoc. f_equal. f_equal.
    now destruct (field_line action_str s f).
Qed.

(** C8, as amended. For an initialised instance and requested fields
    that are declared, [dehacked_output] is the rendering: the header
    line with the type name and the index, then one line per requested
    field whose external name is neither [None] nor the empty string,
    in the order of the request; without such a line the result is the
    empty string. With no request the declared fields are rendered. *)
Theorem dehacked_output_render
    (action_str : string -> string) (s : Struct) (index : Z) :
  initialised s ->
  (forall requested,
      (forall f, f ∈ requested -> f ∈ field_names (stype s)) ->
      dehacked_output action_str s (Some requested) index
      = Ok (render action_str s requested index)) /\
  dehacked_output action_str s None index
  = Ok (render action_str s (field_names (stype s)) index).
Proof.
  intros Hinit.
  assert (Hgen : forall requested,
             (forall f, f ∈ requested -> f ∈ field_names (stype s)) ->
             dehacked_output action_str s (Some requested) index
             = Ok (render action_str s requested index)).
  { intros requested Hdecl. unfold dehacked_output, render.
    rewrite render_loop by (intros f Hf; split; auto). simpl.
    unfold dehacked_header.
    now destruct (omap (field_line action_str s) requested). }
  split; [exact Hgen|].
  specialize (Hgen (field_names (stype s)) (fun f Hf => Hf)).
  exact Hgen.
Qed.

Lemma dehacked_output_render_witness :
  dehacked_output (fun name => name) pistol None 1
  = Ok (render (fun name => name) pistol (field_names Sounds.sfxinfo_t) 1).
Proof.
  apply (dehacked_output_render (fun name => name) pistol 1).
  apply (new_initialised Sounds.sfxinfo_t
           [PStr "pistol"; PInt 0; PInt 64]
           [("pitch", PInt (-1)); ("volume", PInt (-1))]).
  vm_compute. reflexivity.
Defined.

(** C8, as stated, fails: a field whose external name is the empty
    string is not [None], yet it gets no line, and the instance with
    only such a field renders as the empty string instead of a header
    and a line. *)
Lemma dehacked_output_skips_empty_name :
  new blank_name_t [] [] = Ok blank_name_instance /\
  dehacked_output (fun name => name) blank_name_instance None 0 = Ok "" /\
  render_non_null (fun name => name) blank_name_instance
                  (field_names blank_name_t) 0
  = "Thing 0" +:+ LF +:+ " = 0" /\
  dehacked_output (fun name => name) blank_name_instance None 0
  <> Ok (render_non_null (fun name => name) blank_name_instance
                         (field_names blank_name_t) 0).
Proof.
  repeat split; try (vm_compute; reflexivity).
  vm_compute. discriminate.
Qed.

End StructFacts.

(** ** The parser *)

Module ParserFacts.
Import C StatesParser ParserSpec.

Lemma DECORATE_NAMES_non_empty (k a : string) :
  DECORATE_NAMES !! k = Some a -> a <> "".
Proof.
  unfold DECORATE_NAMES. intros H. apply elem_of_list_to_map_2 in H.
  repeat (apply elem_of_cons in H as [[= -> ->]|H]; [discriminate|]).
  now apply elem_of_nil in H.
Qed.

(** A successful [set_label] for a name with a canonical alias leaves
    the canonical name bound. *)
Lemma set_label_binds_alias (name doom_name : string) (state_id : Z)
    (p p' : _Parser) :
  DECORATE_NAMES !! lower name = Some doom_name ->
  set_label name state_id p = Ok p' ->
  is_Some (state_labels p' !! doom_name).
Proof.
  unfold set_label. intros Hd. case_bool_decide as Hdup; [discriminate|].
  intros [= <-]. cbn [state_labels with_labels]. rewrite Hd.
  pose proof (DECORATE_NAMES_non_empty _ _ Hd) as Hne.
  apply String.eqb_neq in Hne. rewrite Hne. cbn [negb andb].
  case_bool_decide as Hdom.
  - rewrite lookup_insert_eq. eauto.
  - now apply elem_of_dom in Hdom.
Qed.

(** C5. When [set_label] binds a name, every binding that existed is
    kept, the name is bound to the state, and the canonical alias of
    the name is added exactly when the canonical name has no binding;
    otherwise the map is the old one with the name alone added. *)
Theorem set_label_alias_only_if_unbound
    (name : string) (state_id : Z) (p p' : _Parser) :
  set_label name state_id p = Ok p' ->
  (forall k v, state_labels p !! k = Some v -> state_labels p' !! k = Some v) /\
  state_labels p' !! name = Some state_id /\
  match DECORATE_NAMES !! lower name with
  | Some doom_name =>
      (is_Some (<[name := state_id]> (state_labels p) !! doom_name) ->
       state_labels p' = <[name := state_id]> (state_labels p)) /\
      (<[name := state_id]> (state_labels p) !! doom_name = None ->
       state_labels p' =
       <[doom_name := state_id]> (<[name := state_id]> (state_labels p)))
  | None => state_labels p' = <[name := state_id]> (state_labels p)
  end.
Proof.
  unfold set_label. case_bool_decide as Hdup; [discriminate|].
  intros [= <-]. simpl.
  rewrite elem_of_dom in Hdup.
  assert (Hfree : state_labels p !! name = None).
  { destruct (state_labels p !! name) eqn:E; [|reflexivity].
    exfalso. apply Hdup. eauto. }
  destruct (DECORATE_NAMES !! lower name) as [doom_name|] eqn:Hd.
  - pose proof (DECORATE_NAMES_non_empty _ _ Hd) as Hne.
    apply String.eqb_neq in Hne. rewrite Hne. simpl.
    case_bool_decide as Hdom; rewrite elem_of_dom in Hdom.
    + assert (Hnone : <[name:=state_id]> (state_labels p) !! doom_name = None).
      { destruct (<[name:=state_id]> (state_labels p) !! doom_name) eqn:E;
          [|reflexivity]. exfalso. apply Hdom. eauto. }
      split; [|split; [|split]].
      * intros k v Hk. rewrite lookup_insert_ne.
        -- rewrite lookup_insert_ne; [exact Hk|]. intros ->. congruence.
        -- intros ->. rewrite lookup_insert_ne in Hnone; [congruence|].
           intros ->. congruence.
      * rewrite lookup_insert_ne; [apply lookup_insert_eq|].
        intros ->. rewrite lookup_insert_eq in Hnone. discriminate.
      * intros Hsome. exfalso. now apply Hdom.
      * reflexivity.
    + split; [|split; [|split]].
      * intros k v Hk. rewrite lookup_insert_ne; [exact Hk|].
        intros ->. congruence.
      * apply lookup_insert_eq.
      * reflexivity.
      * intros Hnone. destruct Hdom as [v Hv]. congruence.
  - repeat split.
    + intros k v Hk. rewrite lookup_insert_ne; [exact Hk|].
      intros ->. congruence.
    + apply lookup_insert_eq.
Qed.

Lemma set_label_alias_only_if_unbound_witness :
  (forall k v,
      state_labels see_taken !! k = Some v ->
      state_labels see_bound !! k = Some v) /\
  state_labels see_bound !! "See" = Some 2 /\
  match DECORATE_NAMES !! lower "See" with
  | Some doom_name =>
      (is_Some (<[ "See" := 2 ]> (state_labels see_taken) !! doom_name) ->
       state_labels see_bound = <[ "See" := 2 ]> (state_labels see_taken)) /\
      (<[ "See" := 2 ]> (state_labels see_taken) !! doom_name = None ->
       state_labels see_bound
       = <[ doom_name := 2 ]> (<[ "See" := 2 ]> (state_labels see_taken)))
  | None =>
      state_labels see_bound = <[ "See" := 2 ]> (state_labels see_taken)
  end.
Proof.
  apply (set_label_alias_only_if_unbound "See" 2 see_taken see_bound).
  vm_compute. reflexivity.
Defined.

(** The parser consults the registries only through their answers:
    registries that answer alike parse alike. *)
Section RegistryExtensionality.

Variables spritenum_t_index spritenum_t_index' : string -> option Z.
Variables is_Action is_Action' : string -> bool.
Variable label_order : list string -> list string.
Hypothesis same_sprites : forall n, spritenum_t_index n = spritenum_t_index' n.
Hypothesis same_actions : forall n, is_Action n = is_Action' n.

Lemma construct_states_ext params :
  construct_states spritenum_t_index is_Action params
  = construct_states spritenum_t_index' is_Action' params.
Proof.
  unfold construct_states, sprite_for_name, action_pointer_for_name.
  rewrite same_sprites.
  destruct (g_action params) as [[|c n]|]; try reflexivity.
  now rewrite same_actions.
Qed.

Lemma parse_frame_def_ext p :
  parse_frame_def spritenum_t_index is_Action label_order p
  = parse_frame_def spritenum_t_index' is_Action' label_order p.
Proof.
  unfold parse_frame_def.
  destruct (parse_labels p) as [r| |]; simpl; try reflexivity.
  destruct (matches_regexp FRAME_DEF_RE r.2) as [m| |]; simpl; try reflexivity.
  destruct m.1; [|reflexivity]. now rewrite construct_states_ext.
Qed.

Lemma parse_while_ext fuel p :
  parse_while spritenum_t_index is_Action label_order fuel p
  = parse_while spritenum_t_index' is_Action' label_order fuel p.
Proof.
  revert p. induction fuel as [|fuel IH]; intros p; [reflexivity|].
  cbn [parse_while].
  destruct (more_lines p) as [[] q]; cbn [fst snd]; [|reflexivity].
  rewrite parse_frame_def_ext.
  destruct (parse_frame_def _ _ _ _) as [[[] a]| |]; cbn [bind fst snd];
    try reflexivity; [apply IH|].
  destruct (parse_loop a) as [[[] b]| |]; cbn [bind fst snd];
    try reflexivity; [apply IH|].
  destruct (parse_goto b) as [[[] c]| |]; cbn [bind fst snd];
    try reflexivity; [apply IH|].
  destruct (parse_stop c) as [[[] d]| |]; cbn [bind fst snd];
    try reflexivity; apply IH.
Qed.

Lemma parse_ext defstr :
  parse spritenum_t_index is_Action label_order defstr
  = parse spritenum_t_index' is_Action' label_order defstr.
Proof.
  unfold parse, _Parser_parse.
  destruct _Parser_init as [p| |]; cbn [bind]; try reflexivity.
  now rewrite parse_while_ext.
Qed.

End RegistryExtensionality.

(** A registry that knows the sprite [TROO] as number [k] and the
    actions [A_Look] and [A_Chase] answers like one that looks these
    names up first. *)
Lemma parse_with_imp_registry
    (spritenum_t_index : string -> option Z) (is_Action : string -> bool)
    (label_order : list string -> list string) (k : Z) (defstr : string) :
  spritenum_t_index "SPR_TROO" = Some k ->
  is_Action "A_Look" = true ->
  is_Action "A_Chase" = true ->
  parse spritenum_t_index is_Action label_order defstr
  = parse (fun n => if String.eqb n "SPR_TROO" then Some k
                    else spritenum_t_index n)
          (fun n => if String.eqb n "A_Look" then true
                    else if String.eqb n "A_Chase" then true
                    else is_Action n)
          label_order defstr.
Proof.
  intros Hk Hlook Hchase. apply parse_ext.
  - intros n. destruct (String.eqb n "SPR_TROO") eqn:E; [|reflexivity].
    apply String.eqb_eq in E. now subst.
  - intros n. destruct (String.eqb n "A_Look") eqn:E1.
    { apply String.eqb_eq in E1. now subst. }
    destruct (String.eqb n "A_Chase") eqn:E2; [|reflexivity].
    apply String.eqb_eq in E2. now subst.
Qed.

(** C4. With [TROO] a known sprite and [A_Look] and [A_Chase] known
    actions, the two-label input parses to seven states, the first
    the untouched NULL state and six more, whose links are 1 to 2 to
    1 and 3 to 4 to 5 to 6 to 3, and to the label map that binds
    Spawn and spawnstate to 1 and See and seestate to 3. *)
Theorem parse_two_label_example
    (spritenum_t_index : string -> option Z) (is_Action : string -> bool)
    (label_order : list string -> list string) (k : Z) :
  spritenum_t_index "SPR_TROO" = Some k ->
  is_Action "A_Look" = true ->
  is_Action "A_Chase" = true ->
  exists sts labels,
    parse spritenum_t_index is_Action label_order two_label_input
    = Ok (sts, labels) /\
    length sts = 7%nat /\
    labels = {[ "Spawn" := 1; "spawnstate" := 1;
                "See" := 3; "seestate" := 3 ]} /\
    map field_values sts =
    [ [Ok (PInt 0); Ok (PInt 0); Ok (PInt 0); Ok (PInt 0); Ok (PInt 0)];
      [Ok (PInt k); Ok (PInt 0); Ok (PInt 10); Ok (PAction "A_Look"); Ok (PInt 2)];
      [Ok (PInt k); Ok (PInt 1); Ok (PInt 10); Ok (PAction "A_Look"); Ok (PInt 1)];
      [Ok (PInt k); Ok (PInt 0); Ok (PInt 3); Ok (PAction "A_Chase"); Ok (PInt 4)];
      [Ok (PInt k); Ok (PInt 0); Ok (PInt 3); Ok (PAction "A_Chase"); Ok (PInt 5)];
      [Ok (PInt k); Ok (PInt 1); Ok (PInt 3); Ok (PAction "A_Chase"); Ok (PInt 6)];
      [Ok (PInt k); Ok (PInt 1); Ok (PInt 3); Ok (PAction "A_Chase"); Ok (PInt 3)] ].
Proof.
  intros Hk Hlook Hchase.
  rewrite (parse_with_imp_registry _ _ _ k _ Hk Hlook Hchase).
  eexists _, _. split; [vm_compute; reflexivity|].
  repeat split; vm_compute; reflexivity.
Qed.

Lemma parse_two_label_example_witness :
  exists sts labels,
    parse imp_sprites imp_actions insertion_order two_label_input
    = Ok (sts, labels) /\
    length sts = 7%nat /\
    labels = {[ "Spawn" := 1; "spawnstate" := 1;
                "See" := 3; "seestate" := 3 ]} /\
    map field_values sts =
    [ [Ok (PInt 0); Ok (PInt 0); Ok (PInt 0); Ok (PInt 0); Ok (PInt 0)];
      [Ok (PInt 0); Ok (PInt 0); Ok (PInt 10); Ok (PAction "A_Look"); Ok (PInt 2)];
      [Ok (PInt 0); Ok (PInt 1); Ok (PInt 10); Ok (PAction "A_Look"); Ok (PInt 1)];
      [Ok (PInt 0); Ok (PInt 0); Ok (PInt 3); Ok (PAction "A_Chase"); Ok (PInt 4)];
      [Ok (PInt 0); Ok (PInt 0); Ok (PInt 3); Ok (PAction "A_Chase"); Ok (PInt 5)];
      [Ok (PInt 0); Ok (PInt 1); Ok (PInt 3); Ok (PAction "A_Chase"); Ok (PInt 6)];
      [Ok (PInt 0); Ok (PInt 1); Ok (PInt 3); Ok (PAction "A_Chase"); Ok (PInt 3)] ].
Proof.
  apply (parse_two_label_example imp_sprites imp_actions insertion_order 0);
    reflexivity.
Defined.

(** C1, where the code departs from it. A hop of [resolve_goto] from
    a state whose link is 0 raises nothing and goes on from state 0;
    so the goto of the overrun input, two hops from a label whose
    only state ends in [Stop], is resolved to state 0 and written into
    its origin, state 2, and parsing returns normally. *)
Theorem goto_overrun_reaches_null
    (spritenum_t_index : string -> option Z) (is_Action : string -> bool)
    (label_order : list string -> list string) (k : Z) :
  spritenum_t_index "SPR_TROO" = Some k ->
  (forall p line_number label offset i st,
      py_getitem (states p) i = Ok st ->
      getattr st "nextstate" = Ok (PInt 0) ->
      goto_hop p line_number label offset (PInt i) = Ok (PInt 0)) /\
  exists sts labels,
    parse spritenum_t_index is_Action label_order overrun_input
    = Ok (sts, labels) /\
    labels = {[ "A" := 1; "B" := 2 ]} /\
    map field_values sts =
    [ [Ok (PInt 0); Ok (PInt 0); Ok (PInt 0); Ok (PInt 0); Ok (PInt 0)];
      [Ok (PInt k); Ok (PInt 0); Ok (PInt (-1)); Ok PNone; Ok (PInt 0)];
      [Ok (PInt k); Ok (PInt 1); Ok (PInt 1); Ok PNone; Ok (PInt 0)] ].
Proof.
  intros Hk. split.
  - intros p line_number label offset i st Hst Hnext.
    unfold goto_hop. simpl. rewrite Hst. simpl. rewrite Hnext. reflexivity.
  - rewrite (parse_ext spritenum_t_index
               (fun n => if String.eqb n "SPR_TROO" then Some k
                         else spritenum_t_index n)
               is_Action is_Action label_order).
    + eexists _, _. split; [vm_compute; reflexivity|].
      split; vm_compute; reflexivity.
    + intros n. destruct (String.eqb n "SPR_TROO") eqn:E; [|reflexivity].
      apply String.eqb_eq in E. now subst.
    + reflexivity.
Qed.

Lemma goto_overrun_reaches_null_witness :
  (forall p line_number label offset i st,
      py_getitem (states p) i = Ok st ->
      getattr st "nextstate" = Ok (PInt 0) ->
      goto_hop p line_number label offset (PInt i) = Ok (PInt 0)) /\
  exists sts labels,
    parse imp_sprites imp_actions insertion_order overrun_input
    = Ok (sts, labels) /\
    labels = {[ "A" := 1; "B" := 2 ]} /\
    map field_values sts =
    [ [Ok (PInt 0); Ok (PInt 0); Ok (PInt 0); Ok (PInt 0); Ok (PInt 0)];
      [Ok (PInt 0); Ok (PInt 0); Ok (PInt (-1)); Ok PNone; Ok (PInt 0)];
      [Ok (PInt 0); Ok (PInt 1); Ok (PInt 1); Ok PNone; Ok (PInt 0)] ].
Proof.
  apply (goto_overrun_reaches_null imp_sprites imp_actions insertion_order 0).
  reflexivity.
Defined.

(** C10. Binding a name that has a canonical alias binds the alias as
    well; from then on [set_label] for the canonical name raises the
    duplicate-label error in any parser that still has that binding.
    So the alias-clash input, where [spawnstate] is written once,
    after [Spawn], fails at its fifth line with that error. *)
Theorem alias_blocks_canonical_label
    (spritenum_t_index : string -> option Z) (is_Action : string -> bool)
    (label_order : list string -> list string) (k : Z) :
  spritenum_t_index "SPR_TROO" = Some k ->
  (forall name doom_name state_id p p',
      DECORATE_NAMES !! lower name = Some doom_name ->
      set_label name state_id p = Ok p' ->
      is_Some (state_labels p' !! doom_name) /\
      forall q state_id',
        is_Some (state_labels q !! doom_name) ->
        set_label doom_name state_id' q
        = Raise (StatesParseException (Some (line_number q))
                   (LabelDefinedMultipleTimes doom_name))) /\
  parse spritenum_t_index is_Action label_order alias_clash_input
  = Raise (StatesParseException (Some 5)
             (LabelDefinedMultipleTimes "spawnstate")).
Proof.
  intros Hk. split.
  - intros name doom_name state_id p p' Hd Hset. split.
    + eapply set_label_binds_alias; eauto.
    + intros q state_id' Hq. unfold set_label.
      case_bool_decide as Hdom; [reflexivity|].
      exfalso. apply Hdom. now apply elem_of_dom.
  - rewrite (parse_ext spritenum_t_index
               (fun n => if String.eqb n "SPR_TROO" then Some k
                         else spritenum_t_index n)
               is_Action is_Action label_order).
    + vm_compute. reflexivity.
    + intros n. destruct (String.eqb n "SPR_TROO") eqn:E; [|reflexivity].
      apply String.eqb_eq in E. now subst.
    + reflexivity.
Qed.

Lemma alias_blocks_canonical_label_witness :
  (forall name doom_name state_id p p',
      DECORATE_NAMES !! lower name = Some doom_name ->
      set_label name state_id p = Ok p' ->
      is_Some (state_labels p' !! doom_name) /\
      forall q state_id',
        is_Some (state_labels q !! doom_name) ->
        set_label doom_name state_id' q
        = Raise (StatesParseException (Some (line_number q))
                   (LabelDefinedMultipleTimes doom_name))) /\
  parse imp_sprites imp_actions insertion_order alias_clash_input
  = Raise (StatesParseException (Some 5)
             (LabelDefinedMultipleTimes "spawnstate")).
Proof.
  apply (alias_blocks_canonical_label imp_sprites imp_actions
           insertion_order 0).
  reflexivity.
Defined.

End ParserFacts.

(** ** Labels in front of a control statement *)

Module LabelFacts.
Import C StatesParser ParserSpec.

(** *** Character classes *)

Lemma space_not_word c : is_space c = true -> is_word c = false.
Proof. destruct c as [[] [] [] [] [] [] [] []]; vm_compute; congruence. Qed.

Lemma space_not_alpha c : is_space c = true -> is_alpha c = false.
Proof. destruct c as [[] [] [] [] [] [] [] []]; vm_compute; congruence. Qed.

Lemma alpha_is_word c : is_alpha c = true -> is_word c = true.
Proof. unfold is_word. now intros ->. Qed.

Lemma is_alpha_lower_char c : is_alpha (lower_char c) = is_alpha c.
Proof. destruct c as [[] [] [] [] [] [] [] []]; vm_compute; congruence. Qed.

Lemma eqb_lower_word c l :
  Ascii.eqb (lower_char c) (lower_char l) = true ->
  is_alpha l = true -> is_word c = true.
Proof.
  intros E Hl. apply Ascii.eqb_eq in E. apply alpha_is_word.
  now rewrite <- is_alpha_lower_char, E, is_alpha_lower_char.
Qed.

Lemma plus_not_digit c : Ascii.eqb c "+" = true -> is_digit c = false.
Proof. intros E. apply Ascii.eqb_eq in E. now subst. Qed.

Lemma colon_not_word c : is_word c = true -> Ascii.eqb c ":" = false.
Proof.
  intros H. destruct (Ascii.eqb c ":") eqn:E; [|reflexivity].
  apply Ascii.eqb_eq in E. now subst.
Qed.

Lemma minus_not_plus c : Ascii.eqb c "+" = true -> Ascii.eqb c "-" = false.
Proof. intros E. apply Ascii.eqb_eq in E. now subst. Qed.

(** *** Prefixes and rests *)

Lemma blank_skip r : is_blank r = true -> skip is_space r = "".
Proof. unfold is_blank. destruct (skip is_space r); congruence. Qed.

Lemma skip_space_head s c s' :
  skip is_space s = String c s' -> is_space c = false.
Proof.
  induction s as [|x s IH]; simpl; [discriminate|].
  destruct (is_space x) eqn:E; [exact IH|]. now intros [= <- _].
Qed.

Lemma skip_space_idem s : skip is_space (skip is_space s) = skip is_space s.
Proof.
  destruct (skip is_space s) as [|c s'] eqn:E; [reflexivity|].
  simpl. now rewrite (skip_space_head _ _ _ E).
Qed.

Lemma not_blank_skip s c s' : skip is_space s = String c s' -> is_blank s = false.
Proof. unfold is_blank. now intros ->. Qed.

Lemma blank_no_word r :
  is_blank r = true -> take_while is_word r = "" /\ skip is_word r = r.
Proof.
  destruct r as [|c r]; [auto|]. unfold is_blank. simpl.
  destruct (is_space c) eqn:E; [|discriminate].
  intros _. now rewrite (space_not_word _ E).
Qed.

(** After white space and a class that excludes it, the rest of the
    wider class [\w] and of the narrower class of letters agree when
    the letters are followed by white space. *)
Lemma skip_alpha_then_space s c s' :
  skip is_alpha s = String c s' -> is_space c = true ->
  skip is_word s = skip is_alpha s /\ take_while is_word s = take_while is_alpha s.
Proof.
  induction s as [|x s IH]; simpl; [discriminate|].
  destruct (is_alpha x) eqn:E.
  - rewrite (alpha_is_word _ E). intros H Hc.
    destruct (IH H Hc) as [-> ->]. auto.
  - intros [= -> ->] Hc. now rewrite (space_not_word _ Hc).
Qed.

Lemma some_of_Some p s w r :
  some_of p s = Some (w, r) -> w = take_while p s /\ r = skip p s /\ w <> "".
Proof.
  unfold some_of. destruct (take_while p s) eqn:E; [discriminate|].
  intros [= <- <-]. repeat split. discriminate.
Qed.

Lemma take_while_head p s c w :
  take_while p s = String c w -> exists s', s = String c s' /\ p c = true.
Proof.
  destruct s as [|x s]; simpl; [discriminate|].
  destruct (p x) eqn:E; [|discriminate]. intros [= -> _]. eauto.
Qed.

(** *** Literals *)

Lemma literal_cs_inv lit s t r :
  literal false lit s = Some (t, r) -> s = lit +:+ r.
Proof.
  revert s t r. induction lit as [|l lit IH]; intros s t r; simpl.
  - now intros [= _ ->].
  - destruct s as [|c s]; [discriminate|].
    destruct (Ascii.eqb c l) eqn:E; [|discriminate].
    apply Ascii.eqb_eq in E as ->.
    destruct (literal false lit s) as [[t' r']|] eqn:L; simpl; [|discriminate].
    intros [= _ <-]. now rewrite (IH _ _ _ L).
Qed.

Lemma literal_ci_four l1 l2 l3 l4 s t r :
  literal true (String l1 (String l2 (String l3 (String l4 "")))) s = Some (t, r) ->
  is_alpha l1 = true -> is_alpha l2 = true ->
  is_alpha l3 = true -> is_alpha l4 = true ->
  exists c1 c2 c3 c4,
    s = String c1 (String c2 (String c3 (String c4 r))) /\
    is_word c1 = true /\ is_word c2 = true /\
    is_word c3 = true /\ is_word c4 = true.
Proof.
  intros H A1 A2 A3 A4. cbn [literal] in H.
  destruct s as [|c1 [|c2 [|c3 [|c4 s]]]];
    repeat (match type of H with
            | context [Ascii.eqb ?a ?b] => destruct (Ascii.eqb a b) eqn:?
            end; cbn in H); try discriminate.
  injection H as _ <-. exists c1, c2, c3, c4.
  repeat split; eauto using eqb_lower_word.
Qed.

(** *** Lines that start with a four-letter word

    A line whose first word has four characters and is followed by
    nothing but white space is neither a label nor a frame
    definition. *)
Lemma word_alone_no_label line c1 c2 c3 c4 r :
  skip is_space line = String c1 (String c2 (String c3 (String c4 r))) ->
  is_word c1 = true -> is_word c2 = true ->
  is_word c3 = true -> is_word c4 = true ->
  is_blank r = true ->
  GOTO_LABEL_RE line = None /\ FRAME_DEF_RE line = None.
Proof.
  intros Hs H1 H2 H3 H4 Hr.
  destruct (blank_no_word _ Hr) as [Ht Hk]. split.
  - unfold GOTO_LABEL_RE, some_of. rewrite Hs. cbn [take_while skip].
    rewrite H1, H2, H3, H4, Ht, Hk. cbn. now rewrite (blank_skip _ Hr).
  - unfold FRAME_DEF_RE. rewrite Hs, H1, H2, H3, H4. cbn [andb].
    destruct (some_of is_space r) as [[w r']|] eqn:E; [|reflexivity].
    apply some_of_Some in E as (_ & -> & _).
    cbn [mbind option_bind fst snd]. now rewrite (blank_skip _ Hr).
Qed.

(** The same for a line that goes on as a [Goto] statement does: a
    word, and then nothing or a plus sign. *)
Lemma word_then_label_no_frame line c1 c2 c3 c4 r1 ws r2 lb r3 :
  skip is_space line = String c1 (String c2 (String c3 (String c4 r1))) ->
  is_word c1 = true -> is_word c2 = true ->
  is_word c3 = true -> is_word c4 = true ->
  some_of is_space r1 = Some (ws, r2) ->
  some_of is_word r2 = Some (lb, r3) ->
  (skip is_space r3 = "" \/
   exists c s', skip is_space r3 = String c s' /\ Ascii.eqb c "+" = true) ->
  GOTO_LABEL_RE line = None /\ FRAME_DEF_RE line = None.
Proof.
  intros Hs H1 H2 H3 H4 Hsp Hlb Hrest.
  pose proof (some_of_Some _ _ _ _ Hsp) as (Hws & Hr2 & Hne).
  pose proof (some_of_Some _ _ _ _ Hlb) as (Hlbw & Hr3 & Hlne).
  destruct ws as [|x w]; [congruence|]. symmetry in Hws.
  destruct (take_while_head _ _ _ _ Hws) as (r1' & Er1 & Hx).
  destruct lb as [|y w']; [congruence|]. symmetry in Hlbw.
  destruct (take_while_head _ _ _ _ Hlbw) as (r2' & Er2 & Hy).
  split.
  - unfold GOTO_LABEL_RE. rewrite Hs.
    assert (Hw : some_of is_word (String c1 (String c2 (String c3 (String c4 r1))))
                 = Some (String c1 (String c2 (String c3 (String c4 ""))), r1)).
    { unfold some_of. cbn [take_while skip]. rewrite H1, H2, H3, H4.
      rewrite Er1. cbn [take_while skip]. now rewrite (space_not_word _ Hx). }
    rewrite Hw. cbn [mbind option_bind fst snd]. rewrite <- Hr2, Er2.
    cbn [char]. now rewrite (colon_not_word _ Hy).
  - unfold FRAME_DEF_RE. rewrite Hs, H1, H2, H3, H4. cbn [andb].
    rewrite Hsp. cbn [mbind option_bind fst snd].
    destruct (some_of is_alpha r2) as [[a r4]|] eqn:Ea; [|reflexivity].
    cbn [mbind option_bind fst snd].
    destruct (some_of is_space r4) as [[ws2 r5]|] eqn:Es2; [|reflexivity].
    cbn [mbind option_bind fst snd].
    apply some_of_Some in Ea as (_ & Er4 & _).
    apply some_of_Some in Es2 as (Hws2 & Er5 & Hne2).
    destruct ws2 as [|z w2]; [congruence|]. symmetry in Hws2.
    destruct (take_while_head _ _ _ _ Hws2) as (r4' & Er4' & Hz).
    assert (Hsame : r3 = r4).
    { rewrite Hr3, Er4. apply skip_alpha_then_space with (c := z) (s' := r4');
        [congruence|exact Hz]. }
    rewrite Hsame, <- Er5 in Hrest.
    destruct Hrest as [Hnil|(c & s' & Hc & Hplus)].
    + rewrite Hnil. reflexivity.
    + rewrite Hc. cbn [char]. rewrite (minus_not_plus _ Hplus).
      unfold some_of at 1. cbn [snd take_while].
      now rewrite (plus_not_digit _ Hplus).
Qed.

(** A control statement is no blank line, no label and no frame
    definition. *)
Lemma keyword_line_not_frame kw line u :
  keyword_line kw line = Some u ->
  kw = "Loop" \/ kw = "Stop" ->
  is_blank line = false /\ GOTO_LABEL_RE line = None /\ FRAME_DEF_RE line = None.
Proof.
  unfold keyword_line. intros H Hkw.
  destruct (literal false kw (skip is_space line)) as [[t r]|] eqn:L;
    [|discriminate].
  cbn in H. destruct (at_end r) eqn:B; [|discriminate].
  apply literal_cs_inv in L.
  destruct Hkw as [-> | ->]; cbn in L;
    (split; [eapply not_blank_skip; exact L
            | eapply word_alone_no_label;
              [exact L | reflexivity | reflexivity | reflexivity
               | reflexivity | exact B]]).
Qed.

Lemma goto_line_not_frame line u :
  GOTO_STATEMENT_RE line = Some u ->
  is_blank line = false /\ GOTO_LABEL_RE line = None /\ FRAME_DEF_RE line = None.
Proof.
  unfold GOTO_STATEMENT_RE. intros H.
  destruct (literal true "Goto" (skip is_space line)) as [[t r1]|] eqn:L;
    [|discriminate].
  cbn [mbind option_bind fst snd] in H.
  destruct (some_of is_space r1) as [[ws r2]|] eqn:Hsp; [|discriminate].
  cbn [mbind option_bind fst snd] in H.
  destruct (some_of is_word r2) as [[lb r3]|] eqn:Hlb; [|discriminate].
  cbn [mbind option_bind fst snd] in H.
  destruct (literal_ci_four _ _ _ _ _ _ _ L) as
    (c1 & c2 & c3 & c4 & Hs & H1 & H2 & H3 & H4); try reflexivity.
  split; [eapply not_blank_skip; eauto|].
  eapply word_then_label_no_frame; eauto.
  destruct (skip is_space r3) as [|c s'] eqn:Es; [now left|]. right.
  exists c, s'. split; [reflexivity|].
  cbn [char] in H. destruct (Ascii.eqb c "+") eqn:Ec; [reflexivity|].
  cbn in H. unfold at_end, is_blank in H. rewrite <- Es in H.
  rewrite skip_space_idem, Es in H. discriminate.
Qed.

(** *** The parser on label lines *)

Lemma drop_blank_blanks bl x r n :
  Forall (fun l => is_blank l = true) bl -> is_blank x = false ->
  drop_blank (bl ++ x :: r) n = (x :: r, n + Z.of_nat (length bl)).
Proof.
  revert n. induction bl as [|b bl IH]; intros n Hbl Hx.
  - cbn. rewrite Hx. f_equal. lia.
  - inversion Hbl as [|? ? Hb Hbl']; subst. cbn [app drop_blank].
    rewrite Hb, IH by assumption. f_equal. cbn [length]. lia.
Qed.

Lemma label_line_not_blank l u : GOTO_LABEL_RE l = Some u -> is_blank l = false.
Proof.
  unfold GOTO_LABEL_RE. intros H.
  destruct (some_of is_word (skip is_space l)) as [[w r]|] eqn:E; [|discriminate].
  apply some_of_Some in E as (Hw & _ & Hne).
  destruct (skip is_space l) as [|c s'] eqn:Es; [cbn in Hw; congruence|].
  eapply not_blank_skip; eauto.
Qed.

Lemma not_blank_length l : is_blank l = false -> (1 <= String.length l)%nat.
Proof. destruct l; cbn; [discriminate|lia]. Qed.

Lemma pending_lines ls r :
  Forall (fun l => is_blank l = false) ls ->
  (length ls <= foldr (fun l n => String.length l + n) 0 (ls ++ r))%nat.
Proof.
  induction 1 as [|l ls Hl _ IH]; cbn [app foldr length]; [lia|].
  apply not_blank_length in Hl. lia.
Qed.

(** The loop of [parse_labels] reads label lines up to a line that is
    no label and changes nothing but the lines and their count. *)
Lemma parse_labels_loop_lines ls :
  forall bl labels fuel p stop rest,
    Forall (fun l => is_blank l = true) bl ->
    Forall is_label_line ls ->
    is_blank stop = false -> GOTO_LABEL_RE stop = None ->
    (length ls < fuel)%nat ->
    lines p = bl ++ ls ++ stop :: rest ->
    exists labels',
      parse_labels_loop fuel labels p
      = Ok (labels',
            with_lines (stop :: rest)
              (line_number p + Z.of_nat (length bl) + Z.of_nat (length ls)) p).
Proof.
  induction ls as [|l ls IH];
    intros bl labels fuel p stop rest Hbl Hls Hnb Hno Hfuel Hlines;
    (destruct fuel as [|fuel]; [cbn in Hfuel; lia|]); cbn [parse_labels_loop].
  - unfold matches_regexp, next_line, more_lines. rewrite Hlines. cbn [app].
    rewrite drop_blank_blanks by assumption. cbn [fst snd lines with_lines].
    rewrite Hno. cbn [bind fst snd]. exists labels. do 2 f_equal.
    unfold with_lines. cbn. f_equal. lia.
  - inversion Hls as [|? ? [name Hl] Hls']; subst.
    unfold matches_regexp, next_line, more_lines. rewrite Hlines. cbn [app].
    rewrite drop_blank_blanks
      by (try assumption; eapply label_line_not_blank; eauto).
    cbn [fst snd lines with_lines]. rewrite Hl. cbn [bind fst snd].
    edestruct (IH [""] (set_add name labels) fuel) as [labels' Hrun];
      [ | exact Hls' | exact Hnb | exact Hno | cbn in Hfuel; lia | | ].
    3: { exists labels'. rewrite Hrun. do 2 f_equal.
         unfold with_lines. cbn. f_equal. lia. }
    + now repeat constructor.
    + reflexivity.
Qed.

Lemma matches_regexp_labels {G} (re : string -> option (G * string)) p m q :
  matches_regexp re p = Ok (m, q) -> state_labels q = state_labels p.
Proof.
  unfold matches_regexp. destruct (re _) as [[g rest]|].
  - destruct (lines (next_line p).2); [discriminate|]. now intros [= _ <-].
  - now intros [= _ <-].
Qed.

(** The three statement parsers leave the label map alone. *)
Lemma parse_loop_labels p b q :
  parse_loop p = Ok (b, q) -> state_labels q = state_labels p.
Proof.
  unfold parse_loop. intros H. apply bind_Ok in H as ([m q1] & Hm & H).
  apply matches_regexp_labels in Hm. cbn [fst snd] in H.
  destruct m; [|injection H as _ <-; exact Hm].
  repeat (case_bool_decide; [discriminate|]).
  apply bind_Ok in H as (sts & _ & [= _ <-]). exact Hm.
Qed.

Lemma parse_stop_labels p b q :
  parse_stop p = Ok (b, q) -> state_labels q = state_labels p.
Proof.
  unfold parse_stop. intros H. apply bind_Ok in H as ([m q1] & Hm & H).
  apply matches_regexp_labels in Hm. cbn [fst snd] in H.
  destruct m; [|injection H as _ <-; exact Hm].
  case_bool_decide; [discriminate|].
  apply bind_Ok in H as (sts & _ & H).
  apply bind_Ok in H as (sts' & _ & [= _ <-]). exact Hm.
Qed.

Lemma parse_goto_labels p b q :
  parse_goto p = Ok (b, q) -> state_labels q = state_labels p.
Proof.
  unfold parse_goto. intros H. apply bind_Ok in H as ([m q1] & Hm & H).
  apply matches_regexp_labels in Hm. cbn [fst snd] in H.
  destruct m; [|injection H as _ <-; exact Hm].
  case_bool_decide; [discriminate|]. injection H as _ <-. exact Hm.
Qed.

Lemma control_not_frame line :
  is_control line ->
  is_blank line = false /\ GOTO_LABEL_RE line = None /\ FRAME_DEF_RE line = None.
Proof.
  intros [[u H]|[[u H]|[u H]]].
  - eapply keyword_line_not_frame; [exact H|now left].
  - eapply goto_line_not_frame; exact H.
  - eapply keyword_line_not_frame; [exact H|now right].
Qed.

Section Dropped.

Variable spritenum_t_index : string -> option Z.
Variable is_Action : string -> bool.
Variable label_order : list string -> list string.

(** [parse_frame_def] in front of label lines and a line that is no
    blank line, no label and no frame definition. *)
Lemma parse_frame_def_no_frame p label_lines stop rest :
  Forall is_label_line label_lines ->
  is_blank stop = false -> GOTO_LABEL_RE stop = None ->
  FRAME_DEF_RE stop = None ->
  lines p = label_lines ++ stop :: rest ->
  parse_frame_def spritenum_t_index is_Action label_order p
  = Ok (false,
        with_lines (stop :: rest)
          (line_number p + Z.of_nat (length label_lines)) p).
Proof.
  intros Hls Hnb Hnl Hnf Hlines. unfold parse_frame_def, parse_labels.
  destruct (parse_labels_loop_lines label_lines [] [] (S (pending p)) p
              stop rest) as [labels' Hrun]; auto.
  { unfold pending. rewrite Hlines. apply Nat.lt_succ_r, pending_lines.
    eapply Forall_impl; [exact Hls|].
    intros l [name Hl]. eapply label_line_not_blank; eauto. }
  rewrite Hrun. cbn [bind fst snd].
  unfold matches_regexp, next_line, more_lines.
  cbn [lines line_number with_lines drop_blank]. rewrite Hnb.
  cbn [fst snd lines with_lines]. rewrite Hnf. cbn [bind fst snd].
  do 2 f_equal. unfold with_lines. cbn. f_equal. lia.
Qed.

Lemma more_lines_not_blank p l ls :
  lines p = l :: ls -> is_blank l = false ->
  more_lines p = (true, with_lines (l :: ls) (line_number p) p).
Proof.
  intros Hl Hb. unfold more_lines. rewrite Hl. cbn [drop_blank]. rewrite Hb.
  reflexivity.
Qed.

(** C9. When the lines in front of the parser are label lines
    followed by a control statement, [parse_frame_def] reads the
    label lines, reports that it found no frame definition and
    raises nothing; the parser it leaves differs from the one it
    found only in the lines still to read and their count, so the
    label map is as before; whichever statement parser then takes
    the control statement leaves the label map as before too; and
    the loop of [parse] goes on exactly as it does from the control
    statement when the label lines are not there. *)
Theorem labels_before_control_are_dropped
    (p : _Parser) (label_lines : list string) (ctrl : string)
    (rest : list string) :
  Forall is_label_line label_lines ->
  is_control ctrl ->
  lines p = label_lines ++ ctrl :: rest ->
  parse_frame_def spritenum_t_index is_Action label_order p
  = Ok (false,
        with_lines (ctrl :: rest)
          (line_number p + Z.of_nat (length label_lines)) p) /\
  state_labels
    (with_lines (ctrl :: rest)
       (line_number p + Z.of_nat (length label_lines)) p)
  = state_labels p /\
  (forall q0 b q,
      state_labels q0 = state_labels p ->
      parse_loop q0 = Ok (b, q) \/ parse_goto q0 = Ok (b, q) \/
      parse_stop q0 = Ok (b, q) ->
      state_labels q = state_labels p) /\
  (forall fuel,
      parse_while spritenum_t_index is_Action label_order (S fuel) p
      = parse_while spritenum_t_index is_Action label_order (S fuel)
          (with_lines (ctrl :: rest)
             (line_number p + Z.of_nat (length label_lines)) p)).
Proof.
  intros Hls Hctrl Hlines.
  destruct (control_not_frame _ Hctrl) as (Hnb & Hnl & Hnf).
  split; [|split; [reflexivity|split]].
  - now apply parse_frame_def_no_frame.
  - intros q0 b q Hq0 [H|[H|H]]; rewrite <- Hq0.
    + eapply parse_loop_labels; eauto.
    + eapply parse_goto_labels; eauto.
    + eapply parse_stop_labels; eauto.
  - intros fuel. cbn [parse_while].
    assert (Hfirst : exists l ls, lines p = l :: ls /\ is_blank l = false).
    { rewrite Hlines. destruct label_lines as [|l ls]; cbn [app]; [eauto|].
      inversion Hls as [|? ? [name Hl] _]; subst.
      do 2 eexists. split; [reflexivity|].
      eapply label_line_not_blank; eauto. }
    destruct Hfirst as (l & ls & Hl & Hb).
    rewrite (more_lines_not_blank p l ls Hl Hb).
    set (p1 := with_lines (ctrl :: rest)
                 (line_number p + Z.of_nat (length label_lines)) p).
    rewrite (more_lines_not_blank p1 ctrl rest eq_refl Hnb).
    cbn [fst snd].
    rewrite (parse_frame_def_no_frame _ label_lines ctrl rest Hls Hnb Hnl Hnf)
      by (cbn; congruence).
    rewrite (parse_frame_def_no_frame
               (with_lines (ctrl :: rest) (line_number p1) p1) [] ctrl rest
               (Forall_nil_2 _) Hnb Hnl Hnf eq_refl).
    subst p1.
    cbn [bind fst snd length with_lines line_number].
    replace (line_number p + Z.of_nat (length label_lines) + Z.of_nat 0)
      with (line_number p + Z.of_nat (length label_lines)) by lia.
    reflexivity.
Qed.

End Dropped.

Lemma labels_before_control_are_dropped_witness :
  parse_frame_def imp_sprites imp_actions insertion_order before_loop
  = Ok (false,
        with_lines ["  Loop"; "See:"]
          (line_number before_loop + Z.of_nat (length ["Idle:"; " Spawn :"]))
          before_loop) /\
  state_labels
    (with_lines ["  Loop"; "See:"]
       (line_number before_loop + Z.of_nat (length ["Idle:"; " Spawn :"]))
       before_loop)
  = state_labels before_loop /\
  (forall q0 b q,
      state_labels q0 = state_labels before_loop ->
      parse_loop q0 = Ok (b, q) \/ parse_goto q0 = Ok (b, q) \/
      parse_stop q0 = Ok (b, q) ->
      state_labels q = state_labels before_loop) /\
  (forall fuel,
      parse_while imp_sprites imp_actions insertion_order (S fuel) before_loop
      = parse_while imp_sprites imp_actions insertion_order (S fuel)
          (with_lines ["  Loop"; "See:"]
             (line_number before_loop
              + Z.of_nat (length ["Idle:"; " Spawn :"]))
             before_loop)).
Proof.
  apply (labels_before_control_are_dropped imp_sprites imp_actions
           insertion_order before_loop ["Idle:"; " Spawn :"] "  Loop" ["See:"]).
  - repeat constructor; eexists; vm_compute; reflexivity.
  - left. vm_compute. eauto.
  - reflexivity.
Defined.

(** A whole text with labels in front of a [Loop]: [Idle] is bound
    nowhere, and the second [Spawn] is no duplicate. *)
Example parse_drops_labels_before_loop :
  exists sts,
    parse imp_sprites imp_actions insertion_order
      (text ["Spawn:"; "TROO A 1"; "Idle:"; " Spawn :"; "  Loop"])
    = Ok (sts, {[ "Spawn" := 1; "spawnstate" := 1 ]}) /\
    map field_values sts =
    [ [Ok (PInt 0); Ok (PInt 0); Ok (PInt 0); Ok (PInt 0); Ok (PInt 0)];
      [Ok (PInt 0); Ok (PInt 0); Ok (PInt 1); Ok PNone; Ok (PInt 1)] ].
Proof.
  eexists. split; vm_compute; reflexivity.
Qed.

End LabelFacts.

(** ** The remapper *)

Module RemapFacts.
Import C StatesParser RemapSpec.

(** *** Sets, pops and removals *)


Lemma set_pop_permutation pop_choice s x s' :
  set_pop pop_choice s = Ok (x, s') -> s ≡ₚ x :: s'.
Proof.
  unfold set_pop. destruct s as [|y s]; [discriminate|].
  set (i := (pop_choice (y :: s) mod length (y :: s))%nat).
  destruct ((y :: s) !! i) as [z|] eqn:E; [|discriminate].
  intros [= <- <-]. now apply delete_Permutation.
Qed.

Lemma list_remove_permutation x l l' :
  list_remove x l = Ok l' -> l ≡ₚ x :: l'.
Proof.
  revert l'. induction l as [|y l IH]; intros l'; cbn; [discriminate|].
  destruct (decide (x = y)) as [->|Hne].
  - now intros [= <-].
  - intros H. apply bind_Ok in H as (l'' & Hl & [= <-]).
    rewrite (IH _ Hl). apply Permutation_swap.
Qed.

(** *** The two sets of free slots *)




(** *** Indexing with an index that is not negative *)

Lemma py_getitem_nonneg {A} (l : list A) (i : Z) (x : A) :
  0 <= i -> py_getitem l i = Ok x -> l !! Z.to_nat i = Some x.
Proof.
  intros Hi. unfold py_getitem, py_norm_index.
  destruct (0 <=? i) eqn:E; [|lia].
  destruct (i <? Z.of_nat (length l)); [|discriminate].
  destruct (l !! Z.to_nat i); congruence.
Qed.

Lemma py_getitem_nat {A} (l : list A) (k : nat) (x : A) :
  py_getitem l (Z.of_nat k) = Ok x -> l !! k = Some x.
Proof.
  intros H. apply py_getitem_nonneg in H; [|lia]. now rewrite Nat2Z.id in H.
Qed.

Lemma py_getitem_lookup {A} (l : list A) (k : nat) (x : A) :
  l !! k = Some x -> py_getitem l (Z.of_nat k) = Ok x.
Proof.
  intros H. pose proof (lookup_lt_Some _ _ _ H) as Hlt.
  unfold py_getitem, py_norm_index.
  destruct (0 <=? Z.of_nat k) eqn:E; [|lia].
  destruct (Z.of_nat k <? Z.of_nat (length l)) eqn:E'; [|lia].
  now rewrite Nat2Z.id, H.
Qed.

(** *** The allocation loop *)

Section Allocation.

Variable pop_choice : list Z -> nat.

Lemma take_slot_step b a x capable' plain' :
  take_slot pop_choice b a = Ok (x, capable', plain') ->
  (b = true /\ alloc_action a ≡ₚ x :: capable' /\
   plain' = alloc_non_action a) \/
  (b = true /\ alloc_action a = [] /\ capable' = [] /\
   alloc_non_action a ≡ₚ x :: plain') \/
  (b = false /\ alloc_non_action a ≡ₚ x :: plain' /\
   capable' = alloc_action a) \/
  (b = false /\ alloc_non_action a = [] /\ plain' = [] /\
   alloc_action a ≡ₚ x :: capable').
Proof.
  unfold take_slot. intros H. destruct b.
  - destruct (alloc_action a) as [|y s] eqn:E; cbn [length Nat.ltb Nat.leb] in H.
    + apply bind_Ok in H as ([z s'] & Hp & [= <- <- <-]).
      apply set_pop_permutation in Hp. right. left. auto.
    + apply bind_Ok in H as ([z s'] & Hp & [= <- <- <-]).
      apply set_pop_permutation in Hp. left. auto.
  - destruct (alloc_non_action a) as [|y s] eqn:E;
      cbn [length Nat.ltb Nat.leb] in H.
    + apply bind_Ok in H as ([z s'] & Hp & [= <- <- <-]).
      apply set_pop_permutation in Hp. right. right. right. auto.
    + apply bind_Ok in H as ([z s'] & Hp & [= <- <- <-]).
      apply set_pop_permutation in Hp. right. right. left. auto.
Qed.

Lemma assign_step old a k a1 :
  assign pop_choice old a k = Ok a1 ->
  exists st b x,
    old !! k = Some st /\ carries_action st b /\
    take_slot pop_choice b a = Ok (x, alloc_action a1, alloc_non_action a1) /\
    alloc_states a ≡ₚ x :: alloc_states a1 /\
    old_to_new a1 = <[k := x]> (old_to_new a).
Proof.
  unfold assign. intros H.
  apply bind_Ok in H as (st & Hst & H).
  apply bind_Ok in H as (act & Hact & H).
  apply bind_Ok in H as ([[x c'] p'] & Hslot & H).
  apply bind_Ok in H as (pool & Hrem & [= <-]).
  cbn [fst snd] in *.
  exists st, (is_not_None act), x. cbn.
  repeat split; auto.
  - now apply py_getitem_nat.
  - exists act. auto.
  - now apply list_remove_permutation.
Qed.

Lemma greedy_step b a x capable' plain' acts ids :
  take_slot pop_choice b a = Ok (x, capable', plain') ->
  greedy acts capable' plain' ids ->
  greedy (b :: acts) (alloc_action a) (alloc_non_action a) (x :: ids).
Proof.
  intros Hslot Hrest.
  destruct (take_slot_step _ _ _ _ _ Hslot)
    as [(-> & Hp & ->)|[(-> & E & -> & Hp)|[(-> & Hp & ->)|(-> & E & -> & Hp)]]].
  - eapply greedy_action_capable; eauto.
  - rewrite E. eapply greedy_action_fallback; eauto.
  - eapply greedy_plain_plain; eauto.
  - rewrite E. eapply greedy_plain_fallback; eauto.
Qed.

(** The loop over the source indices [k], ..., [k + m - 1]. *)
Lemma assign_loop old m :
  forall k a a',
    for_each (assign pop_choice old) (seq k m) a = Ok a' ->
    (k + m <= length (old_to_new a))%nat ->
    exists ids acts,
      length ids = m /\
      old_to_new a' =
        take k (old_to_new a) ++ ids ++ drop (k + m) (old_to_new a) /\
      Forall2 carries_action (take m (drop k old)) acts /\
      greedy acts (alloc_action a) (alloc_non_action a) ids /\
      alloc_states a ≡ₚ ids ++ alloc_states a'.
Proof.
  induction m as [|m IH]; intros k a a' H Hlen; cbn [seq for_each] in H.
  - injection H as <-. exists [], []. cbn [app length take].
    rewrite Nat.add_0_r, take_drop. repeat split; auto. constructor.
  - apply bind_Ok in H as (a1 & Hstep & Hrest).
    apply assign_step in Hstep as (st & b & x & Hst & Hact & Hslot & Hpool & Htab).
    apply IH in Hrest as (ids & acts & Hn & Htab' & Hacts & Hgreedy & Hpool');
      [|rewrite Htab, length_insert; lia].
    exists (x :: ids), (b :: acts). repeat split.
    + cbn. now rewrite Hn.
    + rewrite Htab', Htab.
      rewrite drop_insert_lt by lia.
      rewrite (take_S_r _ _ x)
        by (apply list_lookup_insert_eq; lia).
      rewrite take_insert_ge by lia.
      rewrite <- app_assoc. cbn [app].
      now replace (S k + m)%nat with (k + S m)%nat by lia.
    + rewrite (drop_S _ _ _ Hst). cbn [take]. now constructor.
    + eapply greedy_step; eauto.
    + rewrite Hpool, Hpool'. reflexivity.
Qed.

(** What a successful [_generate_old_to_new] returns. *)
Lemma generate_spec old new pool table pool' :
  _generate_old_to_new pop_choice old new pool = Ok (table, pool') ->
  exists capable plain acts ids,
    categorize new pool = Ok (capable, plain) /\
    Forall2 carries_action (tail old) acts /\
    length ids = length (tail old) /\
    table = match old with [] => [] | _ => 0 :: ids end /\
    greedy acts capable plain ids /\
    pool ≡ₚ ids ++ pool'.
Proof.
  unfold _generate_old_to_new.
  destruct (Z.of_nat (length old) - 1 >? Z.of_nat (length pool)); [discriminate|].
  intros H. apply bind_Ok in H as ([capable plain] & Hcat & H).
  apply bind_Ok in H as (a & Hloop & [= <- <-]).
  exists capable, plain.
  destruct old as [|st0 old].
  - cbn in Hloop. injection Hloop as <-. exists [], []. cbn.
    repeat split; auto; constructor.
  - apply assign_loop in Hloop
      as (ids & acts & Hn & Htab & Hacts & Hgreedy & Hpool);
      [|cbn; rewrite length_replicate; lia].
    cbn [alloc_action alloc_non_action old_to_new alloc_states fst snd] in *.
    cbn [length tail] in *.
    replace (S (length old) - 1)%nat with (length old) in * by lia.
    cbn [drop] in Hacts. rewrite drop_0, take_ge in Hacts by lia.
    exists acts, ids. repeat split; auto.
    rewrite Htab. cbn [replicate take app].
    rewrite drop_ge by (cbn; rewrite length_replicate; lia).
    now rewrite app_nil_r.
Qed.

End Allocation.

Lemma remap_states_inv pop_choice old new pool table new' pool' :
  remap_states pop_choice old new pool = Ok (table, new', pool') ->
  _generate_old_to_new pop_choice old new pool = Ok (table, pool') /\
  for_each (copy_state old table) (seq 1 (length old - 1)) new = Ok new'.
Proof.
  unfold remap_states. intros H.
  apply bind_Ok in H as ([t q] & Hg & H).
  apply bind_Ok in H as (n & Hc & [= <- <- <-]). auto.
Qed.

(** *** The two sets hold no slot twice, and no slot is drawn twice *)




(** *** Only the test of the pool raises the remap error *)


















(** C6. A successful [remap_states] leaves the pool it was given
    without the slots it assigned, one entry for each, and with all
    the other entries: the pool before is the assigned slots together
    with the pool after. So the pool after is shorter by the number
    of source states after the first, that is, for a source that has
    its NULL state, by the length of the source minus one; and in a
    pool without repetitions no assigned slot is left. *)
Theorem remap_consumes_pool
    (pop_choice : list Z -> nat) (old new : list Struct) (pool : list Z)
    (table : list Z) (new' : list Struct) (pool' : list Z) :
  remap_states pop_choice old new pool = Ok (table, new', pool') ->
  pool ≡ₚ drop 1 table ++ pool' /\
  (length pool' + length (tail old) = length pool)%nat /\
  (old <> [] ->
   Z.of_nat (length pool')
   = Z.of_nat (length pool) - (Z.of_nat (length old) - 1)) /\
  (NoDup pool -> forall x, x ∈ drop 1 table -> x ∉ pool').
Proof.
  intros H. apply remap_states_inv in H as [Hg _].
  apply generate_spec in Hg
    as (capable & plain & acts & ids & _ & _ & Hn & Htab & _ & Hperm).
  assert (Hdrop : drop 1 table = ids).
  { rewrite Htab. destruct old; [|reflexivity].
    cbn in Hn. now destruct ids. }
  rewrite Hdrop.
  assert (Hlen : (length pool' + length (tail old) = length pool)%nat).
  { rewrite (Permutation_length Hperm), length_app. lia. }
  repeat split; auto.
  - intros Hne. destruct old as [|st0 old]; [congruence|].
    cbn [length tail] in *. lia.
  - intros Hnd x Hx Hx'. rewrite Hperm in Hnd.
    apply NoDup_app in Hnd as (_ & Hdisj & _). now apply (Hdisj x).
Qed.

Lemma remap_consumes_pool_witness :
  [3; 2; 1] ≡ₚ drop 1 [0; 1; 3] ++ [2] /\
  (length [2] + length (tail two_state_source) = length [3; 2; 1])%nat /\
  (two_state_source <> [] ->
   Z.of_nat (length [2])
   = Z.of_nat (length [3; 2; 1]) - (Z.of_nat (length two_state_source) - 1)) /\
  (NoDup [3; 2; 1] -> forall x, x ∈ drop 1 [0; 1; 3] -> x ∉ [2]).
Proof.
  apply (remap_consumes_pool pop_first two_state_source small_table [3; 2; 1]
           [0; 1; 3]
           (table_after two_state_source small_table [3; 2; 1])
           [2]).
  vm_compute. reflexivity.
Defined.

(** *** The copying loop *)

Lemma getattr_declared s f v :
  getattr s f = Ok v -> f ∈ field_names (stype s).
Proof.
  unfold getattr.
  destruct (index_of f (field_names (stype s))) as [i|] eqn:E; [|discriminate].
  intros _. apply StructFacts.index_of_elem in E.
  eapply list_elem_of_lookup_2; eauto.
Qed.

Lemma copy_loop_fields other (l : list string) :
  forall s s',
    (forall f, f ∈ l -> f ∈ field_names (stype s)) ->
    for_each (fun s f => v <- getattr other f ;; Ok (setattr s f v)) l s
    = Ok s' ->
    stype s' = stype s /\
    (forall f, f ∈ l -> getattr s' f = getattr other f) /\
    (forall f, f ∉ l -> getattr s' f = getattr s f).
Proof.
  induction l as [|f0 l IH]; intros s s' Hdecl H; cbn [for_each] in H.
  - injection H as <-. repeat split; auto. intros f Hf. inversion Hf.
  - apply bind_Ok in H as (s1 & Hstep & Hrest).
    apply bind_Ok in Hstep as (v & Hv & [= <-]).
    apply IH in Hrest as (Ht & Hin & Hout).
    2: { intros f Hf. rewrite StructFacts.stype_setattr.
         apply Hdecl. now apply list_elem_of_further. }
    rewrite StructFacts.stype_setattr in Ht.
    repeat split; auto.
    + intros f Hf. destruct (decide (f ∈ l)) as [Hl|Hl]; [now apply Hin|].
      apply elem_of_cons in Hf as [->|Hf]; [|contradiction].
      rewrite (Hout _ Hl), Hv. apply StructFacts.getattr_setattr_same.
      apply Hdecl, list_elem_of_here.
    + intros f Hf. rewrite not_elem_of_cons in Hf. destruct Hf as [Hne Hl].
      rewrite (Hout _ Hl). now apply StructFacts.getattr_setattr_other.
Qed.

Lemma copy_from_getattr self other s' f :
  copy_from self other = Ok s' -> f ∈ field_names (stype self) ->
  stype s' = stype self /\ getattr s' f = getattr other f.
Proof.
  unfold copy_from. destruct (decide (stype self = stype other)); [|discriminate].
  intros H Hf. apply copy_loop_fields in H as (Ht & Hin & _); auto.
Qed.

Lemma py_update_nonneg {A} (l l' : list A) (i : Z) (f : A -> A) :
  0 <= i -> py_update l i f = Ok l' ->
  exists x, l !! Z.to_nat i = Some x /\ l' = <[Z.to_nat i := f x]> l.
Proof.
  intros Hi. unfold py_update, py_norm_index.
  destruct (0 <=? i) eqn:E; [|lia].
  destruct (i <? Z.of_nat (length l)); [|discriminate].
  destruct (l !! Z.to_nat i) as [x|]; [|discriminate].
  intros [= <-]. eauto.
Qed.

Lemma py_getitem_elem {A} (l : list A) (i : Z) (x : A) :
  py_getitem l i = Ok x -> x ∈ l.
Proof.
  unfold py_getitem. destruct (py_norm_index (length l) i) as [n|]; [|discriminate].
  destruct (l !! n) as [y|] eqn:E; [|discriminate].
  intros [= <-]. eapply list_elem_of_lookup_2; eauto.
Qed.

(** One turn of the copying loop, for a slot that is not negative. *)
Lemma copy_state_step old table new k new1 x :
  copy_state old table new k = Ok new1 ->
  table !! k = Some x -> 0 <= x ->
  exists src dst,
    old !! k = Some src /\
    (Z.to_nat x < length new)%nat /\
    new1 = <[Z.to_nat x := dst]> new /\
    link_rewritten table src dst.
Proof.
  unfold copy_state. intros H Hx Hpos.
  apply bind_Ok in H as (new_id & Hid & H).
  apply py_getitem_nat in Hid. assert (new_id = x) as -> by congruence.
  apply bind_Ok in H as (src & Hsrc & H). apply py_getitem_nat in Hsrc.
  apply bind_Ok in H as (newA & Hcopy & H).
  unfold state_copy_from in Hcopy.
  apply bind_Ok in Hcopy as (st & Hst & Hcopy).
  apply bind_Ok in Hcopy as (st' & Hst' & Hupd).
  apply py_getitem_nonneg in Hst; [|assumption].
  apply py_update_nonneg in Hupd as (st0 & _ & ->); [|assumption].
  pose proof (lookup_lt_Some _ _ _ Hst) as Hlt.
  apply bind_Ok in H as (dst0 & Hdst & H).
  apply py_getitem_nonneg in Hdst; [|assumption].
  rewrite list_lookup_insert_eq in Hdst by assumption. injection Hdst as <-.
  apply bind_Ok in H as (link & Hlink & H).
  pose proof (getattr_declared _ _ _ Hlink) as Hdecl.
  assert (Hsrc_link : getattr src "nextstate" = Ok link).
  { assert (Ht : stype st' = stype st).
    { unfold copy_from in Hst'.
      destruct (decide (stype st = stype src)); [|discriminate].
      now apply copy_loop_fields in Hst' as (Ht & _ & _). }
    destruct (copy_from_getattr st src st' "nextstate" Hst') as [_ Hg];
      [now rewrite <- Ht|congruence]. }
  exists src. destruct (decide (link <> PInt (-1))) as [Hne|Heq].
  - apply bind_Ok in H as (i & Hi & H).
    destruct link as [|i'| | |]; try discriminate. injection Hi as ->.
    apply bind_Ok in H as (target & Htarget & H).
    unfold state_setattr in H.
    apply py_update_nonneg in H as (d & Hd & ->); [|assumption].
    rewrite list_lookup_insert_eq in Hd by assumption. injection Hd as <-.
    rewrite list_insert_insert_eq.
    eexists. repeat split; [eassumption|assumption|].
    exists (PInt i). split; [assumption|]. right. split; [assumption|].
    exists i, target. repeat split; auto.
    now apply StructFacts.getattr_setattr_same.
  - injection H as <-. exists st'. repeat split; auto.
    exists link. split; [assumption|]. left.
    assert (link = PInt (-1)) as -> by (destruct (decide (link = PInt (-1))); tauto).
    auto.
Qed.

Lemma copy_state_slot old table new k new1 :
  copy_state old table new k = Ok new1 -> is_Some (table !! k).
Proof.
  unfold copy_state. intros H. apply bind_Ok in H as (x & Hx & _).
  apply py_getitem_nat in Hx. eauto.
Qed.

(** The loop over the source indices [k], ..., [k + m - 1], when the
    table sends them to slots that are not negative and differ. *)
Lemma copy_loop old table m :
  forall k new new',
    for_each (copy_state old table) (seq k m) new = Ok new' ->
    (forall j x, (k <= j < k + m)%nat -> table !! j = Some x -> 0 <= x) ->
    (forall j j' x, (k <= j < k + m)%nat -> (k <= j' < k + m)%nat ->
                    table !! j = Some x -> table !! j' = Some x -> j = j') ->
    length new' = length new /\
    (forall n,
        (forall j x, (k <= j < k + m)%nat -> table !! j = Some x ->
                     Z.to_nat x <> n) ->
        new' !! n = new !! n) /\
    (forall j, (k <= j < k + m)%nat ->
               exists x src dst,
                 table !! j = Some x /\ old !! j = Some src /\
                 new' !! Z.to_nat x = Some dst /\
                 link_rewritten table src dst).
Proof.
  induction m as [|m IH]; intros k new new' H Hpos Hinj; cbn [seq for_each] in H.
  - injection H as <-. repeat split; auto. intros j Hj. lia.
  - apply bind_Ok in H as (new1 & Hstep & Hrest).
    destruct (copy_state_slot _ _ _ _ _ Hstep) as [xk Hxk].
    assert (Hxk0 : 0 <= xk) by (apply (Hpos k); [lia|assumption]).
    destruct (copy_state_step _ _ _ _ _ _ Hstep Hxk Hxk0)
      as (src & dst & Hsrc & Hlt & -> & Hlink).
    apply IH in Hrest as (Hlen & Hframe & Hmain).
    2: { intros j x Hj. apply Hpos. lia. }
    2: { intros j j' x Hj Hj'. apply Hinj; lia. }
    rewrite length_insert in Hlen. repeat split; auto.
    + intros n Hn. rewrite Hframe by (intros j x Hj; apply Hn; lia).
      apply list_lookup_insert_ne. apply (Hn k); [lia|assumption].
    + intros j Hj. destruct (decide (j = k)) as [->|Hne].
      * exists xk, src, dst. repeat split; auto.
        rewrite Hframe.
        -- now apply list_lookup_insert_eq.
        -- intros j' x' Hj' Hx' Heq.
           assert (0 <= x') by (apply (Hpos j'); [lia|assumption]).
           assert (x' = xk) as -> by lia.
           assert (j' = k) by (apply (Hinj j' k xk); auto; lia). lia.
      * apply Hmain. lia.
Qed.

(** C2, as amended. For a pool of distinct indices that are not
    negative, when [remap_states] returns, every source state after
    the first has been written to its slot of the destination with
    its link looked up in the returned table, except that a link of
    -1 is written as it is; so the written state has link -1 exactly
    when the source state has. *)
Theorem remap_copies_unresolved_links
    (pop_choice : list Z -> nat) (old new : list Struct) (pool : list Z)
    (table : list Z) (new' : list Struct) (pool' : list Z) :
  NoDup pool ->
  Forall (fun i => 0 <= i) pool ->
  remap_states pop_choice old new pool = Ok (table, new', pool') ->
  forall j src,
    (1 <= j)%nat -> old !! j = Some src ->
    exists x dst,
      table !! j = Some x /\
      py_getitem new' x = Ok dst /\
      link_rewritten table src dst /\
      (getattr dst "nextstate" = Ok (PInt (-1)) <->
       getattr src "nextstate" = Ok (PInt (-1))).
Proof.
  intros Hnd Hpos H j src Hj Hsrc.
  apply remap_states_inv in H as [Hg Hcopy].
  apply generate_spec in Hg
    as (capable & plain & acts & ids & _ & _ & Hn & Htab & _ & Hperm).
  destruct old as [|st0 old]; [discriminate|].
  cbn [length tail] in *.
  replace (S (length old) - 1)%nat with (length old) in Hcopy by lia.
  assert (Hids : forall i x, (1 <= i)%nat -> table !! i = Some x ->
                             ids !! (i - 1)%nat = Some x).
  { intros i x Hi. rewrite Htab. destruct i as [|i]; [lia|].
    cbn. now rewrite Nat.sub_0_r. }
  assert (Hin : forall x, x ∈ ids -> 0 <= x).
  { intros x Hx. rewrite Forall_forall in Hpos. apply Hpos.
    rewrite Hperm. apply elem_of_app. now left. }
  assert (Hnd' : NoDup ids).
  { rewrite Hperm in Hnd. now apply NoDup_app in Hnd as (? & _ & _). }
  apply copy_loop in Hcopy as (_ & _ & Hmain).
  - destruct (Hmain j) as (x & src' & dst & Hx & Hsrc' & Hdst & Hlink).
    { pose proof (lookup_lt_Some _ _ _ Hsrc) as Hlt. cbn in Hlt. lia. }
    assert (src' = src) as -> by congruence.
    assert (Hx0 : 0 <= x).
    { apply Hin. eapply list_elem_of_lookup_2. eapply Hids; eauto. }
    exists x, dst. repeat split; auto.
    + rewrite <- (Z2Nat.id x) by assumption. now apply py_getitem_lookup.
    + intros Hd. destruct Hlink as (link & Hl & [[-> _]|(Hne & i & t & -> & Ht & Hd')]);
        [assumption|].
      exfalso. assert (t = -1) by congruence. subst t.
      apply py_getitem_elem in Ht. rewrite Htab in Ht.
      apply elem_of_cons in Ht as [Ht|Ht]; [discriminate|].
      apply Hin in Ht. lia.
    + intros Hs. destruct Hlink as (link & Hl & [[_ Hd]|(Hne & _)]);
        [assumption|]. congruence.
  - intros i x Hi Hx. apply Hin. eapply list_elem_of_lookup_2.
    apply (Hids i); [lia|eassumption].
  - intros i i' x Hi Hi' Hx Hx'.
    apply Hids in Hx; [|lia]. apply Hids in Hx'; [|lia].
    pose proof (NoDup_lookup _ _ _ _ Hnd' Hx Hx'). lia.
Qed.

Lemma remap_copies_unresolved_links_witness :
  exists x dst,
    [0; 1] !! 1%nat = Some x /\
    py_getitem (table_after unresolved_source small_table [1]) x = Ok dst /\
    link_rewritten [0; 1]
      (state_of [("tics", PInt 5); ("nextstate", PInt (-1))]) dst /\
    (getattr dst "nextstate" = Ok (PInt (-1)) <->
     getattr (state_of [("tics", PInt 5); ("nextstate", PInt (-1))])
             "nextstate" = Ok (PInt (-1))).
Proof.
  apply (remap_copies_unresolved_links pop_first unresolved_source small_table
           [1] [0; 1] (table_after unresolved_source small_table [1]) []
           (NoDup_singleton 1)
           (Forall_cons_2 _ 1 [] (Z.le_0_1) (Forall_nil_2 _))
           eq_refl 1%nat
           (state_of [("tics", PInt 5); ("nextstate", PInt (-1))])
           (le_n 1) eq_refl).
Defined.

(** C2, as stated, fails: the source whose only state has link -1 is
    accepted, and the state written into slot 1 of the destination
    has link -1. *)
Lemma remap_keeps_unresolved_link :
  exists new' dst,
    remap_states pop_first unresolved_source small_table [1]
    = Ok ([0; 1], new', []) /\
    py_getitem unresolved_source 1 = Ok (state_of [("tics", PInt 5);
                                                   ("nextstate", PInt (-1))]) /\
    py_getitem new' 1 = Ok dst /\
    getattr dst "tics" = Ok (PInt 5) /\
    getattr dst "nextstate" = Ok (PInt (-1)).
Proof.
  eexists _, _. split; [vm_compute; reflexivity|].
  repeat split; vm_compute; reflexivity.
Qed.

End RemapFacts.

(** ** The loops of the parser end within their budget *)

Module Termination.
Import C StatesParser ParserSpec.

(** *** Every match takes at least one character *)

Lemma length_skip p s : (String.length (skip p s) <= String.length s)%nat.
Proof.
  induction s as [|c s IH]; cbn; [lia|]. destruct (p c); cbn; lia.
Qed.

Lemma some_of_shorter p s w r :
  some_of p s = Some (w, r) -> (String.length r < String.length s)%nat.
Proof.
  unfold some_of. destruct s as [|c s]; cbn; [discriminate|].
  destruct (p c); [|discriminate]. intros [= _ <-].
  pose proof (length_skip p s). lia.
Qed.

Lemma char_shorter c s s' :
  char c s = Some s' -> (String.length s' < String.length s)%nat.
Proof.
  destruct s as [|x s]; cbn; [discriminate|].
  destruct (Ascii.eqb x c); [|discriminate]. intros [= <-]. lia.
Qed.

Lemma literal_shorter ci lit s t r :
  literal ci lit s = Some (t, r) ->
  (String.length r + String.length lit <= String.length s)%nat.
Proof.
  revert s t r. induction lit as [|l lit IH]; intros s t r; cbn.
  - intros [= _ <-]. lia.
  - destruct s as [|c s]; [discriminate|].
    destruct (if ci then _ else _); [|discriminate].
    destruct (literal ci lit s) as [[t' r']|] eqn:E; [|discriminate].
    cbn. intros [= _ <-]. apply IH in E. cbn. lia.
Qed.

Lemma GOTO_LABEL_RE_consuming : consuming GOTO_LABEL_RE.
Proof.
  intros line g rest H. unfold GOTO_LABEL_RE in H.
  destruct (some_of is_word (skip is_space line)) as [[w r]|] eqn:E1;
    [|discriminate].
  cbn [mbind option_bind fst snd] in H.
  destruct (char ":" (skip is_space r)) as [s'|] eqn:E2; [|discriminate].
  cbn in H. injection H as _ <-.
  apply some_of_shorter in E1. apply char_shorter in E2.
  pose proof (length_skip is_space line). pose proof (length_skip is_space r).
  pose proof (length_skip is_space s'). lia.
Qed.

Lemma FRAME_DEF_RE_consuming : consuming FRAME_DEF_RE.
Proof.
  intros line g rest H. unfold FRAME_DEF_RE in H.
  pose proof (length_skip is_space line) as Hlen.
  destruct (skip is_space line) as [|c1 [|c2 [|c3 [|c4 s1]]]];
    try discriminate.
  destruct (_ && _ && _ && _)%bool; [|discriminate].
  repeat match type of H with
         | context [mbind _ ?x] =>
             destruct x as [[? ?]|]; cbn [mbind option_bind] in H;
             [|discriminate]
         end.
  destruct (at_end _); [|discriminate].
  injection H as _ <-. cbn in *. lia.
Qed.

Lemma GOTO_STATEMENT_RE_consuming : consuming GOTO_STATEMENT_RE.
Proof.
  intros line g rest H. unfold GOTO_STATEMENT_RE in H.
  pose proof (length_skip is_space line) as Hlen.
  destruct (literal true "Goto" (skip is_space line)) as [[t r]|] eqn:E;
    [|discriminate].
  apply literal_shorter in E. cbn [mbind option_bind fst snd] in H.
  repeat match type of H with
         | context [mbind _ ?x] =>
             destruct x as [[? ?]|]; cbn [mbind option_bind] in H;
             [|discriminate]
         end.
  destruct (at_end _); [|discriminate].
  injection H as _ <-. cbn in *. lia.
Qed.

Lemma keyword_line_consuming kw :
  kw <> "" -> consuming (keyword_line kw).
Proof.
  intros Hkw line g rest H. unfold keyword_line in H.
  pose proof (length_skip is_space line) as Hlen.
  destruct (literal false kw (skip is_space line)) as [[t r]|] eqn:E;
    [|discriminate].
  apply literal_shorter in E. cbn [mbind option_bind fst snd] in H.
  destruct (at_end r); [|discriminate]. injection H as _ <-.
  destruct kw; [congruence|]. cbn in *. lia.
Qed.

(** *** What is left to read never grows *)

Lemma drop_blank_pending ls n :
  (foldr (fun l k => String.length l + k) 0 (drop_blank ls n).1
   <= foldr (fun l k => String.length l + k) 0 ls)%nat.
Proof.
  revert n. induction ls as [|l ls IH]; intros n; cbn; [lia|].
  destruct (is_blank l); cbn; [|lia]. specialize (IH (n + 1)). lia.
Qed.

Lemma more_lines_pending p : (pending (more_lines p).2 <= pending p)%nat.
Proof. apply drop_blank_pending. Qed.

(** A consuming expression never indexes an empty list of lines, and
    a match leaves less to read. *)
Lemma matches_regexp_progress {G} (re : string -> option (G * string)) p :
  consuming re ->
  exists m q,
    matches_regexp re p = Ok (m, q) /\
    (pending q <= pending p)%nat /\
    (m <> None -> (pending q < pending p)%nat).
Proof.
  intros Hre. unfold matches_regexp, next_line.
  pose proof (more_lines_pending p) as Hle.
  destruct (more_lines p) as [b q0]. cbn [fst snd] in *.
  destruct (lines q0) as [|l ls] eqn:El.
  - destruct (re "") as [[g rest]|] eqn:E.
    + apply Hre in E. cbn in E. lia.
    + exists None, q0. repeat split; auto. congruence.
  - destruct (re l) as [[g rest]|] eqn:E.
    + apply Hre in E. exists (Some g), (with_lines (rest :: ls) (line_number q0) q0).
      unfold pending in *. rewrite El in Hle. cbn in *.
      repeat split; auto; lia.
    + exists None, q0. repeat split; auto. congruence.
Qed.

Lemma parse_labels_loop_total fuel :
  forall labels p,
    (pending p < fuel)%nat ->
    exists r, parse_labels_loop fuel labels p = Ok r /\
              (pending r.2 <= pending p)%nat.
Proof.
  induction fuel as [|fuel IH]; intros labels p Hfuel; [lia|].
  cbn [parse_labels_loop].
  destruct (matches_regexp_progress GOTO_LABEL_RE p GOTO_LABEL_RE_consuming)
    as (m & q & -> & Hle & Hlt).
  cbn [bind fst snd]. destruct m as [label|].
  - destruct (IH (set_add label labels) q) as (r & -> & Hr).
    + assert (pending q < pending p)%nat by (apply Hlt; discriminate). lia.
    + exists r. split; [reflexivity|]. lia.
  - exists (labels, q). auto.
Qed.

Lemma parse_labels_total p :
  exists r, parse_labels p = Ok r /\ (pending r.2 <= pending p)%nat.
Proof. apply parse_labels_loop_total. lia. Qed.

(** *** Code without a budget never runs out of one *)

Lemma bind_finishes {A B} (m : result A) (k : A -> result B) :
  m <> OutOfFuel -> (forall a, m = Ok a -> k a <> OutOfFuel) ->
  bind m k <> OutOfFuel.
Proof. destruct m; cbn; auto. Qed.

Lemma for_each_finishes {A S} (body : S -> A -> result S) xs s :
  (forall s x, body s x <> OutOfFuel) -> for_each body xs s <> OutOfFuel.
Proof.
  intros Hbody. revert s. induction xs as [|x xs IH]; intros s; cbn.
  - discriminate.
  - apply bind_finishes; auto.
Qed.

Ltac finishes :=
  repeat first
    [ discriminate
    | assumption
    | progress intros
    | apply bind_finishes
    | apply for_each_finishes
    | match goal with
      | |- (match ?x with _ => _ end) <> _ => destruct x
      | |- (if ?b then _ else _) <> _ => destruct b
      | |- (let (_, _) := ?x in _) <> _ => destruct x
      end ].

Lemma getattr_finishes s f : getattr s f <> OutOfFuel.
Proof. unfold getattr. finishes. Qed.

Lemma py_getitem_finishes {A} (l : list A) i : py_getitem l i <> OutOfFuel.
Proof. unfold py_getitem. finishes. Qed.

Lemma py_update_finishes {A} (l : list A) i f : py_update l i f <> OutOfFuel.
Proof. unfold py_update. finishes. Qed.

Lemma new_finishes ty args kwargs : new ty args kwargs <> OutOfFuel.
Proof. unfold new, set_values. finishes. Qed.

Lemma copy_from_finishes self other : copy_from self other <> OutOfFuel.
Proof. unfold copy_from. finishes. apply getattr_finishes. Qed.

Lemma set_label_finishes name i p : set_label name i p <> OutOfFuel.
Proof. unfold set_label, exception. finishes. Qed.

Lemma state_setattr_finishes sts i f v : state_setattr sts i f v <> OutOfFuel.
Proof. apply py_update_finishes. Qed.

Lemma state_copy_from_finishes sts i o : state_copy_from sts i o <> OutOfFuel.
Proof.
  unfold state_copy_from. finishes;
    auto using py_getitem_finishes, copy_from_finishes, py_update_finishes.
Qed.

Lemma construct_states_finishes idx isA params :
  construct_states idx isA params <> OutOfFuel.
Proof.
  unfold construct_states, sprite_for_name, action_pointer_for_name.
  finishes; apply new_finishes.
Qed.

Lemma add_state_finishes order acc st : add_state order acc st <> OutOfFuel.
Proof.
  unfold add_state, alloc_new_state. finishes;
    auto using new_finishes, py_getitem_finishes, copy_from_finishes,
      py_update_finishes, state_setattr_finishes, set_label_finishes.
Qed.

Lemma apply_gotos_finishes p : apply_gotos p <> OutOfFuel.
Proof.
  unfold apply_gotos, resolve_goto, goto_hop, py_index. finishes;
    auto using py_getitem_finishes, getattr_finishes, py_update_finishes,
      state_setattr_finishes.
Qed.

(** *** The statements of a block *)

Lemma set_label_lines name i p p' :
  set_label name i p = Ok p' -> lines p' = lines p.
Proof.
  unfold set_label. case_bool_decide; [discriminate|]. now intros [= <-].
Qed.

Lemma add_state_lines order acc st acc' :
  add_state order acc st = Ok acc' -> lines acc'.2 = lines acc.2.
Proof.
  unfold add_state. intros H.
  apply bind_Ok in H as ([i q] & Ha & H).
  unfold alloc_new_state in Ha. apply bind_Ok in Ha as (n & _ & [= <- <-]).
  cbn [fst snd] in H.
  apply bind_Ok in H as (sts & _ & H).
  apply bind_Ok in H as (sts' & _ & H).
  apply bind_Ok in H as (p2 & Hl & [= <-]). cbn [snd].
  eapply (for_each_invariant (fun q => lines q = lines acc.2)) in Hl; auto.
  intros s1 x s2 _ Hs1 Hs2. apply set_label_lines in Hs2. congruence.
Qed.

Section Progress.

Variable spritenum_t_index : string -> option Z.
Variable is_Action : string -> bool.
Variable label_order : list string -> list string.

Lemma parse_frame_def_progress p :
  parse_frame_def spritenum_t_index is_Action label_order p <> OutOfFuel /\
  forall b q,
    parse_frame_def spritenum_t_index is_Action label_order p = Ok (b, q) ->
    (pending q <= pending p)%nat /\
    (b = true -> (pending q < pending p)%nat).
Proof.
  unfold parse_frame_def.
  destruct (parse_labels_total p) as (r & -> & Hr). cbn [bind].
  destruct (matches_regexp_progress FRAME_DEF_RE r.2 FRAME_DEF_RE_consuming)
    as (m & q0 & -> & Hle & Hlt).
  cbn [bind fst snd]. destruct m as [params|].
  - assert (Hq0 : (pending q0 < pending p)%nat).
    { assert (pending q0 < pending r.2)%nat by (apply Hlt; discriminate). lia. }
    split.
    + apply bind_finishes; [apply construct_states_finishes|]. intros sts _.
      apply bind_finishes; [|discriminate].
      apply for_each_finishes. intros. apply add_state_finishes.
    + intros b q H. apply bind_Ok in H as (sts & _ & H).
      apply bind_Ok in H as (a & Ha & [= <- <-]).
      eapply (for_each_invariant (fun acc => lines acc.2 = lines q0)) in Ha;
        auto.
      * unfold pending in *. rewrite Ha. split; [lia|]. intros _. lia.
      * intros s1 x s2 _ Hs1 Hs2. apply add_state_lines in Hs2. congruence.
  - split; [discriminate|]. intros b q [= <- <-]. split; [lia|discriminate].
Qed.

(** A statement parser that matched has less left to read. *)
Lemma parse_loop_progress p :
  parse_loop p <> OutOfFuel /\
  forall b q, parse_loop p = Ok (b, q) ->
              (pending q <= pending p)%nat /\
              (b = true -> (pending q < pending p)%nat).
Proof.
  unfold parse_loop.
  destruct (matches_regexp_progress LOOP_STATEMENT_RE p
              (keyword_line_consuming "Loop" ltac:(discriminate)))
    as (m & q0 & -> & Hle & Hlt).
  cbn [bind fst snd]. destruct m as [u|].
  - assert (Hq0 : (pending q0 < pending p)%nat) by (apply Hlt; discriminate).
    split.
    + unfold exception. finishes. apply state_setattr_finishes.
    + intros b q H. repeat (case_bool_decide; [discriminate|]).
      apply bind_Ok in H as (sts & _ & [= <- <-]).
      unfold pending in *. cbn. split; [lia|]. intros _. lia.
  - split; [discriminate|]. intros b q [= <- <-]. split; [lia|discriminate].
Qed.

Lemma parse_goto_progress p :
  parse_goto p <> OutOfFuel /\
  forall b q, parse_goto p = Ok (b, q) ->
              (pending q <= pending p)%nat /\
              (b = true -> (pending q < pending p)%nat).
Proof.
  unfold parse_goto.
  destruct (matches_regexp_progress GOTO_STATEMENT_RE p
              GOTO_STATEMENT_RE_consuming)
    as (m & q0 & -> & Hle & Hlt).
  cbn [bind fst snd]. destruct m as [u|].
  - assert (Hq0 : (pending q0 < pending p)%nat) by (apply Hlt; discriminate).
    split.
    + unfold exception. finishes.
    + intros b q H. case_bool_decide; [discriminate|].
      injection H as <- <-.
      unfold pending in *. cbn. split; [lia|]. intros _. lia.
  - split; [discriminate|]. intros b q [= <- <-]. split; [lia|discriminate].
Qed.

Lemma parse_stop_progress p :
  parse_stop p <> OutOfFuel /\
  forall b q, parse_stop p = Ok (b, q) ->
              (pending q <= pending p)%nat /\
              (b = true -> (pending q < pending p)%nat).
Proof.
  unfold parse_stop.
  destruct (matches_regexp_progress STOP_STATEMENT_RE p
              (keyword_line_consuming "Stop" ltac:(discriminate)))
    as (m & q0 & -> & Hle & Hlt).
  cbn [bind fst snd]. destruct m as [u|].
  - assert (Hq0 : (pending q0 < pending p)%nat) by (apply Hlt; discriminate).
    split.
    + unfold exception. finishes; apply state_setattr_finishes.
    + intros b q H. case_bool_decide; [discriminate|].
      apply bind_Ok in H as (sts & _ & H).
      apply bind_Ok in H as (sts' & _ & [= <- <-]).
      unfold pending in *. cbn. split; [lia|]. intros _. lia.
  - split; [discriminate|]. intros b q [= <- <-]. split; [lia|discriminate].
Qed.

(** The loop of [_Parser.parse] ends within a budget above what is
    left to read. *)
Lemma parse_while_total fuel :
  forall p, (pending p < fuel)%nat ->
            parse_while spritenum_t_index is_Action label_order fuel p
            <> OutOfFuel.
Proof.
  induction fuel as [|fuel IH]; intros p Hfuel; [lia|].
  cbn [parse_while]. pose proof (more_lines_pending p) as H0.
  destruct (more_lines p) as [[] p0]; cbn [fst snd] in *; [|discriminate].
  destruct (parse_frame_def_progress p0) as [Hf Ha].
  apply bind_finishes; [exact Hf|]. intros [[] a] Ea; cbn [fst snd];
    destruct (Ha _ _ Ea) as [Hle Hlt]; [apply IH; specialize (Hlt eq_refl); lia|].
  destruct (parse_loop_progress a) as [Hf1 Hb].
  apply bind_finishes; [exact Hf1|]. intros [[] b] Eb; cbn [fst snd];
    destruct (Hb _ _ Eb) as [Hle1 Hlt1];
    [apply IH; specialize (Hlt1 eq_refl); lia|].
  destruct (parse_goto_progress b) as [Hf2 Hc].
  apply bind_finishes; [exact Hf2|]. intros [[] c] Ec; cbn [fst snd];
    destruct (Hc _ _ Ec) as [Hle2 Hlt2];
    [apply IH; specialize (Hlt2 eq_refl); lia|].
  destruct (parse_stop_progress c) as [Hf3 Hd].
  apply bind_finishes; [exact Hf3|]. intros [[] d] Ed; cbn [fst snd];
    destruct (Hd _ _ Ed) as [Hle3 Hlt3];
    [apply IH; specialize (Hlt3 eq_refl); lia|].
  discriminate.
Qed.

(** [parse] returns or raises on every text: its loops never use up
    the budget the model gives them. *)
Lemma parse_total defstr :
  parse spritenum_t_index is_Action label_order defstr <> OutOfFuel.
Proof.
  unfold parse, _Parser_parse, _Parser_init.
  apply bind_finishes.
  { apply bind_finishes; [apply new_finishes|discriminate]. }
  intros p _. apply bind_finishes; [|discriminate].
  apply bind_finishes; [apply parse_while_total; lia|].
  intros p1 _. unfold exception.
  destruct (bool_decide _); [discriminate|apply apply_gotos_finishes].
Qed.

End Progress.

End Termination.

(** ** Construction of records *)

Module ConstructorFacts.
Import C StructSpec RecordSpec.

Lemma getattr_setattr_declared s g v f :
  g ∈ field_names (stype s) ->
  getattr (setattr s g v) f = if String.eqb f g then Ok v else getattr s f.
Proof.
  intros Hg. destruct (String.eqb f g) eqn:E.
  - apply String.eqb_eq in E as ->. now apply StructFacts.getattr_setattr_same.
  - apply String.eqb_neq in E. now apply StructFacts.getattr_setattr_other.
Qed.

(** A run of assignments to declared fields leaves in each field the
    value of the last assignment to it. *)
Lemma getattr_assignments (l : list (string * pyval)) :
  forall s f,
    Forall (fun kv => kv.1 ∈ field_names (stype s)) l ->
    stype (foldl (fun s' '(g, v) => setattr s' g v) s l) = stype s /\
    _original_values (foldl (fun s' '(g, v) => setattr s' g v) s l)
    = _original_values s /\
    getattr (foldl (fun s' '(g, v) => setattr s' g v) s l) f
    = match assoc_last f l with
      | Some v => Ok v
      | None => getattr s f
      end.
Proof.
  induction l as [|[g v] l IH]; intros s f Hl; cbn [foldl assoc_last];
    [auto|].
  inversion Hl as [|? ? Hg Hl']; subst. cbn [fst] in Hg.
  destruct (IH (setattr s g v) f) as (Ht & Ho & Hv).
  { now rewrite StructFacts.stype_setattr. }
  rewrite StructFacts.stype_setattr in Ht.
  rewrite StructFacts.original_values_setattr in Ho.
  split; [exact Ht|]. split; [exact Ho|].
  rewrite Hv. destruct (assoc_last f l); [reflexivity|].
  rewrite getattr_setattr_declared by assumption.
  now destruct (String.eqb f g).
Qed.

(** The loop of [set_values] over the named values. *)
Lemma named_values_loop (names : list string) (l : list (string * pyval)) :
  forall q,
    for_each (fun s' '(f, v) =>
                if bool_decide (f ∈ names)
                then Ok (setattr s' f v) else Raise ValueError) l q
    = if decide (Forall (fun kv => kv.1 ∈ names) l)
      then Ok (foldl (fun s' '(g, v) => setattr s' g v) q l)
      else Raise ValueError.
Proof.
  induction l as [|[g v] l IH]; intros q; cbn [for_each foldl].
  - now rewrite decide_True by constructor.
  - case_bool_decide as Hg; cbn [bind].
    + rewrite IH.
      destruct (decide (Forall (fun kv => kv.1 ∈ names) l)) as [Hl|Hl].
      * now rewrite decide_True by (constructor; auto).
      * rewrite decide_False; [reflexivity|].
        intros Hall. apply Hl. now inversion Hall.
    + rewrite decide_False; [reflexivity|].
      intros Hall. apply Hg. now inversion Hall.
Qed.

Lemma set_values_unfold args kwargs s :
  set_values args kwargs s
  = if (length (field_names (stype s)) <? length args)%nat
    then Raise ValueError
    else if decide (Forall (fun kv => kv.1 ∈ field_names (stype s)) kwargs)
         then Ok (foldl (fun s' '(g, v) => setattr s' g v)
                        (foldl (fun s' '(g, v) => setattr s' g v) s
                               (zip (field_names (stype s)) args))
                        kwargs)
         else Raise ValueError.
Proof.
  unfold set_values. destruct (_ <? _)%nat; [reflexivity|].
  apply named_values_loop.
Qed.

(** The zeroing loop of [__init__]. *)
Lemma zero_loop (l : list string) :
  forall s f,
    Forall (fun g => g ∈ field_names (stype s)) l ->
    stype (foldl (fun s' g => setattr s' g (PInt 0)) s l) = stype s /\
    getattr (foldl (fun s' g => setattr s' g (PInt 0)) s l) f
    = if bool_decide (f ∈ l) then Ok (PInt 0) else getattr s f.
Proof.
  induction l as [|x l IH]; intros s f Hl; cbn [foldl].
  - split; [reflexivity|]. rewrite bool_decide_eq_false_2; [reflexivity|].
    apply not_elem_of_nil.
  - inversion Hl as [|? ? Hx Hl']; subst.
    destruct (IH (setattr s x (PInt 0)) f) as [Ht Hv].
    { now rewrite StructFacts.stype_setattr. }
    rewrite StructFacts.stype_setattr in Ht. split; [exact Ht|].
    rewrite Hv, getattr_setattr_declared by assumption.
    destruct (String.eqb f x) eqn:E.
    + apply String.eqb_eq in E as ->.
      rewrite (bool_decide_eq_true_2 (x ∈ x :: l)) by apply list_elem_of_here.
      now destruct (bool_decide (x ∈ l)).
    + apply String.eqb_neq in E. case_bool_decide as Hin.
      * now rewrite bool_decide_eq_true_2 by now apply list_elem_of_further.
      * rewrite bool_decide_eq_false_2; [reflexivity|].
        rewrite elem_of_cons. tauto.
Qed.

Lemma zip_keys_declared (names : list string) (args : list pyval) :
  Forall (fun kv : string * pyval => kv.1 ∈ names) (zip names args).
Proof.
  apply Forall_forall. intros [g v] Hin. cbn.
  eapply elem_of_zip_l; eauto.
Qed.

Lemma assoc_last_None f (l : list (string * pyval)) :
  f ∉ l.*1 -> assoc_last f l = None.
Proof.
  induction l as [|[g v] l IH]; cbn; [reflexivity|].
  rewrite not_elem_of_cons. intros [Hne Hl]. rewrite IH by assumption.
  apply String.eqb_neq in Hne. now rewrite Hne.
Qed.

Lemma zip_keys_subset (names : list string) (args : list pyval) f :
  f ∉ names -> f ∉ (zip names args).*1.
Proof.
  intros Hf Hin. apply Hf. apply list_elem_of_fmap in Hin as ([g v] & -> & Hin).
  eapply elem_of_zip_l; eauto.
Qed.

(** With distinct field names, the last positional assignment to the
    field at position [i] is the positional value at [i]. *)
Lemma assoc_last_zip (names : list string) :
  forall (args : list pyval) i f,
    NoDup names -> names !! i = Some f ->
    assoc_last f (zip names args) = args !! i.
Proof.
  induction names as [|n names IH]; intros args i f Hnd Hi; [discriminate|].
  apply NoDup_cons in Hnd as [Hn Hnd].
  destruct args as [|a args]; [now destruct i|]. cbn [zip zip_with assoc_last].
  destruct i as [|i]; cbn in Hi.
  - injection Hi as ->.
    rewrite (assoc_last_None f (zip names args))
      by now apply zip_keys_subset.
    now rewrite String.eqb_refl.
  - change (zip_with pair names args) with (zip names args).
    rewrite (IH args i f Hnd Hi). cbn [lookup list_lookup].
    destruct (args !! i) eqn:E; [reflexivity|].
    assert (f <> n).
    { intros ->. apply Hn. eapply list_elem_of_lookup_2; eauto. }
    apply String.eqb_neq in H. now rewrite H.
Qed.

(** X1. The constructor of a record takes its arguments exactly when
    there are no more positional values than fields and every named
    value is for a declared field; then the instance has the class
    asked for and remembers the arguments. Otherwise the constructor
    raises [ValueError]. *)
Theorem new_accepts_exactly
    (ty : struct_type) (args : list pyval) (kwargs : list (string * pyval)) :
  (accepted ty args kwargs ->
   exists s, new ty args kwargs = Ok s /\ stype s = ty /\
             _original_values s = (args, kwargs)) /\
  (~ accepted ty args kwargs -> new ty args kwargs = Raise ValueError).
Proof.
  unfold accepted, new.
  set (s0 := foldl (fun s' f => setattr s' f (PInt 0))
                   {| stype := ty; _fields := ∅; _original_values := ([], []) |}
                   (field_names ty)).
  assert (Ht : stype s0 = ty).
  { destruct (StructFacts.zero_fields_spec (field_names ty)
                {| stype := ty; _fields := ∅; _original_values := ([], []) |})
      as (H & _). exact H. }
  rewrite set_values_unfold, Ht.
  assert (Hlen : length (field_names ty) = length (fields ty))
    by apply length_map.
  split.
  - intros [Hargs Hkw].
    destruct (_ <? _)%nat eqn:E; [apply Nat.ltb_lt in E; lia|].
    rewrite decide_True by assumption. cbn [bind]. eauto.
  - intros Hno. destruct (_ <? _)%nat eqn:E; [reflexivity|].
    apply Nat.ltb_ge in E.
    rewrite decide_False; [reflexivity|]. intros Hkw. apply Hno. split; [lia|auto].
Qed.

(** X2. In a record type with distinct field names, a constructed
    instance holds in the field at position [i] the named value given
    for it, if one was given, else the positional value at [i], if
    there is one, else zero. *)
Theorem new_field_values
    (ty : struct_type) (args : list pyval) (kwargs : list (string * pyval))
    (s : Struct) (i : nat) (f : string) :
  new ty args kwargs = Ok s ->
  NoDup (field_names ty) ->
  field_names ty !! i = Some f ->
  getattr s f = Ok (initial_value args kwargs i f).
Proof.
  unfold new. intros Hnew Hnd Hi.
  set (z := {| stype := ty; _fields := ∅; _original_values := ([], []) |}) in *.
  set (s0 := foldl (fun s' f => setattr s' f (PInt 0)) z (field_names ty)) in *.
  assert (Hf : f ∈ field_names ty) by (eapply list_elem_of_lookup_2; eauto).
  destruct (zero_loop (field_names ty) z f) as [Ht Hz].
  { apply Forall_forall. auto. }
  fold s0 in Ht, Hz. cbn [stype z] in Ht.
  rewrite bool_decide_eq_true_2 in Hz by assumption.
  apply bind_Ok in Hnew as (s1 & Hset & [= <-]).
  rewrite set_values_unfold, Ht in Hset.
  destruct (_ <? _)%nat; [discriminate|].
  destruct (decide _) as [Hkw|]; [|discriminate]. injection Hset as <-.
  set (s2 := foldl (fun s' '(g, v) => setattr s' g v) s0
                   (zip (field_names ty) args)).
  destruct (getattr_assignments (zip (field_names ty) args) s0 f)
    as (Ht2 & _ & Hv2).
  { rewrite Ht. apply zip_keys_declared. }
  fold s2 in Ht2, Hv2.
  destruct (getattr_assignments kwargs s2 f) as (Ht3 & _ & Hv3).
  { now rewrite Ht2, Ht. }
  unfold getattr in *. cbn [stype _fields].
  rewrite Ht3, Ht2, Ht in Hv3. rewrite Ht2, Ht in Hv2. rewrite Ht in Hz.
  rewrite Hv3. unfold initial_value.
  destruct (assoc_last f kwargs); [reflexivity|].
  rewrite Hv2, (assoc_last_zip _ args i f Hnd Hi).
  destruct (args !! i); [reflexivity|]. exact Hz.
Qed.

Lemma new_field_values_witness :
  getattr (instance_of Coordinate [PInt 20; PInt 30] [("y", PInt 99)]) "y"
  = Ok (initial_value [PInt 20; PInt 30] [("y", PInt 99)] 1 "y").
Proof.
  apply (new_field_values Coordinate [PInt 20; PInt 30] [("y", PInt 99)]
           (instance_of Coordinate [PInt 20; PInt 30] [("y", PInt 99)])
           1 "y").
  - vm_compute. reflexivity.
  - apply (bool_decide_unpack (NoDup (field_names Coordinate))).
    vm_compute. exact I.
  - reflexivity.
Defined.

End ConstructorFacts.

(** ** Copying, comparing and rendering records *)

Module RecordFacts.
Import C StructSpec RecordSpec.

Lemma filter_none {A} (P : A -> Prop) `{forall x, Decision (P x)} (l : list A) :
  (forall x, x ∈ l -> ~ P x) -> filter P l = [].
Proof.
  induction l as [|x l IH]; intros Hall; [reflexivity|].
  rewrite filter_cons_False by (apply Hall, list_elem_of_here).
  apply IH. intros y Hy. apply Hall. now apply list_elem_of_further.
Qed.

(** The loop of [copy_from]. *)
Lemma copy_loop_full other (l : list string) :
  forall s s',
    Forall (fun f => f ∈ field_names (stype s)) l ->
    for_each (fun s f => v <- getattr other f ;; Ok (setattr s f v)) l s
    = Ok s' ->
    stype s' = stype s /\
    _original_values s' = _original_values s /\
    (forall f, f ∈ l -> filled other f /\ getattr s' f = getattr other f) /\
    (forall f, f ∉ l -> getattr s' f = getattr s f).
Proof.
  induction l as [|f0 l IH]; intros s s' Hdecl H; cbn [for_each] in H.
  - injection H as <-. split; [reflexivity|]. split; [reflexivity|].
    split; [intros f Hf; inversion Hf|reflexivity].
  - inversion Hdecl as [|? ? Hf0 Hdecl']; subst.
    apply bind_Ok in H as (s1 & Hstep & Hrest).
    apply bind_Ok in Hstep as (v & Hv & [= <-]).
    apply IH in Hrest as (Ht & Ho & Hin & Hout).
    2: { now rewrite StructFacts.stype_setattr. }
    rewrite StructFacts.stype_setattr in Ht.
    rewrite StructFacts.original_values_setattr in Ho.
    split; [exact Ht|]. split; [exact Ho|]. split.
    + intros f Hf. destruct (decide (f ∈ l)) as [Hl|Hl]; [now apply Hin|].
      apply elem_of_cons in Hf as [->|Hf]; [|contradiction].
      split; [now exists v|].
      rewrite (Hout _ Hl), Hv. now apply StructFacts.getattr_setattr_same.
    + intros f Hf. rewrite not_elem_of_cons in Hf. destruct Hf as [Hne Hl].
      rewrite (Hout _ Hl). now apply StructFacts.getattr_setattr_other.
Qed.

(** The loop of [diff] collects the fields whose values differ. *)
Lemma diff_loop (self other : Struct) (l acc : list string) :
  (forall f, f ∈ l -> filled self f /\ filled other f) ->
  for_each (fun acc f =>
              a <- getattr self f ;;
              b <- getattr other f ;;
              Ok (if py_ne a b then acc ++ [f] else acc)) l acc
  = Ok (acc ++ filter (fun f => differs self other f = true) l).
Proof.
  revert acc. induction l as [|f l IH]; intros acc Hall; cbn [for_each].
  - now rewrite app_nil_r.
  - destruct (Hall f) as [[a Ha] [b Hb]]; [apply list_elem_of_here|].
    rewrite Ha, Hb. cbn [bind].
    rewrite IH by (intros g Hg; apply Hall; now apply list_elem_of_further).
    assert (Hd : differs self other f = py_ne a b)
      by (unfold differs; now rewrite Ha, Hb).
    destruct (py_ne a b).
    + rewrite filter_cons_True by assumption. now rewrite <- app_assoc.
    + rewrite filter_cons_False; [reflexivity|]. congruence.
Qed.

Lemma filter_agree {A} (P Q : A -> Prop) `{forall x, Decision (P x)}
    `{forall x, Decision (Q x)} (l : list A) :
  (forall x, x ∈ l -> P x <-> Q x) -> filter P l = filter Q l.
Proof.
  induction l as [|x l IH]; intros Hall; [reflexivity|].
  assert (Hx : P x <-> Q x) by (apply Hall, list_elem_of_here).
  assert (Hl : filter P l = filter Q l).
  { apply IH. intros y Hy. apply Hall. now apply list_elem_of_further. }
  destruct (decide (P x)) as [HP|HP].
  - rewrite !filter_cons_True by tauto. now rewrite Hl.
  - rewrite !filter_cons_False by tauto. exact Hl.
Qed.

(** A field differs from itself when it holds the not-a-number, and
    two fields differ either way round. *)
Lemma differs_self s f : differs s s f = holds_nan s f.
Proof.
  unfold differs, holds_nan. destruct (getattr s f) as [v| |]; try reflexivity.
  rewrite StructFacts.py_ne_same. destruct v; reflexivity.
Qed.

Lemma differs_sym a b f : differs a b f = differs b a f.
Proof.
  unfold differs. destruct (getattr a f), (getattr b f); try reflexivity.
  apply StructFacts.py_ne_sym.
Qed.

Lemma differing_self s : differing s s = nan_fields s.
Proof.
  unfold differing, nan_fields. apply filter_agree.
  intros f _. now rewrite differs_self.
Qed.

Lemma diff_differing self other :
  initialised self ->
  (forall f, f ∈ field_names (stype self) -> filled other f) ->
  diff self (Some other) = Ok (differing self other).
Proof.
  intros Hs Ho. unfold diff, differing. cbn [bind].
  now rewrite diff_loop by (intros f Hf; split; auto).
Qed.

(** X3. [copy_from] between instances of different classes fails its
    assertion. When it succeeds, the instance keeps its class and
    the arguments it was constructed with, so that [original()]
    returns what it returned before; every declared field holds the
    value of the same field of the other instance; and [diff] against
    the other instance lists the fields in which that instance holds
    the not-a-number, which differs from itself, and no other: it is
    empty when the other instance holds none. *)
Theorem copy_from_spec (self other : Struct) :
  (stype self <> stype other -> copy_from self other = Raise AssertionError) /\
  (forall s',
      copy_from self other = Ok s' ->
      stype s' = stype self /\
      _original_values s' = _original_values self /\
      original s' = original self /\
      (forall f, f ∈ field_names (stype self) ->
                 getattr s' f = getattr other f) /\
      diff s' (Some other) = Ok (nan_fields other) /\
      (nan_free other -> diff s' (Some other) = Ok [])).
Proof.
  unfold copy_from. split.
  - intros Hne. now rewrite decide_False.
  - intros s' H.
    destruct (decide (stype self = stype other)) as [e|]; [|discriminate].
    apply copy_loop_full in H as (Ht & Ho & Hin & _);
      [|apply Forall_forall; auto].
    split; [exact Ht|]. split; [exact Ho|]. split.
    { unfold original. now rewrite Ht, Ho. }
    split; [intros f Hf; now apply Hin|].
    assert (Hdiff : diff s' (Some other) = Ok (nan_fields other)).
    { unfold diff. cbn [bind]. rewrite Ht.
      rewrite StructFacts.diff_loop_same.
      - cbn [app]. unfold nan_fields. rewrite <- e. f_equal.
        apply filter_agree. intros f Hf. unfold holds_nan.
        destruct (Hin f Hf) as [_ ->]. reflexivity.
      - intros f Hf. destruct (Hin f Hf) as [[v Hv] Heq].
        exists v. split; congruence. }
    split; [exact Hdiff|].
    intros Hfree. rewrite Hdiff. unfold nan_fields.
    now rewrite StructFacts.nan_free_fields.
Qed.

(** X4. For initialised instances of one class, [diff] returns the
    declared fields whose values differ under [!=], in declaration
    order; it returns the same list whichever of the two is asked;
    and for an instance against itself it returns the fields that
    hold the not-a-number, so the empty list when there is none. *)
Theorem diff_lists_differing (self other : Struct) :
  initialised self -> initialised other -> stype other = stype self ->
  diff self (Some other) = Ok (differing self other) /\
  diff other (Some self) = diff self (Some other) /\
  diff self (Some self) = Ok (nan_fields self) /\
  (nan_free self -> diff self (Some self) = Ok []).
Proof.
  intros Hs Ho Ht.
  assert (H1 : diff self (Some other) = Ok (differing self other)).
  { apply diff_differing; auto. intros f Hf. apply Ho. now rewrite Ht. }
  assert (H2 : diff other (Some self) = Ok (differing other self)).
  { apply diff_differing; auto. intros f Hf. apply Hs. now rewrite <- Ht. }
  assert (H3 : diff self (Some self) = Ok (nan_fields self)).
  { rewrite diff_differing by auto. now rewrite differing_self. }
  split; [exact H1|]. split; [|split; [exact H3|]].
  - rewrite H1, H2. unfold differing. rewrite Ht. f_equal.
    apply filter_agree. intros f _. now rewrite differs_sym.
  - intros Hfree. rewrite H3. unfold nan_fields.
    now rewrite StructFacts.nan_free_fields.
Qed.

Lemma diff_lists_differing_witness :
  diff (instance_of Coordinate [PInt 20; PInt 30] [])
       (Some (instance_of Coordinate [PInt 20; PNaN] []))
  = Ok (differing (instance_of Coordinate [PInt 20; PInt 30] [])
                  (instance_of Coordinate [PInt 20; PNaN] [])) /\
  diff (instance_of Coordinate [PInt 20; PNaN] [])
       (Some (instance_of Coordinate [PInt 20; PInt 30] []))
  = diff (instance_of Coordinate [PInt 20; PInt 30] [])
         (Some (instance_of Coordinate [PInt 20; PNaN] [])) /\
  diff (instance_of Coordinate [PInt 20; PInt 30] [])
       (Some (instance_of Coordinate [PInt 20; PInt 30] []))
  = Ok (nan_fields (instance_of Coordinate [PInt 20; PInt 30] [])) /\
  (nan_free (instance_of Coordinate [PInt 20; PInt 30] []) ->
   diff (instance_of Coordinate [PInt 20; PInt 30] [])
        (Some (instance_of Coordinate [PInt 20; PInt 30] [])) = Ok []).
Proof.
  apply (diff_lists_differing
           (instance_of Coordinate [PInt 20; PInt 30] [])
           (instance_of Coordinate [PInt 20; PNaN] [])).
  - apply (StructFacts.new_initialised Coordinate [PInt 20; PInt 30] []).
    vm_compute. reflexivity.
  - apply (StructFacts.new_initialised Coordinate [PInt 20; PNaN] []).
    vm_compute. reflexivity.
  - reflexivity.
Defined.

Lemma filter_the_one (l : list string) (f : string) :
  NoDup l -> f ∈ l -> filter (fun g => g = f) l = [f].
Proof.
  induction l as [|x l IH]; intros Hnd Hf; [inversion Hf|].
  apply NoDup_cons in Hnd as [Hx Hnd].
  destruct (decide (x = f)) as [->|Hne].
  - rewrite filter_cons_True by reflexivity. f_equal.
    apply filter_none. intros y Hy ->. contradiction.
  - rewrite filter_cons_False by assumption. apply IH; auto.
    apply elem_of_cons in Hf as [->|Hf]; [congruence|assumption].
Qed.

Lemma initialised_setattr s f v : initialised s -> initialised (setattr s f v).
Proof.
  intros Hs g Hg. rewrite StructFacts.stype_setattr in Hg.
  now apply StructFacts.filled_setattr, Hs.
Qed.

Lemma original_setattr s f v : original (setattr s f v) = original s.
Proof.
  unfold original.
  now rewrite StructFacts.stype_setattr, StructFacts.original_values_setattr.
Qed.

(** The fields in which an instance that holds no not-a-number
    differs from itself after one assignment. *)
Lemma differing_setattr s f v v0 :
  NoDup (field_names (stype s)) ->
  f ∈ field_names (stype s) ->
  getattr s f = Ok v0 ->
  nan_free s ->
  differing (setattr s f v) s = if py_ne v v0 then [f] else [].
Proof.
  intros Hnd Hf Hv0 Hfree.
  unfold differing. rewrite StructFacts.stype_setattr.
  assert (Hat : differs (setattr s f v) s f = py_ne v v0).
  { unfold differs.
    now rewrite StructFacts.getattr_setattr_same, Hv0 by assumption. }
  assert (Hother : forall g, g <> f -> differs (setattr s f v) s g = false).
  { intros g Hg. unfold differs.
    rewrite StructFacts.getattr_setattr_other by assumption.
    destruct (getattr s g) as [w| |] eqn:E; try reflexivity.
    rewrite StructFacts.py_ne_same. apply bool_decide_eq_false_2.
    intros ->. now apply (Hfree g). }
  destruct (py_ne v v0).
  - rewrite <- (filter_the_one (field_names (stype s)) f Hnd Hf).
    apply filter_agree. intros g _. split.
    + intros Hd. destruct (decide (g = f)) as [|Hgf]; [assumption|].
      rewrite Hother in Hd by assumption. discriminate.
    + now intros ->.
  - apply filter_none. intros g _ Hd.
    destruct (decide (g = f)) as [->|Hgf]; [congruence|].
    rewrite Hother in Hd by assumption. discriminate.
Qed.

(** [diff] of a constructed instance after one assignment. *)
Lemma diff_setattr ty args kwargs s f v v0 :
  new ty args kwargs = Ok s ->
  NoDup (field_names ty) ->
  f ∈ field_names ty ->
  getattr s f = Ok v0 ->
  nan_free s ->
  diff (setattr s f v) None = Ok (if py_ne v v0 then [f] else []).
Proof.
  intros Hnew Hnd Hf Hv0 Hfree.
  destruct (StructFacts.new_spec _ _ _ _ Hnew) as (Ht & _ & Hfill).
  pose proof (StructFacts.new_initialised _ _ _ _ Hnew) as Hinit.
  unfold diff. rewrite original_setattr, (StructFacts.original_new _ _ _ _ Hnew).
  cbn [bind].
  change (diff (setattr s f v) (Some s)
          = Ok (if py_ne v v0 then [f] else [])).
  rewrite diff_differing.
  - f_equal.
    apply differing_setattr;
      [now rewrite Ht|now rewrite Ht|assumption|assumption].
  - now apply initialised_setattr.
  - intros g Hg. rewrite StructFacts.stype_setattr in Hg. now apply Hinit.
Qed.

(** X5. After one assignment to a declared field of a freshly
    constructed instance that holds no not-a-number, in a record
    type with distinct field names, [diff] against the original
    reports that field alone when the value assigned differs under
    [!=] from the one the field had, and nothing when it does not. *)
Theorem diff_after_assignment
    (ty : struct_type) (args : list pyval) (kwargs : list (string * pyval))
    (s : Struct) (f : string) (v v0 : pyval) :
  new ty args kwargs = Ok s ->
  NoDup (field_names ty) ->
  f ∈ field_names ty ->
  getattr s f = Ok v0 ->
  nan_free s ->
  diff (setattr s f v) None = Ok (if py_ne v v0 then [f] else []).
Proof.
  intros Hnew Hnd Hf Hv0 Hfree.
  pose proof (StructFacts.new_initialised _ _ _ _ Hnew) as Hinit.
  assert (Ht : stype s = ty) by now apply StructFacts.new_spec in Hnew.
  assert (Horig : original (setattr s f v) = Ok s).
  { rewrite original_setattr. eapply StructFacts.original_new; eauto. }
  unfold diff. rewrite Horig. cbn [bind].
  change (diff (setattr s f v) (Some s)
          = Ok (if py_ne v v0 then [f] else [])).
  rewrite diff_differing.
  - f_equal.
    apply differing_setattr;
      [now rewrite Ht|now rewrite Ht|assumption|assumption].
  - now apply initialised_setattr.
  - intros g Hg. rewrite StructFacts.stype_setattr in Hg. now apply Hinit.
Qed.

Lemma diff_after_assignment_witness :
  diff (setattr (instance_of Coordinate [PInt 20; PInt 30] []) "x" PNaN)
       None
  = Ok (if py_ne PNaN (PInt 20) then ["x"] else []).
Proof.
  apply (diff_after_assignment Coordinate [PInt 20; PInt 30] []
           (instance_of Coordinate [PInt 20; PInt 30] []) "x").
  - vm_compute. reflexivity.
  - apply (bool_decide_unpack (NoDup (field_names Coordinate))).
    vm_compute. exact I.
  - apply (bool_decide_unpack ("x" ∈ field_names Coordinate)).
    vm_compute. exact I.
  - vm_compute. reflexivity.
  - apply (StructFacts.new_nan_free Coordinate [PInt 20; PInt 30] []).
    + vm_compute. reflexivity.
    + repeat constructor; discriminate.
    + constructor.
Defined.

Lemma index_of_lookup (names : list string) :
  forall i f, NoDup names -> names !! i = Some f -> index_of f names = Some i.
Proof.
  induction names as [|n names IH]; intros i f Hnd Hi; [discriminate|].
  apply NoDup_cons in Hnd as [Hn Hnd]. cbn [index_of].
  destruct i as [|i]; cbn in Hi.
  - injection Hi as ->. now rewrite String.eqb_refl.
  - assert (f <> n).
    { intros ->. apply Hn. eapply list_elem_of_lookup_2; eauto. }
    apply String.eqb_neq in H. rewrite H. now rewrite (IH i f Hnd Hi).
Qed.

Lemma omap_singleton {A B} (g : A -> option B) (x : A) :
  omap g [x] = option_list (g x).
Proof. cbn. now destruct (g x). Qed.

Lemma concat_not_empty (a b : string) (c : ascii) :
  String.eqb (a +:+ String c EmptyString +:+ b) "" = false.
Proof. now destruct a. Qed.

(** X6. A freshly constructed instance that holds no not-a-number
    has no differences to render: [dehacked_diffs] returns the empty
    list. After one assignment to a field of a value that differs
    under [!=] from the one it had, it returns one block, the header
    and the line of that field, when the field has an external name
    that is not empty, and the empty list when it has none, as for
    pointer-like fields. *)
Theorem dehacked_diffs_after_assignment
    (action_str : string -> string)
    (ty : struct_type) (args : list pyval) (kwargs : list (string * pyval))
    (s : Struct) (i : nat) (f : string) (d : option string)
    (v v0 : pyval) (index : Z) :
  new ty args kwargs = Ok s ->
  NoDup (field_names ty) ->
  fields ty !! i = Some (f, d) ->
  getattr s f = Ok v0 ->
  nan_free s ->
  py_ne v v0 = true ->
  dehacked_diffs action_str s None index = Ok [] /\
  dehacked_diffs action_str (setattr s f v) None index
  = Ok (if truthy d
        then [String.concat LF
                [DEHACKED_NAME ty +:+ " " +:+ pretty index;
                 default "" d +:+ " = " +:+ py_str action_str v]]
        else []).
Proof.
  intros Hnew Hnd Hi Hv0 Hfree Hne.
  destruct (StructFacts.new_spec _ _ _ _ Hnew) as (Ht & _ & Hfill).
  pose proof (StructFacts.new_initialised _ _ _ _ Hnew) as Hinit.
  assert (Hname : field_names ty !! i = Some f).
  { unfold field_names. rewrite list_lookup_fmap, Hi. reflexivity. }
  assert (Hf : f ∈ field_names ty) by (eapply list_elem_of_lookup_2; eauto).
  split.
  - unfold dehacked_diffs, diff.
    rewrite (StructFacts.original_new _ _ _ _ Hnew). cbn [bind].
    rewrite StructFacts.diff_loop_same.
    + cbn [app]. now rewrite StructFacts.nan_free_fields.
    + intros g Hg. rewrite Ht in Hg. destruct (Hfill g Hg) as [w Hw]. eauto.
  - unfold dehacked_diffs.
    rewrite (diff_setattr _ _ _ _ _ v v0 Hnew Hnd Hf Hv0 Hfree).
    rewrite Hne. cbn [bind].
    unfold dehacked_output.
    rewrite StructFacts.render_loop.
    2: { intros g Hg. apply list_elem_of_singleton in Hg as ->.
         rewrite StructFacts.stype_setattr, Ht. split; [assumption|].
         apply StructFacts.filled_setattr_same. now rewrite Ht. }
    assert (Hval : _fields (setattr s f v) !! i = Some v).
    { unfold setattr. rewrite Ht, (index_of_lookup _ _ _ Hnd Hname).
      cbn [_fields]. apply lookup_insert_eq. }
    assert (Hline : field_line action_str (setattr s f v) f
                    = if truthy d
                      then Some (default "" d +:+ " = " +:+ py_str action_str v)
                      else None).
    { unfold field_line.
      rewrite StructFacts.stype_setattr, Ht.
      rewrite (index_of_lookup _ _ _ Hnd Hname), Hi, Hval.
      destruct d as [d|]; cbn [truthy default]; [|reflexivity].
      now destruct (String.eqb d ""). }
    rewrite omap_singleton, Hline. unfold dehacked_header.
    rewrite StructFacts.stype_setattr, Ht.
    destruct (truthy d); [|reflexivity].
    unfold option_list. cbn [app option_rect bind String.concat].
    unfold LF at 1. now rewrite concat_not_empty.
Qed.

Lemma dehacked_diffs_after_assignment_witness :
  dehacked_diffs (fun n => n) (instance_of Coordinate [PInt 20; PInt 30] [])
                 None 99 = Ok [] /\
  dehacked_diffs (fun n => n)
    (setattr (instance_of Coordinate [PInt 20; PInt 30] []) "y" (PInt 5))
    None 99
  = Ok (if truthy (Some "Y Value")
        then [String.concat LF
                [DEHACKED_NAME Coordinate +:+ " " +:+ pretty 99;
                 default "" (Some "Y Value") +:+ " = "
                 +:+ py_str (fun n => n) (PInt 5)]]
        else []).
Proof.
  apply (dehacked_diffs_after_assignment (fun n => n) Coordinate
           [PInt 20; PInt 30] []
           (instance_of Coordinate [PInt 20; PInt 30] [])
           1 "y" (Some "Y Value") (PInt 5) (PInt 30) 99).
  - vm_compute. reflexivity.
  - apply (bool_decide_unpack (NoDup (field_names Coordinate))).
    vm_compute. exact I.
  - reflexivity.
  - vm_compute. reflexivity.
  - apply (StructFacts.new_nan_free Coordinate [PInt 20; PInt 30] []).
    + vm_compute. reflexivity.
    + repeat constructor; discriminate.
    + constructor.
  - reflexivity.
Defined.

End RecordFacts.

(** ** Enumerations and arrays of records *)

Module ArrayFacts.
Import C StructSpec RecordSpec.

(** The loop of [create_globals] from position [k]. *)
Lemma create_globals_loop (l : list string) :
  forall (k : nat) (g : gmap string pyval),
    (forall name, name ∉ l ->
       foldl (fun g p => <[p.2 := PInt (Z.of_nat p.1)]> g) g
             (zip (seq k (length l)) l) !! name = g !! name) /\
    (NoDup l ->
     forall j name, l !! j = Some name ->
       foldl (fun g p => <[p.2 := PInt (Z.of_nat p.1)]> g) g
             (zip (seq k (length l)) l) !! name
       = Some (PInt (Z.of_nat (k + j)))).
Proof.
  induction l as [|x l IH]; intros k g; cbn [length seq zip zip_with foldl].
  - split; [reflexivity|]. intros _ j name Hj. discriminate.
  - change (zip_with pair (seq (S k) (length l)) l)
      with (zip (seq (S k) (length l)) l).
    destruct (IH (S k) (<[x := PInt (Z.of_nat k)]> g)) as [Hout Hin].
    cbn [fst snd]. split.
    + intros name Hname. rewrite not_elem_of_cons in Hname.
      destruct Hname as [Hne Hl].
      rewrite (Hout name Hl). now apply lookup_insert_ne.
    + intros Hnd j name Hj. apply NoDup_cons in Hnd as [Hx Hnd].
      destruct j as [|j]; cbn in Hj.
      * injection Hj as ->. rewrite (Hout name Hx), lookup_insert_eq.
        now rewrite Nat.add_0_r.
      * rewrite (Hin Hnd j name Hj). do 3 f_equal. lia.
Qed.

(** X7. For an enumeration of distinct names, [create_globals] binds
    every name to its position and leaves every other entry of the
    dictionary alone; so indexing the enumeration with the constant
    of a name gives the name back. *)
Theorem create_globals_binds_positions
    (self : list string) (globals : gmap string pyval) :
  NoDup self ->
  (forall i name, self !! i = Some name ->
     create_globals self globals !! name = Some (PInt (Z.of_nat i)) /\
     py_getitem self (Z.of_nat i) = Ok name) /\
  (forall name, name ∉ self ->
     create_globals self globals !! name = globals !! name).
Proof.
  intros Hnd. unfold create_globals.
  destruct (create_globals_loop self 0 globals) as [Hout Hin]. split.
  - intros i name Hi. split.
    + now rewrite (Hin Hnd i name Hi).
    + now apply RemapFacts.py_getitem_lookup.
  - exact Hout.
Qed.

Lemma create_globals_binds_positions_witness :
  (forall i name, Sounds.sfxenum_t !! i = Some name ->
     create_globals Sounds.sfxenum_t ∅ !! name = Some (PInt (Z.of_nat i)) /\
     py_getitem Sounds.sfxenum_t (Z.of_nat i) = Ok name) /\
  (forall name, name ∉ Sounds.sfxenum_t ->
     create_globals Sounds.sfxenum_t ∅ !! name = (∅ : gmap string pyval) !! name).
Proof.
  apply (create_globals_binds_positions Sounds.sfxenum_t ∅).
  apply (bool_decide_unpack (NoDup Sounds.sfxenum_t)).
  vm_compute. exact I.
Defined.

(** *** Arrays *)

Lemma new_without_arguments ty : exists s, new ty [] [] = Ok s.
Proof.
  unfold new. rewrite ConstructorFacts.set_values_unfold.
  destruct (_ <? _)%nat eqn:E; [apply Nat.ltb_lt in E; cbn in E; lia|].
  rewrite decide_True by constructor. cbn [bind]. eauto.
Qed.

Lemma init_element_type ty el s : init_element ty el = Ok s -> stype s = ty.
Proof.
  destruct el as [args|kwargs|s0]; cbn [init_element]; intros H.
  - now apply StructFacts.new_spec in H.
  - now apply StructFacts.new_spec in H.
  - destruct (decide (stype s0 = ty)); congruence.
Qed.

(** The loop of [StructArray.__init__]. *)
Lemma init_loop_Ok ty (els : list initializer) :
  forall acc acc',
    for_each (fun acc el => s <- init_element ty el ;; Ok (acc ++ [s])) els acc
    = Ok acc' <->
    exists ss, acc' = acc ++ ss /\
               Forall2 (fun el s => init_element ty el = Ok s) els ss.
Proof.
  induction els as [|el els IH]; intros acc acc'; cbn [for_each].
  - split.
    + intros [= <-]. exists []. rewrite app_nil_r. split; [reflexivity|constructor].
    + intros (ss & -> & Hss). inversion Hss. now rewrite app_nil_r.
  - split.
    + intros H. apply bind_Ok in H as (acc1 & Hstep & Hrest).
      apply bind_Ok in Hstep as (s & Hs & [= <-]).
      apply IH in Hrest as (ss & -> & Hss).
      exists (s :: ss). rewrite <- app_assoc. split; [reflexivity|].
      now constructor.
    + intros (ss & -> & Hss). inversion Hss as [|? s ? ss' Hs Hss']; subst.
      rewrite Hs. cbn [bind]. apply IH. exists ss'.
      rewrite <- app_assoc. auto.
Qed.

Lemma init_loop_Raise ty (pre : list initializer) :
  forall el post e acc,
    Forall (fun x => exists s, init_element ty x = Ok s) pre ->
    init_element ty el = Raise e ->
    for_each (fun acc el => s <- init_element ty el ;; Ok (acc ++ [s]))
             (pre ++ el :: post) acc
    = Raise e.
Proof.
  induction pre as [|x pre IH]; intros el post e acc Hpre Hel;
    cbn [app for_each].
  - now rewrite Hel.
  - inversion Hpre as [|? ? [s Hs] Hpre']; subst. rewrite Hs. cbn [bind].
    now apply IH.
Qed.

(** X8. An array of records is built exactly from the instances its
    initializers give, in order: it has their number of elements and
    all are of the class of the array. When an initializer fails, for
    too many values, an undeclared name or an instance of another
    class, the constructor of the array raises the error of the first
    that fails. *)
Theorem StructArray_new_elements
    (ty : struct_type) (elements : list initializer) :
  (forall a,
      StructArray_new ty elements = Ok a ->
      _struct_type a = ty /\
      StructArray_len a = Z.of_nat (length elements) /\
      Forall2 (fun el s => init_element ty el = Ok s) elements (_elements a) /\
      Forall (fun s => stype s = ty) (_elements a)) /\
  (forall pre el post e,
      elements = pre ++ el :: post ->
      Forall (fun x => exists s, init_element ty x = Ok s) pre ->
      init_element ty el = Raise e ->
      StructArray_new ty elements = Raise e).
Proof.
  unfold StructArray_new. destruct (new_without_arguments ty) as [s0 ->].
  cbn [bind]. split.
  - intros a H. apply bind_Ok in H as (els & Hloop & [= <-]).
    apply init_loop_Ok in Hloop as (ss & -> & Hss). cbn [app] in *.
    unfold StructArray_len. cbn [_struct_type _elements].
    split; [reflexivity|]. split; [now rewrite (Forall2_length _ _ _ Hss)|].
    split; [exact Hss|].
    apply Forall_forall. intros s Hs.
    apply list_elem_of_lookup in Hs as [i Hi].
    destruct (Forall2_lookup_r _ _ _ _ _ Hss Hi) as (el & _ & Hel).
    eapply init_element_type; eauto.
  - intros pre el post e -> Hpre Hel.
    now rewrite (init_loop_Raise ty pre el post e [] Hpre Hel).
Qed.

Lemma dehacked_diffs_fresh action_str ty args kwargs s index :
  new ty args kwargs = Ok s ->
  nan_free s ->
  dehacked_diffs action_str s None index = Ok [].
Proof.
  intros Hnew Hfree.
  destruct (StructFacts.new_spec _ _ _ _ Hnew) as (Ht & _ & Hfill).
  unfold dehacked_diffs, diff.
  rewrite (StructFacts.original_new _ _ _ _ Hnew). cbn [bind].
  rewrite StructFacts.diff_loop_same.
  - cbn [app]. now rewrite StructFacts.nan_free_fields.
  - intros g Hg. rewrite Ht in Hg. destruct (Hfill g Hg) as [w Hw]. eauto.
Qed.

Lemma originals_loop (ss : list Struct) :
  forall acc,
    Forall (fun s => original s = Ok s) ss ->
    for_each (fun acc el => o <- original el ;; Ok (acc ++ [o])) ss acc
    = Ok (acc ++ ss).
Proof.
  induction ss as [|s ss IH]; intros acc Hss; cbn [for_each].
  - now rewrite app_nil_r.
  - inversion Hss as [|? ? Hs Hss']; subst. rewrite Hs. cbn [bind].
    rewrite IH by assumption. now rewrite <- app_assoc.
Qed.

Lemma diffs_loop_fresh action_str (ps : list (nat * Struct)) :
  Forall (fun p => forall index,
              dehacked_diffs action_str p.2 None index = Ok []) ps ->
  for_each
    (fun result p =>
       other_el <- Ok None ;;
       d <- dehacked_diffs action_str p.2 other_el (Z.of_nat p.1) ;;
       Ok (result ++ d)) ps []
  = Ok [].
Proof.
  induction 1 as [|p ps Hp _ IH]; cbn [for_each bind]; [reflexivity|].
  rewrite Hp. cbn [bind app]. exact IH.
Qed.

(** X9. An array built from positional and named initializers only
    is its own original, and when none of its elements holds the
    not-a-number its [dehacked_diffs] is empty. *)
Theorem fresh_array_has_no_diffs
    (action_str : string -> string) (ty : struct_type)
    (elements : list initializer) (a : StructArray) :
  StructArray_new ty elements = Ok a ->
  Forall (fun el => forall s, el <> InitStruct s) elements ->
  StructArray_original a = Ok a /\
  (Forall nan_free (_elements a) ->
   StructArray_dehacked_diffs action_str a None = Ok []).
Proof.
  intros Hnew Hfresh.
  assert (Hnew' := Hnew). unfold StructArray_new in Hnew'.
  destruct (new_without_arguments ty) as [s0 Hs0]. rewrite Hs0 in Hnew'.
  cbn [bind] in Hnew'.
  apply bind_Ok in Hnew' as (els & Hloop & [= <-]).
  apply init_loop_Ok in Hloop as (ss & -> & Hss). cbn [app] in *.
  assert (Hfrom : Forall (fun s => exists args kwargs,
                              new ty args kwargs = Ok s) ss).
  { apply Forall_forall. intros s Hs.
    apply list_elem_of_lookup in Hs as [i Hi].
    destruct (Forall2_lookup_r _ _ _ _ _ Hss Hi) as (el & Hel & Hinit).
    rewrite Forall_forall in Hfresh.
    assert (Hin : el ∈ elements) by (eapply list_elem_of_lookup_2; eauto).
    specialize (Hfresh el Hin).
    destruct el as [args|kwargs|s1]; cbn [init_element] in Hinit; eauto.
    exfalso. now apply (Hfresh s1). }
  split.
  - unfold StructArray_original. cbn [_elements _struct_type].
    rewrite originals_loop.
    + cbn [bind app]. unfold StructArray_new. rewrite Hs0. cbn [bind].
      assert (Hl : for_each
                     (fun acc el => s <- init_element ty el ;; Ok (acc ++ [s]))
                     (map InitStruct ss) [] = Ok ss).
      { apply init_loop_Ok. exists ss. split; [reflexivity|].
        apply Forall2_fmap_l, Forall_Forall2_diag.
        eapply Forall_impl; [exact Hfrom|].
        intros s (args & kwargs & Hs). cbn [init_element].
        apply StructFacts.new_spec in Hs as (Hty & _).
        unfold compose. cbn [init_element]. now rewrite decide_True. }
      now rewrite Hl.
    + eapply Forall_impl; [exact Hfrom|].
      intros s (args & kwargs & Hs). eapply StructFacts.original_new; eauto.
  - cbn [_elements]. intros Hfree.
    unfold StructArray_dehacked_diffs. cbn [_elements].
    apply diffs_loop_fresh. apply Forall_forall. intros [i s] Hp index.
    apply elem_of_zip_r in Hp. rewrite Forall_forall in Hfrom, Hfree.
    destruct (Hfrom s Hp) as (args & kwargs & Hs).
    eapply dehacked_diffs_fresh; eauto.
Qed.

Lemma fresh_array_has_no_diffs_witness :
  StructArray_original
    (array_of Coordinate [InitSeq [PInt 0; PInt 0];
                          InitDict [("x", PInt 5); ("y", PInt 6)]])
  = Ok (array_of Coordinate [InitSeq [PInt 0; PInt 0];
                             InitDict [("x", PInt 5); ("y", PInt 6)]]) /\
  (Forall nan_free
          (_elements (array_of Coordinate
                        [InitSeq [PInt 0; PInt 0];
                         InitDict [("x", PInt 5); ("y", PInt 6)]])) ->
   StructArray_dehacked_diffs (fun n => n)
     (array_of Coordinate [InitSeq [PInt 0; PInt 0];
                           InitDict [("x", PInt 5); ("y", PInt 6)]]) None
   = Ok []).
Proof.
  apply (fresh_array_has_no_diffs (fun n => n) Coordinate
           [InitSeq [PInt 0; PInt 0]; InitDict [("x", PInt 5); ("y", PInt 6)]]).
  - vm_compute. reflexivity.
  - repeat constructor; discriminate.
Defined.

End ArrayFacts.

(** ** What the parser keeps true, and what it can raise *)

Module SafetyFacts.
Import C StatesParser StructSpec ParserSpec LinkSpec.

Lemma sound_bind {A B} (P : A -> Prop) (Q : B -> Prop)
    (m : result A) (k : A -> result B) :
  sound P m -> (forall a, P a -> sound Q (k a)) -> sound Q (bind m k).
Proof. destruct m; cbn; auto. Qed.

Lemma sound_for_each {A S} (I : S -> Prop) (body : S -> A -> result S)
    (xs : list A) :
  forall s,
    I s -> (forall s x, I s -> x ∈ xs -> sound I (body s x)) ->
    sound I (for_each body xs s).
Proof.
  induction xs as [|x xs IH]; intros s Hs Hbody; cbn [for_each]; [exact Hs|].
  eapply sound_bind.
  - apply Hbody; [assumption|apply list_elem_of_here].
  - intros s' Hs'. apply IH; [assumption|].
    intros s0 y Hs0 Hy. apply Hbody; [assumption|].
    now apply list_elem_of_further.
Qed.

Lemma sound_impl {A} (P Q : A -> Prop) (r : result A) :
  sound P r -> (forall a, P a -> Q a) -> sound Q r.
Proof. destruct r; cbn; auto. Qed.

(** *** Indexing inside the list *)

Lemma py_getitem_in {A} (l : list A) (i : Z) :
  0 <= i < Z.of_nat (length l) ->
  exists x, l !! Z.to_nat i = Some x /\ py_getitem l i = Ok x.
Proof.
  intros Hi. unfold py_getitem, py_norm_index.
  destruct (0 <=? i) eqn:E0; [|lia].
  destruct (i <? Z.of_nat (length l)) eqn:E1; [|lia].
  destruct (lookup_lt_is_Some_2 l (Z.to_nat i)) as [x Hx]; [lia|].
  rewrite Hx. eauto.
Qed.

Lemma py_update_in {A} (l : list A) (i : Z) (f : A -> A) :
  0 <= i < Z.of_nat (length l) ->
  exists x, l !! Z.to_nat i = Some x /\
            py_update l i f = Ok (<[Z.to_nat i := f x]> l).
Proof.
  intros Hi. unfold py_update, py_norm_index.
  destruct (0 <=? i) eqn:E0; [|lia].
  destruct (i <? Z.of_nat (length l)) eqn:E1; [|lia].
  destruct (lookup_lt_is_Some_2 l (Z.to_nat i)) as [x Hx]; [lia|].
  rewrite Hx. eauto.
Qed.

(** *** States and their links *)

Lemma linked_mono (n m : nat) (st : Struct) :
  (n <= m)%nat -> linked n st -> linked m st.
Proof.
  intros Hnm (Ht & Hi & k & Hk & Hr). split; [assumption|].
  split; [assumption|]. exists k. split; [assumption|lia].
Qed.

Lemma state_t_fields f :
  f ∈ field_names state_t <->
  f = "sprite" \/ f = "frame" \/ f = "tics" \/ f = "action" \/ f = "nextstate".
Proof.
  change (field_names state_t)
    with ["sprite"; "frame"; "tics"; "action"; "nextstate"].
  rewrite !elem_of_cons, elem_of_nil. tauto.
Qed.

Lemma linked_setattr_link (n : nat) (st : Struct) (v : Z) :
  linked n st -> 0 <= v < Z.of_nat n ->
  linked n (setattr st "nextstate" (PInt v)).
Proof.
  intros (Ht & Hi & _) Hv. split; [now rewrite StructFacts.stype_setattr|].
  split; [now apply RecordFacts.initialised_setattr|].
  exists v. split; [|assumption].
  apply StructFacts.getattr_setattr_same. rewrite Ht.
  apply state_t_fields. tauto.
Qed.

Lemma linked_setattr_other (n : nat) (st : Struct) (f : string) (v : pyval) :
  linked n st -> f <> "nextstate" -> linked n (setattr st f v).
Proof.
  intros (Ht & Hi & k & Hk & Hr) Hf.
  split; [now rewrite StructFacts.stype_setattr|].
  split; [now apply RecordFacts.initialised_setattr|].
  exists k. split; [|assumption].
  rewrite StructFacts.getattr_setattr_other; [assumption|congruence].
Qed.

(** The loop of [copy_from] when the other instance holds a value in
    every field. *)
Lemma copy_loop_total (other : Struct) (l : list string) :
  forall s,
    (forall f, f ∈ l -> filled other f) ->
    exists s',
      for_each (fun s f => v <- getattr other f ;; Ok (setattr s f v)) l s
      = Ok s'.
Proof.
  induction l as [|f l IH]; intros s Hl; cbn [for_each]; [eauto|].
  destruct (Hl f) as [v Hv]; [apply list_elem_of_here|].
  rewrite Hv. cbn [bind]. apply IH.
  intros g Hg. apply Hl. now apply list_elem_of_further.
Qed.

Lemma copy_from_linked (n : nat) (self other : Struct) :
  stype self = state_t -> linked n other ->
  exists s', copy_from self other = Ok s' /\ linked n s' /\
             _original_values s' = _original_values self /\
             forall f, f ∈ field_names state_t ->
                       getattr s' f = getattr other f.
Proof.
  intros Hs (Ht & Hi & k & Hk & Hr). unfold copy_from.
  rewrite decide_True by congruence.
  destruct (copy_loop_total other (field_names (stype self)) self) as [s' Hs'].
  { intros f Hf. apply Hi. now rewrite Ht, <- Hs. }
  exists s'. split; [exact Hs'|].
  apply RecordFacts.copy_loop_full in Hs' as (Ht' & Ho & Hin & _);
    [|apply Forall_forall; auto].
  rewrite Hs in *.
  assert (Hget : forall f, f ∈ field_names state_t ->
                           getattr s' f = getattr other f).
  { intros f Hf. now apply Hin. }
  split; [|split; assumption].
  split; [assumption|]. split.
  - intros f Hf. rewrite Ht' in Hf. destruct (Hin f Hf) as [[v Hv] Heq].
    exists v. congruence.
  - exists k. split; [|assumption]. rewrite Hget; [assumption|].
    apply state_t_fields. tauto.
Qed.

(** An update of the state at one index of a table. *)
Lemma update_linked (n : nat) (sts : list Struct) (k : nat) (st : Struct) :
  Forall (linked n) sts -> linked n st -> Forall (linked n) (<[k := st]> sts).
Proof. intros Hall Hst. now apply Forall_insert. Qed.

Lemma state_setattr_ok (n : nat) (sts : list Struct) (i : Z) (f : string)
    (v : pyval) :
  Forall (linked n) sts -> 0 <= i < Z.of_nat (length sts) ->
  (forall st, linked n st -> linked n (setattr st f v)) ->
  exists sts',
    state_setattr sts i f v = Ok sts' /\
    Forall (linked n) sts' /\ length sts' = length sts /\
    forall k, k <> Z.to_nat i -> sts' !! k = sts !! k.
Proof.
  intros Hall Hi Hkeep. unfold state_setattr.
  destruct (py_update_in sts i (fun st => setattr st f v) Hi) as (st & Hst & ->).
  eexists. split; [reflexivity|]. split.
  - apply update_linked; [assumption|]. apply Hkeep.
    rewrite Forall_forall in Hall. apply Hall.
    eapply list_elem_of_lookup_2; eauto.
  - split; [apply length_insert|].
    intros k Hk. now apply list_lookup_insert_ne.
Qed.

Lemma state_copy_from_ok (n : nat) (sts : list Struct) (i : Z)
    (other : Struct) :
  Forall (linked n) sts -> 0 <= i < Z.of_nat (length sts) ->
  linked n other ->
  exists sts',
    state_copy_from sts i other = Ok sts' /\
    Forall (linked n) sts' /\ length sts' = length sts /\
    forall k, k <> Z.to_nat i -> sts' !! k = sts !! k.
Proof.
  intros Hall Hi Hother. unfold state_copy_from.
  destruct (py_getitem_in sts i Hi) as (st & Hst & ->). cbn [bind].
  assert (Hl : linked n st).
  { rewrite Forall_forall in Hall. apply Hall.
    eapply list_elem_of_lookup_2; eauto. }
  destruct (copy_from_linked n st other) as (s' & -> & Hs' & _);
    [apply Hl|assumption|]. cbn [bind].
  destruct (py_update_in sts i (fun _ => s') Hi) as (st0 & _ & ->).
  eexists. split; [reflexivity|]. split.
  - now apply update_linked.
  - split; [apply length_insert|].
    intros k Hk. now apply list_lookup_insert_ne.
Qed.

(** The states the constructor builds for the parser: the NULL state
    and the state of a frame. *)
Lemma null_state_linked :
  exists null, new state_t [] [] = Ok null /\ linked 1 null.
Proof.
  assert (H : exists null, new state_t [] [] = Ok null)
    by (eexists; vm_compute; reflexivity).
  destruct H as [null H]. exists null. split; [exact H|].
  split; [now apply StructFacts.new_spec in H|].
  split; [eapply StructFacts.new_initialised; eauto|].
  exists 0. split; [|lia].
  vm_compute in H. injection H as <-. reflexivity.
Qed.

Lemma frame_state_linked (sprite frame tics : Z) (action : pyval) :
  exists st,
    new state_t [] [("sprite", PInt sprite); ("frame", PInt frame);
                    ("tics", PInt tics); ("action", action)] = Ok st /\
    linked 1 st.
Proof.
  assert (H : exists st,
             new state_t [] [("sprite", PInt sprite); ("frame", PInt frame);
                             ("tics", PInt tics); ("action", action)] = Ok st)
    by (eexists; vm_compute; reflexivity).
  destruct H as [st H]. exists st. split; [exact H|].
  split; [now apply StructFacts.new_spec in H|].
  split; [eapply StructFacts.new_initialised; eauto|].
  exists 0. split; [|lia].
  vm_compute in H. injection H as <-. reflexivity.
Qed.


(** *** The attributes of the parser *)

Lemma null_first_length sts : null_first sts -> (1 <= length sts)%nat.
Proof.
  intros (null & _ & H). apply lookup_lt_Some in H. lia.
Qed.

Lemma state_index_le sts sts' i :
  (length sts <= length sts')%nat -> state_index sts i -> state_index sts' i.
Proof. unfold state_index. lia. Qed.

Lemma marker_le sts sts' i :
  (length sts <= length sts')%nat -> marker sts i -> marker sts' i.
Proof.
  intros Hle [->|Hi]; [now left|right]. eapply state_index_le; eauto.
Qed.

Lemma wf_with_lines ls n p : well_formed p -> well_formed (with_lines ls n p).
Proof. intros [H1 H2 H3 H4 H5 H6]. constructor; assumption. Qed.

(** A change of the table that keeps its first state and does not
    shorten it. *)
Lemma wf_with_states sts p :
  well_formed p ->
  Forall (linked (length sts)) sts ->
  (length (states p) <= length sts)%nat ->
  sts !! 0%nat = states p !! 0%nat ->
  well_formed (with_states sts p).
Proof.
  intros [H1 H2 H3 H4 H5 H6] Hall Hlen H0. constructor; cbn.
  - assumption.
  - unfold null_first. now rewrite H0.
  - eapply marker_le; eauto.
  - eapply marker_le; eauto.
  - intros name i Hi. eapply state_index_le; eauto.
  - eapply Forall_impl; [exact H6|].
    intros g Hg. eapply state_index_le; eauto.
Qed.

Lemma wf_with_previous i p :
  well_formed p -> marker (states p) i -> well_formed (with_previous i p).
Proof. intros [H1 H2 H3 H4 H5 H6] Hi. constructor; assumption. Qed.

Lemma wf_end_sequence gotos p :
  well_formed p ->
  Forall (fun g : Z * Z * string * Z => state_index (states p) g.1.1.2) gotos ->
  well_formed (end_sequence gotos p).
Proof.
  intros [H1 H2 H3 H4 H5 H6] Hg. constructor; cbn; try assumption; now left.
Qed.

(** *** The steps of the parser *)

Lemma matches_regexp_sound {G} (re : string -> option (G * string)) p :
  re "" = None -> well_formed p ->
  sound (fun r => well_formed r.2) (matches_regexp re p).
Proof.
  intros Hre Hp. unfold matches_regexp, next_line, more_lines.
  cbn [fst snd lines line_number with_lines].
  destruct (drop_blank (lines p) (line_number p)) as [ls n].
  cbn [fst snd]. destruct ls as [|l ls].
  - rewrite Hre. cbn. now apply wf_with_lines.
  - destruct (re l) as [[g rest]|]; cbn; now repeat apply wf_with_lines.
Qed.

Lemma parse_labels_loop_sound fuel :
  forall labels p,
    well_formed p ->
    sound (fun r => well_formed r.2) (parse_labels_loop fuel labels p).
Proof.
  induction fuel as [|fuel IH]; intros labels p Hp; cbn [parse_labels_loop];
    [exact I|].
  eapply sound_bind.
  - apply matches_regexp_sound; [reflexivity|exact Hp].
  - intros [[label|] q] Hq; cbn [fst snd] in *; [now apply IH|exact Hq].
Qed.

Lemma set_label_sound name i p :
  well_formed p -> state_index (states p) i ->
  sound (fun q => well_formed q /\ states q = states p) (set_label name i p).
Proof.
  intros [H1 H2 H3 H4 H5 H6] Hi. unfold set_label.
  case_bool_decide; [exact I|].
  assert (Hins : forall (m : gmap string Z) k,
             (forall n j, m !! n = Some j -> state_index (states p) j) ->
             forall n j, <[k := i]> m !! n = Some j ->
                         state_index (states p) j).
  { intros m k Hm n j Hj.
    apply lookup_insert_Some in Hj as [[_ <-]|[_ Hj]]; eauto. }
  match goal with
  | |- context [with_labels ?m _ _] => set (m' := m)
  end.
  assert (Hm' : forall n j, m' !! n = Some j -> state_index (states p) j).
  { unfold m'. destruct (DECORATE_NAMES !! lower name) as [doom|]; [|eauto].
    destruct (negb (String.eqb doom EmptyString) && _)%bool; eauto. }
  clearbody m'. cbn. split; [|reflexivity].
  constructor; cbn; try assumption. now right.
Qed.

Lemma link_previous_ok (n : nat) (sts : list Struct) (prev v : Z) :
  Forall (linked n) sts -> marker sts prev -> 0 <= v < Z.of_nat n ->
  exists sts',
    (if bool_decide (prev <> -1)
     then state_setattr sts prev "nextstate" (PInt v) else Ok sts) = Ok sts' /\
    Forall (linked n) sts' /\ length sts' = length sts /\
    sts' !! 0%nat = sts !! 0%nat.
Proof.
  intros Hall Hprev Hv. case_bool_decide as Hp; [|eauto].
  destruct Hprev as [->|Hi]; [congruence|]. unfold state_index in Hi.
  destruct (state_setattr_ok n sts prev "nextstate" (PInt v))
    as (sts' & -> & Hall' & Hlen & Hframe); auto; [lia| |].
  - intros st Hst. now apply linked_setattr_link.
  - exists sts'. repeat split; auto. apply Hframe. lia.
Qed.

Lemma add_state_sound order acc st :
  well_formed acc.2 -> linked 1 st ->
  sound (fun r => well_formed r.2) (add_state order acc st).
Proof.
  destruct acc as [labels p]. cbn [snd]. intros Hwf Hst.
  unfold add_state, alloc_new_state.
  destruct null_state_linked as (null & -> & Hnull).
  cbn [bind fst snd states previous_state_id with_states].
  pose proof (null_first_length _ (wf_null _ Hwf)) as Hlen.
  set (len := length (states p)) in *.
  set (sts0 := states p ++ [null]).
  assert (Hlen0 : length sts0 = S len)
    by (unfold sts0; rewrite length_app; cbn; lia).
  assert (Hall0 : Forall (linked (length sts0)) sts0).
  { unfold sts0 at 2. apply Forall_app. split.
    - eapply Forall_impl; [apply (wf_states _ Hwf)|].
      intros s Hs. eapply linked_mono; [|exact Hs]. fold len. lia.
    - constructor; [|constructor]. eapply linked_mono; [|exact Hnull]. lia. }
  destruct (state_copy_from_ok (length sts0) sts0 (Z.of_nat len) st)
    as (sts1 & -> & Hall1 & Hlen1 & Hframe1); auto; [lia| |].
  { eapply linked_mono; [|exact Hst]. lia. }
  cbn [bind].
  destruct (link_previous_ok (length sts0) sts1 (previous_state_id p)
              (Z.of_nat len))
    as (sts2 & -> & Hall2 & Hlen2 & Hframe2); auto; [| lia |].
  { eapply marker_le; [|apply (wf_previous _ Hwf)]. fold len. lia. }
  cbn [bind].
  assert (Hwf1 : well_formed (with_states sts2 (with_states sts0 p))).
  { apply wf_with_states.
    - apply wf_with_states; auto.
      + cbn. fold len. lia.
      + unfold sts0. apply lookup_app_l. fold len. lia.
    - now rewrite Hlen2, Hlen1.
    - cbn. lia.
    - cbn. rewrite Hframe2, Hframe1 by lia. reflexivity. }
  eapply sound_bind
    with (P := fun q => well_formed q /\ states q = sts2).
  - apply sound_for_each.
    + split; [|reflexivity]. apply wf_with_previous; [assumption|].
      right. cbn. unfold state_index. lia.
    + intros q label [Hq Hsts] _.
      eapply sound_impl.
      * apply set_label_sound; [assumption|].
        rewrite Hsts. unfold state_index. lia.
      * intros q' [Hq' Hsts']. split; [assumption|congruence].
  - intros q [Hq _]. exact Hq.
Qed.

Lemma frame_state_sound (sprite frame tics : Z) (action : pyval) :
  sound (linked 1)
        (new state_t [] [("sprite", PInt sprite); ("frame", PInt frame);
                         ("tics", PInt tics); ("action", action)]).
Proof.
  destruct (frame_state_linked sprite frame tics action) as (st & -> & Hst).
  exact Hst.
Qed.

Lemma construct_states_sound idx isA params :
  sound (Forall (linked 1)) (construct_states idx isA params).
Proof.
  unfold construct_states.
  eapply sound_bind with (P := fun _ => True).
  { unfold sprite_for_name. now destruct (idx _). }
  intros sprite_num _.
  eapply sound_bind with (P := fun _ => True).
  { unfold action_pointer_for_name.
    destruct (g_action params) as [[|c n]|]; try exact I.
    now destruct (isA _). }
  intros action _.
  apply sound_for_each; [constructor|].
  intros acc fr Hacc _.
  eapply sound_bind; [apply frame_state_sound|].
  intros st Hst. cbn. apply Forall_app. split; [assumption|].
  now constructor.
Qed.

Section Statements.

Variable spritenum_t_index : string -> option Z.
Variable is_Action : string -> bool.
Variable label_order : list string -> list string.

Lemma parse_frame_def_sound p :
  well_formed p ->
  sound (fun r => well_formed r.2)
        (parse_frame_def spritenum_t_index is_Action label_order p).
Proof.
  intros Hp. unfold parse_frame_def, parse_labels.
  eapply sound_bind; [now apply parse_labels_loop_sound|].
  intros [labels q] Hq. cbn [fst snd] in *.
  eapply sound_bind; [apply matches_regexp_sound; [reflexivity|exact Hq]|].
  intros [[params|] q'] Hq'; cbn [fst snd] in *; [|exact Hq'].
  eapply sound_bind; [apply construct_states_sound|].
  intros sts Hsts.
  eapply sound_bind with (P := fun a => well_formed a.2);
    [|intros a Ha; exact Ha].
  apply sound_for_each; [exact Hq'|].
  intros a st Ha Hin. apply add_state_sound; [assumption|].
  rewrite Forall_forall in Hsts. now apply Hsts.
Qed.

Lemma marker_index sts i :
  marker sts i -> i <> -1 -> 0 <= i < Z.of_nat (length sts).
Proof. intros [->|Hi] Hne; [congruence|]. unfold state_index in Hi. lia. Qed.

Lemma parse_loop_sound p :
  well_formed p -> sound (fun r => well_formed r.2) (parse_loop p).
Proof.
  intros Hp. unfold parse_loop.
  eapply sound_bind; [apply matches_regexp_sound; [reflexivity|exact Hp]|].
  intros [[[]|] q] Hq; cbn [fst snd] in *; [|exact Hq].
  case_bool_decide as Hprev; [exact I|].
  case_bool_decide as Hloop; [exact I|].
  pose proof (marker_index _ _ (wf_previous _ Hq) Hprev) as Hi.
  pose proof (marker_index _ _ (wf_loop _ Hq) Hloop) as Hj.
  destruct (state_setattr_ok (length (states q)) (states q)
              (previous_state_id q) "nextstate" (PInt (loop_start_id q)))
    as (sts & -> & Hall & Hlen & Hframe); auto; [apply (wf_states _ Hq)| |].
  { intros st Hst. now apply linked_setattr_link. }
  cbn. apply wf_end_sequence.
  - apply wf_with_states; auto; [now rewrite Hlen|lia|].
    apply Hframe. destruct (wf_previous _ Hq) as [?|Hs]; [congruence|].
    unfold state_index in Hs. lia.
  - cbn. eapply Forall_impl; [apply (wf_gotos _ Hq)|].
    intros g Hg. eapply state_index_le; [|exact Hg]. lia.
Qed.

Lemma parse_stop_sound p :
  well_formed p -> sound (fun r => well_formed r.2) (parse_stop p).
Proof.
  intros Hp. unfold parse_stop.
  eapply sound_bind; [apply matches_regexp_sound; [reflexivity|exact Hp]|].
  intros [[[]|] q] Hq; cbn [fst snd] in *; [|exact Hq].
  case_bool_decide as Hprev; [exact I|].
  pose proof (marker_index _ _ (wf_previous _ Hq) Hprev) as Hi.
  pose proof (null_first_length _ (wf_null _ Hq)) as Hone.
  destruct (state_setattr_ok (length (states q)) (states q)
              (previous_state_id q) "tics" (PInt (-1)))
    as (sts & -> & Hall & Hlen & Hframe); auto; [apply (wf_states _ Hq)| |].
  { intros st Hst. now apply linked_setattr_other. }
  cbn [bind].
  destruct (state_setattr_ok (length (states q)) sts
              (previous_state_id q) "nextstate" (PInt 0))
    as (sts' & -> & Hall' & Hlen' & Hframe'); auto; [lia| |].
  { intros st Hst. apply linked_setattr_link; [assumption|lia]. }
  cbn. apply wf_end_sequence.
  - apply wf_with_states; auto; [now rewrite Hlen', Hlen|lia|].
    assert (0%nat <> Z.to_nat (previous_state_id q)).
    { destruct (wf_previous _ Hq) as [?|Hs]; [congruence|].
      unfold state_index in Hs. lia. }
    now rewrite Hframe', Hframe.
  - cbn. eapply Forall_impl; [apply (wf_gotos _ Hq)|].
    intros g Hg. eapply state_index_le; [|exact Hg]. lia.
Qed.

Lemma parse_goto_sound p :
  well_formed p -> sound (fun r => well_formed r.2) (parse_goto p).
Proof.
  intros Hp. unfold parse_goto.
  eapply sound_bind; [apply matches_regexp_sound; [reflexivity|exact Hp]|].
  intros [[params|] q] Hq; cbn [fst snd] in *; [|exact Hq].
  case_bool_decide as Hprev; [exact I|].
  cbn. apply wf_end_sequence; [assumption|].
  apply Forall_app. split; [apply (wf_gotos _ Hq)|].
  constructor; [|constructor]. cbn.
  destruct (wf_previous _ Hq) as [?|Hs]; [congruence|assumption].
Qed.

Lemma parse_while_sound fuel :
  forall p,
    well_formed p ->
    sound well_formed
          (parse_while spritenum_t_index is_Action label_order fuel p).
Proof.
  induction fuel as [|fuel IH]; intros p Hp; cbn [parse_while]; [exact I|].
  assert (Hm : well_formed (more_lines p).2)
    by (unfold more_lines; cbn [snd]; now apply wf_with_lines).
  destruct (more_lines p).1; [|exact Hm].
  eapply sound_bind; [now apply parse_frame_def_sound|].
  intros [[|] a] Ha; cbn [fst snd] in *; [now apply IH|].
  eapply sound_bind; [now apply parse_loop_sound|].
  intros [[|] b] Hb; cbn [fst snd] in *; [now apply IH|].
  eapply sound_bind; [now apply parse_goto_sound|].
  intros [[|] c] Hc; cbn [fst snd] in *; [now apply IH|].
  eapply sound_bind; [now apply parse_stop_sound|].
  intros [[|] d] Hd; cbn [fst snd] in *; [now apply IH|exact I].
Qed.

(** A goto is resolved to an index of the table: every hop follows a
    link, and no link is -1. *)
Lemma resolve_goto_sound p line label offset :
  well_formed p ->
  sound (fun v => exists n, v = PInt n /\
                            0 <= n < Z.of_nat (length (states p)))
        (resolve_goto p line label offset).
Proof.
  intros Hp. unfold resolve_goto.
  destruct (state_labels p !! label) as [i|] eqn:Hl; [|exact I].
  apply sound_for_each.
  - exists i. split; [reflexivity|].
    pose proof (wf_labels _ Hp _ _ Hl) as Hi. unfold state_index in Hi. lia.
  - intros v [] (n & -> & Hn) _. unfold goto_hop. cbn [py_index bind].
    destruct (py_getitem_in (states p) n Hn) as (st & Hst & ->). cbn [bind].
    pose proof (wf_states _ Hp) as Hall. rewrite Forall_forall in Hall.
    destruct (Hall st) as (_ & _ & k & -> & Hk);
      [eapply list_elem_of_lookup_2; eauto|].
    cbn [bind]. destruct (decide (PInt k = PInt (-1))) as [E|_].
    + injection E as ->. lia.
    + cbn. eauto.
Qed.

Lemma apply_gotos_sound p :
  well_formed p -> sound well_formed (apply_gotos p).
Proof.
  intros Hp. unfold apply_gotos.
  eapply sound_impl
    with (P := fun q => well_formed q /\
                        length (states q) = length (states p));
    [|now intros q [Hq _]].
  pose proof (wf_gotos _ Hp) as Hg. rewrite Forall_forall in Hg.
  apply sound_for_each; [now split|].
  intros q [[[line sid] label] offset] [Hq Hlen] Hin.
  pose proof (Hg _ Hin) as Hsid. cbn [fst snd] in Hsid.
  unfold state_index in Hsid.
  eapply sound_bind; [now apply resolve_goto_sound|].
  intros v (n & -> & Hn).
  destruct (state_setattr_ok (length (states q)) (states q) sid
              "nextstate" (PInt n))
    as (sts & -> & Hall & Hlen' & Hframe); auto;
    [apply (wf_states _ Hq)|lia| |].
  { intros st Hst. now apply linked_setattr_link. }
  cbn. split; [|congruence].
  apply wf_with_states; auto; [now rewrite Hlen'|lia|].
  apply Hframe. lia.
Qed.

Lemma parse_sound defstr :
  sound well_linked (parse spritenum_t_index is_Action label_order defstr).
Proof.
  unfold parse, _Parser_init.
  destruct null_state_linked as (null & Hnew & Hnull). rewrite Hnew.
  cbn [bind].
  eapply sound_bind with (P := well_formed).
  - unfold _Parser_parse.
    eapply sound_bind with (P := well_formed).
    + apply parse_while_sound. constructor; cbn.
      * now constructor.
      * now exists null.
      * now left.
      * now left.
      * intros name i Hi. now rewrite lookup_empty in Hi.
      * constructor.
    + intros p1 Hp1. case_bool_decide; [exact I|now apply apply_gotos_sound].
  - intros q Hq. cbn. split; [apply (wf_null _ Hq)|].
    split; [apply (wf_states _ Hq)|apply (wf_labels _ Hq)].
Qed.

End Statements.

(** X10. Whatever the registries and the order in which sets are
    enumerated, the list of states [parse] returns starts with the
    NULL state as [state_t()] builds it, every state of the list is
    an initialised [state_t] whose link is an index of the list, and
    every label is bound to the index of a state after the first. *)
Theorem parse_result_well_linked
    (spritenum_t_index : string -> option Z) (is_Action : string -> bool)
    (label_order : list string -> list string) (defstr : string)
    (sts : list Struct) (labels : gmap string Z) :
  parse spritenum_t_index is_Action label_order defstr = Ok (sts, labels) ->
  null_first sts /\
  Forall (linked (length sts)) sts /\
  (forall name i, labels !! name = Some i ->
                  1 <= i < Z.of_nat (length sts)).
Proof.
  intros H.
  pose proof (parse_sound spritenum_t_index is_Action label_order defstr) as Hs.
  rewrite H in Hs. exact Hs.
Qed.

Lemma parse_result_well_linked_witness :
  null_first (parsed two_label_input).1 /\
  Forall (linked (length (parsed two_label_input).1))
         (parsed two_label_input).1 /\
  (forall name i, (parsed two_label_input).2 !! name = Some i ->
                  1 <= i < Z.of_nat (length (parsed two_label_input).1)).
Proof.
  apply (parse_result_well_linked imp_sprites imp_actions insertion_order
           two_label_input).
  vm_compute. reflexivity.
Defined.

(** X11. On every text, [parse] returns or raises, and what it
    raises is a [StatesParseException]: no look-up in the list of
    states, the labels or the fields of a state fails. The exception
    is never the one for a goto offset longer than the sequence. *)
Theorem parse_raises_only_parse_errors
    (spritenum_t_index : string -> option Z) (is_Action : string -> bool)
    (label_order : list string -> list string) (defstr : string) :
  parse spritenum_t_index is_Action label_order defstr <> OutOfFuel /\
  (forall e,
      parse spritenum_t_index is_Action label_order defstr = Raise e ->
      exists line msg,
        e = StatesParseException line msg /\
        forall label offset, msg <> GotoOffsetTooLong label offset).
Proof.
  split; [apply Termination.parse_total|].
  intros e H.
  pose proof (parse_sound spritenum_t_index is_Action label_order defstr) as Hs.
  rewrite H in Hs. cbn in Hs.
  destruct e as [| | | | | |line msg|]; try contradiction.
  exists line, msg. split; [reflexivity|].
  intros label offset ->. exact Hs.
Qed.

End SafetyFacts.

(** ** The remapper on well-formed tables *)

Module RemapSafety.
Import C StatesParser StructSpec ParserSpec RemapSpec LinkSpec.

(** *** What the copying loop writes *)

(** One turn of the copying loop: the state written keeps the class
    and the remembered arguments of the state it replaces and takes
    every field but the link from the source. *)
Lemma copy_state_fields old table new k new1 x :
  copy_state old table new k = Ok new1 ->
  table !! k = Some x -> 0 <= x ->
  exists src dst0 dst,
    old !! k = Some src /\
    new !! Z.to_nat x = Some dst0 /\
    new1 = <[Z.to_nat x := dst]> new /\
    stype dst = stype dst0 /\
    _original_values dst = _original_values dst0 /\
    (forall f, f ∈ field_names (stype dst0) -> f <> "nextstate" ->
               getattr dst f = getattr src f).
Proof.
  unfold copy_state. intros H Hx Hpos.
  apply bind_Ok in H as (new_id & Hid & H).
  apply RemapFacts.py_getitem_nat in Hid.
  assert (new_id = x) as -> by congruence.
  apply bind_Ok in H as (src & Hsrc & H).
  apply RemapFacts.py_getitem_nat in Hsrc.
  apply bind_Ok in H as (newA & Hcopy & H).
  unfold state_copy_from in Hcopy.
  apply bind_Ok in Hcopy as (st & Hst & Hcopy).
  apply bind_Ok in Hcopy as (st' & Hst' & Hupd).
  apply RemapFacts.py_getitem_nonneg in Hst; [|assumption].
  apply RemapFacts.py_update_nonneg in Hupd as (st0 & _ & ->); [|assumption].
  pose proof (lookup_lt_Some _ _ _ Hst) as Hlt.
  unfold copy_from in Hst'.
  destruct (decide (stype st = stype src)) as [Hty|]; [|discriminate].
  apply RecordFacts.copy_loop_full in Hst' as (Ht & Ho & Hin & _);
    [|apply Forall_forall; auto].
  apply bind_Ok in H as (dst1 & Hdst & H).
  apply RemapFacts.py_getitem_nonneg in Hdst; [|assumption].
  rewrite list_lookup_insert_eq in Hdst by assumption. injection Hdst as <-.
  apply bind_Ok in H as (link & Hlink & H).
  exists src, st. destruct (decide (link <> PInt (-1))).
  - apply bind_Ok in H as (i & Hi & H).
    apply bind_Ok in H as (target & Htarget & H).
    unfold state_setattr in H.
    apply RemapFacts.py_update_nonneg in H as (d & Hd & ->); [|assumption].
    rewrite list_lookup_insert_eq in Hd by assumption. injection Hd as <-.
    rewrite list_insert_insert_eq.
    exists (setattr st' "nextstate" (PInt target)).
    split; [assumption|]. split; [assumption|]. split; [reflexivity|].
    split; [now rewrite StructFacts.stype_setattr|].
    split; [now rewrite StructFacts.original_values_setattr|].
    intros f Hf Hne.
    rewrite StructFacts.getattr_setattr_other by assumption. now apply Hin.
  - injection H as <-. exists st'.
    split; [assumption|]. split; [assumption|]. split; [reflexivity|].
    split; [assumption|]. split; [assumption|].
    intros f Hf _. now apply Hin.
Qed.

(** The loop over the source indices [k], ..., [k + m - 1], when the
    table sends them to slots that are not negative and differ. *)
Lemma copy_loop_slots old table m :
  forall k new new',
    for_each (copy_state old table) (seq k m) new = Ok new' ->
    (forall j x, (k <= j < k + m)%nat -> table !! j = Some x -> 0 <= x) ->
    (forall j j' x, (k <= j < k + m)%nat -> (k <= j' < k + m)%nat ->
                    table !! j = Some x -> table !! j' = Some x -> j = j') ->
    forall j, (k <= j < k + m)%nat ->
      exists x src dst0 dst,
        table !! j = Some x /\ old !! j = Some src /\
        new !! Z.to_nat x = Some dst0 /\
        new' !! Z.to_nat x = Some dst /\
        stype dst = stype dst0 /\
        _original_values dst = _original_values dst0 /\
        (forall f, f ∈ field_names (stype dst0) -> f <> "nextstate" ->
                   getattr dst f = getattr src f).
Proof.
  induction m as [|m IH]; intros k new new' H Hpos Hinj j Hj;
    cbn [seq for_each] in H; [lia|].
  apply bind_Ok in H as (new1 & Hstep & Hrest).
  destruct (RemapFacts.copy_state_slot _ _ _ _ _ Hstep) as [xk Hxk].
  assert (Hxk0 : 0 <= xk) by (apply (Hpos k); [lia|assumption]).
  destruct (copy_state_fields _ _ _ _ _ _ Hstep Hxk Hxk0)
    as (src & dst0 & dst & Hsrc & Hdst0 & -> & Hty & Ho & Hf).
  pose proof (lookup_lt_Some _ _ _ Hdst0) as Hlt.
  assert (Hpos' : forall j x, (S k <= j < S k + m)%nat ->
                              table !! j = Some x -> 0 <= x).
  { intros i x Hi. apply Hpos. lia. }
  assert (Hinj' : forall j j' x, (S k <= j < S k + m)%nat ->
                                 (S k <= j' < S k + m)%nat ->
                                 table !! j = Some x -> table !! j' = Some x ->
                                 j = j').
  { intros i i' x Hi Hi'. apply Hinj; lia. }
  destruct (decide (j = k)) as [->|Hne].
  - exists xk, src, dst0, dst. repeat split; auto.
    destruct (RemapFacts.copy_loop _ _ _ _ _ _ Hrest Hpos' Hinj')
      as (_ & Hframe & _).
    rewrite Hframe.
    + now apply list_lookup_insert_eq.
    + intros i x' Hi Hx' Heq.
      assert (0 <= x') by (apply (Hpos i); [lia|assumption]).
      assert (x' = xk) as -> by lia.
      assert (i = k) by (apply (Hinj i k xk); auto; lia). lia.
  - destruct (IH _ _ _ Hrest Hpos' Hinj' j)
      as (x & src' & d0 & d & Hx & Hs & Hd0 & Hd & Hrest'); [lia|].
    exists x, src', d0, d. repeat split; try tauto.
    rewrite list_lookup_insert_ne in Hd0; [assumption|].
    intros Heq.
    assert (0 <= x) by (apply (Hpos j); [lia|assumption]).
    assert (x = xk) as -> by lia.
    assert (j = k) by (apply (Hinj j k xk); auto; lia). lia.
Qed.

(** The table of a successful call on a pool of distinct indices
    that are not negative. *)
Lemma remap_table pop_choice old new pool table new' pool' :
  NoDup pool -> Forall (fun i => 0 <= i) pool ->
  remap_states pop_choice old new pool = Ok (table, new', pool') ->
  for_each (copy_state old table) (seq 1 (length old - 1)) new = Ok new' /\
  length table = length old /\
  (forall j x, (1 <= j)%nat -> table !! j = Some x ->
               x ∈ pool /\ (x ∉ pool') /\ 0 <= x /\ x ∈ drop 1 table) /\
  (forall j j' x, (1 <= j)%nat -> (1 <= j')%nat ->
                  table !! j = Some x -> table !! j' = Some x -> j = j') /\
  (forall x, x ∈ drop 1 table ->
             exists j, (1 <= j)%nat /\ table !! j = Some x) /\
  (old <> [] -> table !! 0%nat = Some 0).
Proof.
  intros Hnd Hpos H.
  apply RemapFacts.remap_states_inv in H as [Hg Hcopy].
  apply RemapFacts.generate_spec in Hg
    as (capable & plain & acts & ids & _ & _ & Hn & Htab & _ & Hperm).
  split; [exact Hcopy|].
  assert (Hnd' : NoDup (ids ++ pool')) by now rewrite <- Hperm.
  apply NoDup_app in Hnd' as (Hnd_ids & Hdisj & _).
  destruct old as [|st0 old].
  - subst table. cbn. split; [reflexivity|].
    split; [intros j x _ Hx; now rewrite lookup_nil in Hx|].
    split; [intros j j' x _ _ Hx; now rewrite lookup_nil in Hx|].
    split; [|congruence].
    intros x Hx. now apply elem_of_nil in Hx.
  - subst table. cbn [length tail drop] in *.
    split; [now rewrite Hn|].
    assert (Hids : forall i x, (1 <= i)%nat -> (0 :: ids) !! i = Some x ->
                               ids !! (i - 1)%nat = Some x).
    { intros i x Hi. destruct i as [|i]; [lia|].
      cbn. now rewrite Nat.sub_0_r. }
    split; [|split].
    + intros j x Hj Hx. apply Hids in Hx; [|assumption].
      assert (Hin : x ∈ ids) by (eapply list_elem_of_lookup_2; eauto).
      assert (Hp : x ∈ pool) by (rewrite Hperm; apply elem_of_app; now left).
      split; [assumption|]. split; [now apply Hdisj|].
      split; [|assumption].
      rewrite Forall_forall in Hpos. now apply Hpos.
    + intros j j' x Hj Hj' Hx Hx'.
      apply Hids in Hx; [|assumption]. apply Hids in Hx'; [|assumption].
      pose proof (NoDup_lookup _ _ _ _ Hnd_ids Hx Hx'). lia.
    + split; [|reflexivity].
      intros x Hx. apply list_elem_of_lookup in Hx as [i Hi].
      exists (S i). split; [lia|exact Hi].
Qed.


(** X12. On a pool of distinct indices that are not negative, a
    successful [remap_states] leaves the destination with its length,
    writes no slot but those it assigned, and writes into the slot of
    each source state after the first a state that keeps the class
    and the original of the state it replaces and has every field
    but the link equal to that of the source state. *)
Theorem remap_writes_assigned_slots
    (pop_choice : list Z -> nat) (old new : list Struct) (pool : list Z)
    (table : list Z) (new' : list Struct) (pool' : list Z) :
  NoDup pool ->
  Forall (fun i => 0 <= i) pool ->
  remap_states pop_choice old new pool = Ok (table, new', pool') ->
  length new' = length new /\
  (forall n, Z.of_nat n ∉ drop 1 table -> new' !! n = new !! n) /\
  (forall j src,
      (1 <= j)%nat -> old !! j = Some src ->
      exists x dst0 dst,
        table !! j = Some x /\ x ∈ pool /\
        new !! Z.to_nat x = Some dst0 /\
        new' !! Z.to_nat x = Some dst /\
        stype dst = stype dst0 /\
        original dst = original dst0 /\
        (forall f, f ∈ field_names (stype dst0) -> f <> "nextstate" ->
                   getattr dst f = getattr src f)).
Proof.
  intros Hnd Hpos H.
  destruct (remap_table _ _ _ _ _ _ _ Hnd Hpos H)
    as (Hcopy & Hlen & Hslots & Hinj & Hdrop).
  assert (Hpos1 : forall j x, (1 <= j < 1 + (length old - 1))%nat ->
                              table !! j = Some x -> 0 <= x).
  { intros j x Hj Hx. now apply (Hslots j x). }
  assert (Hinj1 : forall j j' x, (1 <= j < 1 + (length old - 1))%nat ->
                                 (1 <= j' < 1 + (length old - 1))%nat ->
                                 table !! j = Some x -> table !! j' = Some x ->
                                 j = j').
  { intros j j' x Hj Hj'. apply Hinj; lia. }
  destruct (RemapFacts.copy_loop _ _ _ _ _ _ Hcopy Hpos1 Hinj1)
    as (Hlen' & Hframe & _).
  split; [exact Hlen'|]. split.
  - intros n Hn. apply Hframe. intros j x Hj Hx Heq.
    destruct (Hslots j x) as (_ & _ & Hx0 & Hin); [lia|assumption|].
    apply Hn. now replace (Z.of_nat n) with x by lia.
  - intros j src Hj Hsrc.
    pose proof (lookup_lt_Some _ _ _ Hsrc) as Hlt.
    destruct (copy_loop_slots _ _ _ _ _ _ Hcopy Hpos1 Hinj1 j)
      as (x & src' & dst0 & dst & Hx & Hs & Hd0 & Hd & Hty & Ho & Hf); [lia|].
    assert (src' = src) as -> by congruence.
    exists x, dst0, dst. split; [assumption|].
    split; [now apply (Hslots j x)|].
    split; [assumption|]. split; [assumption|]. split; [assumption|].
    split; [|assumption].
    unfold original. now rewrite Hty, Ho.
Qed.

Lemma remap_writes_assigned_slots_witness :
  length (table_after two_state_source small_table [3; 1])
  = length small_table /\
  (forall n, Z.of_nat n ∉ drop 1 [0; 1; 3] ->
             table_after two_state_source small_table [3; 1] !! n
             = small_table !! n) /\
  (forall j src,
      (1 <= j)%nat -> two_state_source !! j = Some src ->
      exists x dst0 dst,
        [0; 1; 3] !! j = Some x /\ x ∈ [3; 1] /\
        small_table !! Z.to_nat x = Some dst0 /\
        table_after two_state_source small_table [3; 1] !! Z.to_nat x
        = Some dst /\
        stype dst = stype dst0 /\
        original dst = original dst0 /\
        (forall f, f ∈ field_names (stype dst0) -> f <> "nextstate" ->
                   getattr dst f = getattr src f)).
Proof.
  apply (remap_writes_assigned_slots pop_first two_state_source small_table
           [3; 1] [0; 1; 3]
           (table_after two_state_source small_table [3; 1]) []).
  - apply (bool_decide_unpack (NoDup [3; 1])). vm_compute. exact I.
  - repeat constructor; lia.
  - vm_compute. reflexivity.
Defined.

(** *** When the remapper returns *)

Lemma set_pop_total pop_choice (s : list Z) :
  s <> [] -> exists x s', set_pop pop_choice s = Ok (x, s').
Proof.
  intros Hs. unfold set_pop. destruct s as [|y s]; [congruence|].
  set (i := (pop_choice (y :: s) mod length (y :: s))%nat).
  destruct (lookup_lt_is_Some_2 (y :: s) i) as [x Hx].
  { unfold i. apply Nat.mod_upper_bound. cbn. lia. }
  rewrite Hx. eauto.
Qed.

Lemma list_remove_total (x : Z) (l : list Z) :
  x ∈ l -> exists l', list_remove x l = Ok l'.
Proof.
  induction l as [|y l IH]; intros Hx; [now apply elem_of_nil in Hx|].
  cbn. destruct (decide (x = y)); [eauto|].
  apply elem_of_cons in Hx as [|Hx]; [congruence|].
  destruct (IH Hx) as [l' ->]. cbn. eauto.
Qed.

Lemma take_slot_total pop_choice b a :
  alloc_action a ++ alloc_non_action a <> [] ->
  exists x c' p', take_slot pop_choice b a = Ok (x, c', p').
Proof.
  intros Hne. unfold take_slot.
  destruct (alloc_action a) as [|y s] eqn:Ea;
    destruct (alloc_non_action a) as [|z t] eqn:En;
    [now cbn in Hne| | |]; destruct b; cbn [length Nat.ltb Nat.leb];
    match goal with
    | |- context [set_pop pop_choice ?l] =>
        destruct (set_pop_total pop_choice l) as (x & s' & ->);
        [discriminate|cbn; eauto]
    end.
Qed.

Lemma take_slot_permutation pop_choice b a x c' p' :
  take_slot pop_choice b a = Ok (x, c', p') ->
  alloc_action a ++ alloc_non_action a ≡ₚ x :: c' ++ p'.
Proof.
  intros H.
  destruct (RemapFacts.take_slot_step _ _ _ _ _ _ H)
    as [(_ & Hp & ->)|[(_ & -> & -> & Hp)|[(_ & Hp & ->)|(_ & -> & -> & Hp)]]].
  - now rewrite Hp.
  - exact Hp.
  - rewrite Hp. symmetry. apply Permutation_middle.
  - rewrite !app_nil_r. exact Hp.
Qed.

(** The assigning loop returns when there are slots enough. *)
Lemma assign_total pop_choice old m :
  forall k a,
    (k + m <= length old)%nat ->
    Forall (fun st => filled st "action") old ->
    alloc_action a ++ alloc_non_action a ≡ₚ alloc_states a ->
    (m <= length (alloc_states a))%nat ->
    exists a', for_each (assign pop_choice old) (seq k m) a = Ok a'.
Proof.
  induction m as [|m IH]; intros k a Hk Hold Hperm Hm; cbn [seq for_each];
    [eauto|].
  destruct (lookup_lt_is_Some_2 old k) as [st Hst]; [lia|].
  rewrite Forall_forall in Hold.
  destruct (Hold st) as [act Hact]; [eapply list_elem_of_lookup_2; eauto|].
  unfold assign at 1.
  rewrite (RemapFacts.py_getitem_lookup _ _ _ Hst). cbn [bind].
  rewrite Hact. cbn [bind].
  destruct (take_slot_total pop_choice (is_not_None act) a)
    as (x & c' & p' & Hslot).
  { intros E. apply (f_equal length) in E.
    rewrite (Permutation_length Hperm) in E. cbn in E. lia. }
  rewrite Hslot. cbn [bind fst snd].
  pose proof (take_slot_permutation _ _ _ _ _ _ Hslot) as Hp.
  destruct (list_remove_total x (alloc_states a)) as [pool1 Hrem].
  { rewrite <- Hperm, Hp. apply list_elem_of_here. }
  rewrite Hrem. cbn [bind].
  apply RemapFacts.list_remove_permutation in Hrem.
  apply IH; cbn [alloc_action alloc_non_action alloc_states].
  - lia.
  - now apply Forall_forall.
  - apply (Permutation_cons_inv (a := x)). now rewrite <- Hp, Hperm.
  - apply Permutation_length in Hrem. cbn in Hrem. lia.
Qed.

(** The sorting loop returns on slots that are ready, and on
    distinct slots it sorts each into one of the two sets. *)
Lemma categorize_total new (l : list Z) :
  forall sets,
    Forall (slot_ready new) l -> NoDup l ->
    (forall x, x ∈ l -> x ∉ (sets.1 ++ sets.2)) ->
    exists sets',
      for_each
        (fun sets state_id =>
           st <- py_getitem new state_id ;;
           orig <- original st ;;
           act <- getattr orig "action" ;;
           Ok (if is_not_None act then (set_add state_id sets.1, sets.2)
               else (sets.1, set_add state_id sets.2)))
        l sets = Ok sets' /\
      sets'.1 ++ sets'.2 ≡ₚ sets.1 ++ sets.2 ++ l.
Proof.
  induction l as [|y l IH]; intros sets Hready Hnd Hfresh; cbn [for_each].
  - exists sets. split; [reflexivity|]. now rewrite !app_nil_r.
  - inversion Hready as [|? ? (Hy0 & st & o & Hst & Hty & Ho) Hready']; subst.
    apply NoDup_cons in Hnd as [Hy Hnd].
    pose proof (lookup_lt_Some _ _ _ Hst) as Hlt.
    destruct (SafetyFacts.py_getitem_in new y) as (st' & Hst' & ->); [lia|].
    assert (st' = st) as -> by congruence. cbn [bind].
    rewrite Ho. cbn [bind].
    assert (Hact : filled o "action").
    { unfold original in Ho.
      destruct (_original_values st) as [args kwargs].
      pose proof (StructFacts.new_initialised _ _ _ _ Ho) as Hinit.
      apply StructFacts.new_spec in Ho as (Hto & _).
      apply Hinit. rewrite Hto, Hty. apply SafetyFacts.state_t_fields. tauto. }
    destruct Hact as [act ->]. cbn [bind].
    assert (Hy' : (y ∉ sets.1) /\ (y ∉ sets.2)).
    { assert (Hin : y ∈ y :: l) by apply list_elem_of_here.
      apply Hfresh in Hin. rewrite elem_of_app in Hin. tauto. }
    destruct Hy' as [Hy1 Hy2].
    set (sets1 := if is_not_None act
                  then (set_add y sets.1, sets.2)
                  else (sets.1, set_add y sets.2)).
    assert (Hsets1 : sets1.1 ++ sets1.2 ≡ₚ y :: sets.1 ++ sets.2).
    { unfold sets1, set_add. destruct (is_not_None act); cbn [fst snd].
      - rewrite bool_decide_eq_false_2 by assumption.
        rewrite <- app_assoc. cbn. symmetry. apply Permutation_middle.
      - rewrite bool_decide_eq_false_2 by assumption.
        rewrite app_assoc. symmetry. apply Permutation_cons_append. }
    destruct (IH sets1) as (sets' & Hloop & Hperm); auto.
    { intros x Hx Hin.
      assert (Hin' : x ∈ y :: sets.1 ++ sets.2) by now rewrite <- Hsets1.
      apply elem_of_cons in Hin' as [->|Hin']; [contradiction|].
      apply (Hfresh x); [now apply list_elem_of_further|assumption]. }
    exists sets'. split; [exact Hloop|].
    rewrite Hperm, app_assoc, Hsets1. cbn.
    rewrite !app_assoc. apply Permutation_middle.
Qed.

Lemma generate_total pop_choice old new pool :
  NoDup pool -> Forall (slot_ready new) pool ->
  Forall (fun st => filled st "action") old ->
  (length old - 1 <= length pool)%nat ->
  exists table pool',
    _generate_old_to_new pop_choice old new pool = Ok (table, pool').
Proof.
  intros Hnd Hready Hold Hcap. unfold _generate_old_to_new.
  destruct (Z.of_nat (length old) - 1 >? Z.of_nat (length pool)) eqn:E; [lia|].
  unfold categorize.
  destruct (categorize_total new pool ([], [])) as (sets & -> & Hperm); auto.
  { intros x _ Hx. now apply elem_of_nil in Hx. }
  cbn [bind app fst snd] in *.
  destruct old as [|st0 old].
  - cbn. eauto.
  - destruct (assign_total pop_choice (st0 :: old) (length (st0 :: old) - 1) 1
                {| alloc_action := sets.1; alloc_non_action := sets.2;
                   old_to_new := replicate (length (st0 :: old)) 0;
                   alloc_states := pool |}) as [a ->]; auto.
    + cbn. lia.
    + cbn. eauto.
Qed.

(** One turn of the copying loop returns when the slot holds a
    [state_t] and the links of the source are indices of it. *)
Lemma copy_state_total old table cur k x :
  Forall (linked (length old)) old -> length table = length old ->
  (k < length old)%nat -> table !! k = Some x -> 0 <= x ->
  (exists st, cur !! Z.to_nat x = Some st /\ stype st = state_t) ->
  exists cur', copy_state old table cur k = Ok cur'.
Proof.
  intros Hold Hlen Hk Hx Hx0 (st & Hst & Hty). unfold copy_state.
  rewrite (RemapFacts.py_getitem_lookup _ _ _ Hx). cbn [bind].
  destruct (lookup_lt_is_Some_2 old k) as [src Hsrc]; [lia|].
  rewrite (RemapFacts.py_getitem_lookup _ _ _ Hsrc). cbn [bind].
  assert (Hlinked : linked (length old) src).
  { rewrite Forall_forall in Hold. apply Hold.
    eapply list_elem_of_lookup_2; eauto. }
  pose proof (lookup_lt_Some _ _ _ Hst) as Hlt.
  assert (Hin : 0 <= x < Z.of_nat (length cur)) by lia.
  unfold state_copy_from.
  destruct (SafetyFacts.py_getitem_in cur x Hin) as (st' & Hst' & ->).
  assert (st' = st) as -> by congruence. cbn [bind].
  destruct (SafetyFacts.copy_from_linked (length old) st src Hty Hlinked)
    as (s' & -> & (_ & _ & n & Hn & Hrange) & _). cbn [bind].
  destruct (SafetyFacts.py_update_in cur x (fun _ => s') Hin) as (? & _ & ->).
  cbn [bind].
  set (cur1 := <[Z.to_nat x := s']> cur).
  assert (Hin1 : 0 <= x < Z.of_nat (length cur1))
    by (unfold cur1; rewrite length_insert; lia).
  destruct (SafetyFacts.py_getitem_in cur1 x Hin1) as (d & Hd & ->).
  unfold cur1 in Hd. rewrite list_lookup_insert_eq in Hd by lia.
  injection Hd as <-. cbn [bind]. rewrite Hn. cbn [bind].
  rewrite decide_True by (intros [= ->]; lia).
  cbn [py_index bind].
  destruct (SafetyFacts.py_getitem_in table n) as (target & _ & ->); [lia|].
  cbn [bind]. unfold state_setattr.
  destruct (SafetyFacts.py_update_in cur1 x
              (fun st => setattr st "nextstate" (PInt target)) Hin1)
    as (? & _ & ->).
  eauto.
Qed.

Lemma copy_total old table m :
  forall k cur,
    Forall (linked (length old)) old -> length table = length old ->
    (k + m <= length old)%nat ->
    (forall j x, (k <= j < k + m)%nat -> table !! j = Some x ->
                 0 <= x /\
                 exists st, cur !! Z.to_nat x = Some st /\ stype st = state_t) ->
    exists cur', for_each (copy_state old table) (seq k m) cur = Ok cur'.
Proof.
  induction m as [|m IH]; intros k cur Hold Hlen Hk Hslots; cbn [seq for_each];
    [eauto|].
  destruct (lookup_lt_is_Some_2 table k) as [x Hx]; [lia|].
  destruct (Hslots k x) as (Hx0 & Hst); [lia|assumption|].
  destruct (copy_state_total old table cur k x) as [cur1 Hstep]; auto; [lia|].
  rewrite Hstep. cbn [bind].
  destruct (copy_state_fields _ _ _ _ _ _ Hstep Hx Hx0)
    as (src & dst0 & dst & _ & Hdst0 & -> & Hty & _).
  destruct Hst as (st & Hst & Hst_ty).
  assert (dst0 = st) as -> by congruence.
  pose proof (lookup_lt_Some _ _ _ Hdst0) as Hlt.
  apply IH; auto; [lia|].
  intros j y Hj Hy. destruct (Hslots j y) as (Hy0 & sy & Hsy & Hsy_ty);
    [lia|assumption|].
  split; [assumption|].
  destruct (decide (Z.to_nat y = Z.to_nat x)) as [->|Hne].
  - exists dst. rewrite list_lookup_insert_eq by assumption.
    split; [reflexivity|congruence].
  - exists sy. now rewrite list_lookup_insert_ne by congruence.
Qed.

Lemma linked_action n st : linked n st -> filled st "action".
Proof.
  intros (Hty & Hinit & _). apply Hinit. rewrite Hty.
  apply SafetyFacts.state_t_fields. tauto.
Qed.

(** [remap_states] returns on a well-linked source when the pool has
    distinct ready slots enough. *)
Lemma remap_total pop_choice old new pool :
  Forall (linked (length old)) old ->
  NoDup pool -> Forall (slot_ready new) pool ->
  (length old - 1 <= length pool)%nat ->
  exists table new' pool',
    remap_states pop_choice old new pool = Ok (table, new', pool').
Proof.
  intros Hold Hnd Hready Hcap. unfold remap_states.
  destruct (generate_total pop_choice old new pool) as (table & pool' & Hg);
    auto.
  { eapply Forall_impl; [exact Hold|]. intros st. apply linked_action. }
  rewrite Hg. cbn [bind fst snd].
  apply RemapFacts.generate_spec in Hg
    as (capable & plain & acts & ids & _ & _ & Hn & Htab & _ & Hperm).
  destruct old as [|st0 old].
  - cbn. eauto.
  - cbn [length tail] in *.
    destruct (copy_total (st0 :: old) table (length old) 1 new)
      as [new' Hcopy]; auto.
    + subst table. cbn. now rewrite Hn.
    + intros j x Hj Hx. subst table. destruct j as [|j]; [lia|]. cbn in Hx.
      assert (Hin : x ∈ pool).
      { rewrite Hperm. apply elem_of_app. left.
        eapply list_elem_of_lookup_2; eauto. }
      rewrite Forall_forall in Hready.
      destruct (Hready x Hin) as (Hx0 & st & o & Hst & Hty & _). eauto.
    + replace (S (length old) - 1)%nat with (length old) by lia.
      rewrite Hcopy. cbn. eauto.
Qed.

Lemma constructed_linked kwargs st (n : nat) (k : Z) :
  new state_t [] kwargs = Ok st ->
  getattr st "nextstate" = Ok (PInt k) -> 0 <= k < Z.of_nat n ->
  linked n st.
Proof.
  intros Hnew Hk Hr. split; [now apply StructFacts.new_spec in Hnew|].
  split; [eapply StructFacts.new_initialised; eauto|eauto].
Qed.

Lemma constructed_ready (tbl : list Struct) (i : nat) kwargs st :
  tbl !! i = Some st -> new state_t [] kwargs = Ok st ->
  slot_ready tbl (Z.of_nat i).
Proof.
  intros Hi Hnew. split; [lia|]. exists st, st. rewrite Nat2Z.id.
  split; [assumption|]. split; [now apply StructFacts.new_spec in Hnew|].
  eapply StructFacts.original_new; eauto.
Qed.

(** X13. On a well-linked source and a pool of distinct ready slots,
    [remap_states] returns when the pool has as many slots as the
    source has states after the first, and raises
    [StateRemapException] when it has fewer; it raises nothing
    else. *)
Theorem remap_returns_with_capacity
    (pop_choice : list Z -> nat) (old new : list Struct) (pool : list Z) :
  Forall (linked (length old)) old ->
  NoDup pool ->
  Forall (slot_ready new) pool ->
  ((length old - 1 <= length pool)%nat ->
   exists table new' pool',
     remap_states pop_choice old new pool = Ok (table, new', pool')) /\
  ((length pool < length old - 1)%nat ->
   remap_states pop_choice old new pool = Raise StateRemapException) /\
  (forall e, remap_states pop_choice old new pool = Raise e ->
             e = StateRemapException) /\
  remap_states pop_choice old new pool <> OutOfFuel.
Proof.
  intros Hold Hnd Hready.
  assert (Hfew : (length pool < length old - 1)%nat ->
                 remap_states pop_choice old new pool
                 = Raise StateRemapException).
  { intros Hlt. unfold remap_states, _generate_old_to_new.
    destruct (Z.of_nat (length old) - 1 >? Z.of_nat (length pool)) eqn:E;
      [reflexivity|lia]. }
  split; [now apply remap_total|]. split; [exact Hfew|].
  destruct (le_lt_dec (length old - 1) (length pool)) as [Hle|Hlt].
  - destruct (remap_total pop_choice old new pool) as (t & n & p & ->); auto.
    split; [discriminate|discriminate].
  - rewrite (Hfew Hlt). split; [now intros e [= <-]|discriminate].
Qed.


Lemma remap_returns_with_capacity_witness :
  ((length two_state_source - 1 <= length [3; 1])%nat ->
   exists table new' pool',
     remap_states pop_first two_state_source small_table [3; 1]
     = Ok (table, new', pool')) /\
  ((length [3; 1] < length two_state_source - 1)%nat ->
   remap_states pop_first two_state_source small_table [3; 1]
   = Raise StateRemapException) /\
  (forall e, remap_states pop_first two_state_source small_table [3; 1]
             = Raise e ->
             e = StateRemapException) /\
  remap_states pop_first two_state_source small_table [3; 1] <> OutOfFuel.
Proof.
  apply (remap_returns_with_capacity pop_first two_state_source small_table
           [3; 1]).
  - repeat apply Forall_cons_2; [| | |apply Forall_nil_2].
    + apply (constructed_linked [] (state_of []) 3 0);
        [reflexivity|reflexivity|lia].
    + apply (constructed_linked
               [("tics", PInt 5); ("action", PNone); ("nextstate", PInt 2)]
               (state_of [("tics", PInt 5); ("action", PNone);
                          ("nextstate", PInt 2)])
               3 2); [reflexivity|reflexivity|lia].
    + apply (constructed_linked
               [("tics", PInt 7); ("action", PAction "A_Look");
                ("nextstate", PInt 1)]
               (state_of [("tics", PInt 7); ("action", PAction "A_Look");
                          ("nextstate", PInt 1)])
               3 1); [reflexivity|reflexivity|lia].
  - apply (bool_decide_unpack (NoDup [3; 1])). vm_compute. exact I.
  - repeat apply Forall_cons_2; [| |apply Forall_nil_2].
    + apply (constructed_ready small_table 3 [("action", PAction "A_Fall")]
               (state_of [("action", PAction "A_Fall")])); reflexivity.
    + apply (constructed_ready small_table 1 [("action", PNone)]
               (state_of [("action", PNone)])); reflexivity.
Defined.

(** X14. What [parse] returns can be remapped: into a pool of
    distinct ready slots, as many as there are states after the
    first, [remap_states] returns; and every label then translates
    through the returned table to a slot taken from the pool, which
    holds a state with the sprite, frame, duration and action of the
    state the label names. *)
Theorem parse_then_remap
    (spritenum_t_index : string -> option Z) (is_Action : string -> bool)
    (label_order : list string -> list string) (pop_choice : list Z -> nat)
    (defstr : string) (sts : list Struct) (labels : gmap string Z)
    (new : list Struct) (pool : list Z) :
  parse spritenum_t_index is_Action label_order defstr = Ok (sts, labels) ->
  NoDup pool ->
  Forall (slot_ready new) pool ->
  (length sts - 1 <= length pool)%nat ->
  exists table new' pool',
    remap_states pop_choice sts new pool = Ok (table, new', pool') /\
    forall name i,
      labels !! name = Some i ->
      exists x src dst,
        py_getitem table i = Ok x /\ x ∈ pool /\ (x ∉ pool') /\
        py_getitem sts i = Ok src /\ py_getitem new' x = Ok dst /\
        forall f, f ∈ field_names state_t -> f <> "nextstate" ->
                  getattr dst f = getattr src f.
Proof.
  intros Hparse Hnd Hready Hcap.
  pose proof (SafetyFacts.parse_sound spritenum_t_index is_Action label_order
                defstr) as Hs.
  rewrite Hparse in Hs. destruct Hs as (_ & Hlinked & Hlabels).
  cbn [fst snd] in *.
  destruct (remap_total pop_choice sts new pool)
    as (table & new' & pool' & Hremap); auto.
  exists table, new', pool'. split; [exact Hremap|].
  assert (Hpos : Forall (fun i => 0 <= i) pool).
  { eapply Forall_impl; [exact Hready|]. now intros x [Hx _]. }
  destruct (remap_table _ _ _ _ _ _ _ Hnd Hpos Hremap)
    as (Hcopy & Hlen & Hslots & Hinj & _).
  intros name i Hi. apply Hlabels in Hi. unfold state_index in Hi.
  assert (Hj : (1 <= Z.to_nat i < 1 + (length sts - 1))%nat) by lia.
  destruct (copy_loop_slots sts table (length sts - 1) 1 new new' Hcopy)
    with (j := Z.to_nat i)
    as (x & src & dst0 & dst & Hx & Hsrc & Hd0 & Hd & Hty & _ & Hf); auto.
  { intros j y Hjr Hy. now apply (Hslots j y). }
  { intros j j' y Hjr Hjr'. apply Hinj; lia. }
  destruct (Hslots (Z.to_nat i) x) as (Hin & Hout & Hx0 & _); [lia|assumption|].
  exists x, src, dst.
  split; [rewrite <- (Z2Nat.id i) by lia;
          now apply RemapFacts.py_getitem_lookup|].
  split; [assumption|]. split; [assumption|].
  split; [rewrite <- (Z2Nat.id i) by lia;
          now apply RemapFacts.py_getitem_lookup|].
  split; [rewrite <- (Z2Nat.id x) by lia;
          now apply RemapFacts.py_getitem_lookup|].
  intros f Hfield Hne. apply Hf; [|assumption].
  rewrite Forall_forall in Hready.
  destruct (Hready x Hin) as (_ & st & o & Hst & Hst_ty & _).
  assert (dst0 = st) as -> by congruence. now rewrite Hst_ty.
Qed.

Lemma parse_then_remap_witness :
  exists table new' pool',
    remap_states pop_first (parsed two_label_input).1 wide_table
                 [1; 2; 3; 4; 5; 6]
    = Ok (table, new', pool') /\
    forall name i,
      (parsed two_label_input).2 !! name = Some i ->
      exists x src dst,
        py_getitem table i = Ok x /\ x ∈ [1; 2; 3; 4; 5; 6] /\ (x ∉ pool') /\
        py_getitem (parsed two_label_input).1 i = Ok src /\
        py_getitem new' x = Ok dst /\
        forall f, f ∈ field_names state_t -> f <> "nextstate" ->
                  getattr dst f = getattr src f.
Proof.
  apply (parse_then_remap imp_sprites imp_actions insertion_order pop_first
           two_label_input (parsed two_label_input).1
           (parsed two_label_input).2 wide_table [1; 2; 3; 4; 5; 6]).
  - vm_compute. reflexivity.
  - apply (bool_decide_unpack (NoDup [1; 2; 3; 4; 5; 6])). vm_compute. exact I.
  - repeat apply Forall_cons_2; [| | | | | |apply Forall_nil_2].
    + apply (constructed_ready wide_table 1 [("action", PNone)]
               (free_state [("action", PNone)])); reflexivity.
    + apply (constructed_ready wide_table 2 [("action", PAction "A_Look")]
               (free_state [("action", PAction "A_Look")])); reflexivity.
    + apply (constructed_ready wide_table 3 [("action", PNone)]
               (free_state [("action", PNone)])); reflexivity.
    + apply (constructed_ready wide_table 4 [("action", PAction "A_Look")]
               (free_state [("action", PAction "A_Look")])); reflexivity.
    + apply (constructed_ready wide_table 5 [("action", PNone)]
               (free_state [("action", PNone)])); reflexivity.
    + apply (constructed_ready wide_table 6 [("action", PAction "A_Look")]
               (free_state [("action", PAction "A_Look")])); reflexivity.
  - vm_compute. lia.
Defined.

End RemapSafety.

(** ** The states of a frame line *)

Module FrameFacts.
Import C StatesParser StructSpec ParserSpec LinkSpec FrameSpec.












(** *** The chain of a frame line *)











End FrameFacts.

(** ** Arrays of records against one another *)

Module ArrayDiffFacts.
Import C StructSpec RecordSpec.

Lemma diffs_unfold action_str a other :
  StructArray_dehacked_diffs action_str a other
  = for_each (diff_turn action_str other)
             (zip (seq 0 (length (_elements a))) (_elements a)) [].
Proof. reflexivity. Qed.

Lemma py_getitem_past {A} (l : list A) (k : nat) :
  (length l <= k)%nat -> py_getitem l (Z.of_nat k) = Raise IndexError.
Proof.
  intros Hk. unfold py_getitem, py_norm_index.
  destruct (0 <=? Z.of_nat k) eqn:E0; [|lia].
  destruct (Z.of_nat k <? Z.of_nat (length l)) eqn:E1; [lia|reflexivity].
Qed.

Lemma element_diffs_ok action_str x y idx :
  initialised x -> initialised y -> stype y = stype x ->
  exists b, dehacked_diffs action_str x (Some y) idx = Ok b.
Proof.
  intros Hx Hy Ht. unfold dehacked_diffs.
  rewrite RecordFacts.diff_differing;
    [|assumption|intros f Hf; apply Hy; now rewrite Ht].
  cbn [bind]. unfold dehacked_output.
  rewrite StructFacts.render_loop.
  - cbn [bind app]. destruct (omap _ _); cbn [bind]; eauto.
  - intros f Hf. unfold differing in Hf.
    apply list_elem_of_filter in Hf as [_ Hf]. split; [assumption|now apply Hx].
Qed.

Lemma element_self_diff action_str x idx :
  initialised x -> nan_free x ->
  dehacked_diffs action_str x (Some x) idx = Ok [].
Proof.
  intros Hx Hfree. unfold dehacked_diffs.
  rewrite RecordFacts.diff_differing by auto.
  rewrite RecordFacts.differing_self. unfold nan_fields.
  rewrite StructFacts.nan_free_fields by assumption.
  reflexivity.
Qed.

(** The loop from index [k], against an array that has an element
    for every index it reaches. *)
Lemma diffs_loop_ok action_str (o : StructArray) ty (els : list Struct) :
  forall k acc,
    Forall (fun s => stype s = ty /\ initialised s) els ->
    Forall (fun s => stype s = ty /\ initialised s) (_elements o) ->
    (k + length els <= length (_elements o))%nat ->
    exists bs,
      for_each (diff_turn action_str (Some o))
               (zip (seq k (length els)) els) acc
      = Ok (acc ++ bs).
Proof.
  induction els as [|x els IH]; intros k acc Hels Ho Hk;
    cbn [length seq zip zip_with for_each].
  - exists []. now rewrite app_nil_r.
  - change (zip_with pair (seq (S k) (length els)) els)
      with (zip (seq (S k) (length els)) els).
    inversion Hels as [|? ? [Hxt Hx] Hels']; subst.
    cbn [length] in Hk.
    destruct (lookup_lt_is_Some_2 (_elements o) k) as [y Hy]; [lia|].
    unfold diff_turn at 1, StructArray_getitem. cbn [fst snd].
    rewrite (RemapFacts.py_getitem_lookup _ _ _ Hy). cbn [bind].
    rewrite Forall_forall in Ho.
    destruct (Ho y) as [Hyt Hyi]; [eapply list_elem_of_lookup_2; eauto|].
    destruct (element_diffs_ok action_str x y (Z.of_nat k)) as [b ->];
      [assumption|assumption|congruence|].
    cbn [bind].
    destruct (IH (S k) (acc ++ b)) as [bs ->];
      [assumption|now apply Forall_forall|lia|].
    exists (b ++ bs). now rewrite app_assoc.
Qed.

(** The loop from index [k], against an array that is too short. *)
Lemma diffs_loop_short action_str (o : StructArray) ty (els : list Struct) :
  forall k acc,
    Forall (fun s => stype s = ty /\ initialised s) els ->
    Forall (fun s => stype s = ty /\ initialised s) (_elements o) ->
    (k <= length (_elements o) < k + length els)%nat ->
    for_each (diff_turn action_str (Some o))
             (zip (seq k (length els)) els) acc
    = Raise IndexError.
Proof.
  induction els as [|x els IH]; intros k acc Hels Ho Hk;
    cbn [length seq zip zip_with for_each]; [cbn in Hk; lia|].
  change (zip_with pair (seq (S k) (length els)) els)
    with (zip (seq (S k) (length els)) els).
  inversion Hels as [|? ? [Hxt Hx] Hels']; subst. cbn [length] in Hk.
  unfold diff_turn at 1, StructArray_getitem. cbn [fst snd].
  destruct (decide (k = length (_elements o))) as [->|Hne].
  - now rewrite py_getitem_past by lia.
  - destruct (lookup_lt_is_Some_2 (_elements o) k) as [y Hy]; [lia|].
    rewrite (RemapFacts.py_getitem_lookup _ _ _ Hy). cbn [bind].
    pose proof Ho as Ho'. rewrite Forall_forall in Ho'.
    destruct (Ho' y) as [Hyt Hyi]; [eapply list_elem_of_lookup_2; eauto|].
    destruct (element_diffs_ok action_str x y (Z.of_nat k)) as [b ->];
      [assumption|assumption|congruence|].
    cbn [bind]. apply IH; [assumption|assumption|lia].
Qed.

(** The loop does not look at the other array past the indices of
    its own elements. *)
Lemma diffs_loop_extra action_str (o o' : StructArray) (extra els : list Struct) :
  _elements o' = _elements o ++ extra ->
  forall k acc,
    (k + length els <= length (_elements o))%nat ->
    for_each (diff_turn action_str (Some o'))
             (zip (seq k (length els)) els) acc
    = for_each (diff_turn action_str (Some o))
               (zip (seq k (length els)) els) acc.
Proof.
  intros Ho'. induction els as [|x els IH]; intros k acc Hk;
    cbn [length seq zip zip_with for_each]; [reflexivity|].
  change (zip_with pair (seq (S k) (length els)) els)
    with (zip (seq (S k) (length els)) els).
  cbn [length] in Hk.
  destruct (lookup_lt_is_Some_2 (_elements o) k) as [y Hy]; [lia|].
  assert (Hy' : _elements o' !! k = Some y).
  { rewrite Ho'. rewrite lookup_app_l by lia. exact Hy. }
  unfold diff_turn at 1 3, StructArray_getitem. cbn [fst snd].
  rewrite (RemapFacts.py_getitem_lookup _ _ _ Hy).
  rewrite (RemapFacts.py_getitem_lookup _ _ _ Hy'). cbn [bind].
  destruct (dehacked_diffs action_str x (Some y) (Z.of_nat k)); cbn [bind];
    [|reflexivity|reflexivity].
  apply IH. lia.
Qed.

(** The loop of an array against itself. *)
Lemma diffs_loop_self action_str (a : StructArray) (els : list Struct) :
  forall pre,
    _elements a = pre ++ els ->
    Forall (fun s => initialised s /\ nan_free s) els ->
    for_each (diff_turn action_str (Some a))
             (zip (seq (length pre) (length els)) els) []
    = Ok [].
Proof.
  induction els as [|x els IH]; intros pre Ha Hels;
    cbn [length seq zip zip_with for_each]; [reflexivity|].
  change (zip_with pair (seq (S (length pre)) (length els)) els)
    with (zip (seq (S (length pre)) (length els)) els).
  inversion Hels as [|? ? [Hx Hxfree] Hels']; subst.
  assert (Hx' : _elements a !! length pre = Some x).
  { rewrite Ha. rewrite lookup_app_r by lia. now rewrite Nat.sub_diag. }
  unfold diff_turn at 1, StructArray_getitem. cbn [fst snd].
  rewrite (RemapFacts.py_getitem_lookup _ _ _ Hx'). cbn [bind].
  rewrite element_self_diff by assumption. cbn [bind app].
  specialize (IH (pre ++ [x])). rewrite length_app in IH. cbn [length] in IH.
  replace (length pre + 1)%nat with (S (length pre)) in IH by lia.
  apply IH; [|assumption]. now rewrite <- app_assoc.
Qed.

(** X17. For two arrays whose elements are initialised instances of
    one class, [dehacked_diffs] of the first against the second
    raises [IndexError] when the second has fewer elements; when it
    has as many or more it returns, and elements of the second past
    the length of the first change nothing. An array none of whose
    elements holds the not-a-number has no differences against
    itself. *)
Theorem array_diffs_against_other
    (action_str : string -> string) (a o : StructArray) :
  sound_array a -> sound_array o -> _struct_type o = _struct_type a ->
  ((length (_elements o) < length (_elements a))%nat ->
   StructArray_dehacked_diffs action_str a (Some o) = Raise IndexError) /\
  ((length (_elements a) <= length (_elements o))%nat ->
   (exists blocks, StructArray_dehacked_diffs action_str a (Some o) = Ok blocks) /\
   forall o' extra,
     _elements o' = _elements o ++ extra ->
     StructArray_dehacked_diffs action_str a (Some o')
     = StructArray_dehacked_diffs action_str a (Some o)) /\
  (Forall nan_free (_elements a) ->
   StructArray_dehacked_diffs action_str a (Some a) = Ok []).
Proof.
  unfold sound_array. intros Ha Ho Ht. rewrite Ht in Ho.
  rewrite !diffs_unfold. split; [|split].
  - intros Hlt. eapply diffs_loop_short; eauto. lia.
  - intros Hle. split.
    + destruct (diffs_loop_ok action_str o (_struct_type a) (_elements a) 0 [])
        as [bs Hbs]; auto. eauto.
    + intros o' extra Ho'. rewrite diffs_unfold.
      eapply diffs_loop_extra; eauto.
  - intros Hfree.
    apply (diffs_loop_self action_str a (_elements a) []); [reflexivity|].
    apply Forall_forall. intros s Hs.
    rewrite Forall_forall in Ha, Hfree.
    split; [now apply Ha|now apply Hfree].
Qed.

Lemma array_diffs_against_other_witness :
  ((length (_elements (array_of Coordinate [InitSeq [PInt 50; PInt 5]]))
    < length (_elements (array_of Coordinate
                           [InitSeq [PInt 0; PInt 0];
                            InitSeq [PInt 10; PInt 0]])))%nat ->
   StructArray_dehacked_diffs (fun n => n)
     (array_of Coordinate [InitSeq [PInt 0; PInt 0]; InitSeq [PInt 10; PInt 0]])
     (Some (array_of Coordinate [InitSeq [PInt 50; PInt 5]]))
   = Raise IndexError) /\
  ((length (_elements (array_of Coordinate
                         [InitSeq [PInt 0; PInt 0];
                          InitSeq [PInt 10; PInt 0]]))
    <= length (_elements (array_of Coordinate [InitSeq [PInt 50; PInt 5]])))%nat ->
   (exists blocks,
       StructArray_dehacked_diffs (fun n => n)
         (array_of Coordinate
            [InitSeq [PInt 0; PInt 0]; InitSeq [PInt 10; PInt 0]])
         (Some (array_of Coordinate [InitSeq [PInt 50; PInt 5]]))
       = Ok blocks) /\
   forall o' extra,
     _elements o'
     = _elements (array_of Coordinate [InitSeq [PInt 50; PInt 5]]) ++ extra ->
     StructArray_dehacked_diffs (fun n => n)
       (array_of Coordinate
          [InitSeq [PInt 0; PInt 0]; InitSeq [PInt 10; PInt 0]])
       (Some o')
     = StructArray_dehacked_diffs (fun n => n)
         (array_of Coordinate
            [InitSeq [PInt 0; PInt 0]; InitSeq [PInt 10; PInt 0]])
         (Some (array_of Coordinate [InitSeq [PInt 50; PInt 5]]))) /\
  (Forall nan_free
          (_elements (array_of Coordinate
                        [InitSeq [PInt 0; PInt 0];
                         InitSeq [PInt 10; PInt 0]])) ->
   StructArray_dehacked_diffs (fun n => n)
     (array_of Coordinate
        [InitSeq [PInt 0; PInt 0]; InitSeq [PInt 10; PInt 0]])
     (Some (array_of Coordinate
              [InitSeq [PInt 0; PInt 0]; InitSeq [PInt 10; PInt 0]]))
   = Ok []).
Proof.
  apply (array_diffs_against_other (fun n => n)
           (array_of Coordinate
              [InitSeq [PInt 0; PInt 0]; InitSeq [PInt 10; PInt 0]])
           (array_of Coordinate [InitSeq [PInt 50; PInt 5]])).
  - change (Forall (fun s => stype s = Coordinate /\ initialised s)
              [instance_of Coordinate [PInt 0; PInt 0] [];
               instance_of Coordinate [PInt 10; PInt 0] []]).
    repeat apply Forall_cons_2; [| |apply Forall_nil_2].
    + split; [reflexivity|].
      apply (StructFacts.new_initialised Coordinate [PInt 0; PInt 0] []).
      reflexivity.
    + split; [reflexivity|].
      apply (StructFacts.new_initialised Coordinate [PInt 10; PInt 0] []).
      reflexivity.
  - change (Forall (fun s => stype s = Coordinate /\ initialised s)
              [instance_of Coordinate [PInt 50; PInt 5] []]).
    repeat apply Forall_cons_2; [|apply Forall_nil_2].
    split; [reflexivity|].
    apply (StructFacts.new_initialised Coordinate [PInt 50; PInt 5] []).
    reflexivity.
  - reflexivity.
Defined.

End ArrayDiffFacts.

(** ** The first statement of a text *)

Module FirstLineFacts.
Import C StatesParser StructSpec ParserSpec LinkSpec FrameSpec.

Lemma drop_blank_all bl n :
  Forall (fun l => is_blank l = true) bl ->
  drop_blank bl n = ([], n + Z.of_nat (length bl)).
Proof.
  revert n. induction bl as [|b bl IH]; intros n Hbl.
  - cbn. f_equal. lia.
  - inversion Hbl as [|? ? Hb Hbl']; subst. cbn [drop_blank].
    rewrite Hb, IH by assumption. f_equal. cbn [length]. lia.
Qed.

(** [matches_regexp] in front of a line that is not blank. *)
Lemma matches_regexp_at {G} (re : string -> option (G * string)) p line rest :
  lines p = line :: rest -> is_blank line = false ->
  exists q,
    matches_regexp re p = Ok (fst <$> re line, q) /\
    line_number q = line_number p /\
    previous_state_id q = previous_state_id p /\
    (re line = None -> lines q = line :: rest).
Proof.
  intros Hl Hb. unfold matches_regexp, next_line, more_lines.
  rewrite Hl. cbn [drop_blank]. rewrite Hb.
  cbn [fst snd lines line_number with_lines].
  destruct (re line) as [[g r]|]; eexists; (split; [reflexivity|]);
    cbn; repeat split; discriminate.
Qed.

Section FirstStatement.

Variable spritenum_t_index : string -> option Z.
Variable is_Action : string -> bool.
Variable label_order : list string -> list string.

(** X18. A text whose first line that is not blank is no label and
    no frame line is refused with the line number of that line, the
    blank lines before it counted: as a loop, a goto or a stop
    without a state before it when the line is such a statement, and
    as a parse error otherwise. *)
Theorem first_statement_is_refused
    (defstr : string) (blanks : list string) (line : string)
    (rest : list string) :
  split_lines defstr = blanks ++ line :: rest ->
  Forall (fun l => is_blank l = true) blanks ->
  is_blank line = false ->
  GOTO_LABEL_RE line = None ->
  FRAME_DEF_RE line = None ->
  parse spritenum_t_index is_Action label_order defstr
  = Raise (StatesParseException (Some (1 + Z.of_nat (length blanks)))
                                (first_error line)).
Proof.
  intros Hsplit Hblanks Hnb Hnl Hnf.
  unfold parse, _Parser_init.
  destruct SafetyFacts.null_state_linked as (null & -> & _). cbn [bind].
  unfold _Parser_parse.
  set (p0 := with_lines (split_lines defstr) 1 _).
  cbn [parse_while].
  assert (Hm : more_lines p0
               = (true, with_lines (line :: rest)
                                   (1 + Z.of_nat (length blanks)) p0)).
  { assert (Hl0 : lines p0 = blanks ++ line :: rest) by exact Hsplit.
    unfold more_lines.
    rewrite Hl0, LabelFacts.drop_blank_blanks by assumption.
    reflexivity. }
  rewrite Hm. cbn [fst snd].
  set (p1 := with_lines (line :: rest) (1 + Z.of_nat (length blanks)) p0).
  rewrite (LabelFacts.parse_frame_def_no_frame spritenum_t_index is_Action
             label_order p1 [] line rest) by (auto; constructor).
  cbn [bind fst snd length].
  set (p2 := with_lines (line :: rest) _ p1).
  assert (Hn2 : line_number p2 = 1 + Z.of_nat (length blanks))
    by (unfold p2, p1; cbn; lia).
  assert (Hprev2 : previous_state_id p2 = -1) by reflexivity.
  assert (Hl2 : lines p2 = line :: rest) by reflexivity.
  clearbody p2. clear Hm p1.
  unfold first_error.
  (* Loop *)
  unfold parse_loop.
  destruct (matches_regexp_at LOOP_STATEMENT_RE p2 line rest Hl2 Hnb)
    as (q3 & -> & Hn3 & Hprev3 & Hl3). cbn [bind fst snd].
  destruct (LOOP_STATEMENT_RE line) as [[u r]|]; cbn [fmap option_fmap option_map fst].
  { rewrite bool_decide_eq_true_2 by congruence. unfold exception.
    cbn [bind]. now rewrite Hn3, Hn2. }
  specialize (Hl3 eq_refl). cbn [bind fst snd].
  (* Goto *)
  unfold parse_goto.
  destruct (matches_regexp_at GOTO_STATEMENT_RE q3 line rest Hl3 Hnb)
    as (q4 & -> & Hn4 & Hprev4 & Hl4). cbn [bind fst snd].
  destruct (GOTO_STATEMENT_RE line) as [[u r]|]; cbn [fmap option_fmap option_map fst].
  { rewrite bool_decide_eq_true_2 by congruence. unfold exception.
    cbn [bind]. now rewrite Hn4, Hn3, Hn2. }
  specialize (Hl4 eq_refl). cbn [bind fst snd].
  (* Stop *)
  unfold parse_stop.
  destruct (matches_regexp_at STOP_STATEMENT_RE q4 line rest Hl4 Hnb)
    as (q5 & -> & Hn5 & Hprev5 & Hl5). cbn [bind fst snd].
  destruct (STOP_STATEMENT_RE line) as [[u r]|]; cbn [fmap option_fmap option_map fst].
  { rewrite bool_decide_eq_true_2 by congruence. unfold exception.
    cbn [bind]. now rewrite Hn5, Hn4, Hn3, Hn2. }
  cbn [bind fst snd]. unfold exception. cbn [bind].
  now rewrite Hn5, Hn4, Hn3, Hn2.
Qed.

(** X19. A text of blank lines only has no statement: [parse]
    returns the NULL state alone and no label. *)
Theorem blank_text_is_empty (defstr : string) :
  Forall (fun l => is_blank l = true) (split_lines defstr) ->
  exists null,
    new state_t [] [] = Ok null /\
    parse spritenum_t_index is_Action label_order defstr = Ok ([null], ∅).
Proof.
  intros Hblank.
  destruct SafetyFacts.null_state_linked as (null & Hnull & _).
  exists null. split; [exact Hnull|].
  unfold parse, _Parser_init. rewrite Hnull. cbn [bind].
  unfold _Parser_parse. cbn [parse_while].
  set (p0 := with_lines (split_lines defstr) 1 _).
  assert (Hm : more_lines p0
               = (false, with_lines [] (1 + Z.of_nat (length (split_lines defstr)))
                                    p0)).
  { assert (Hl0 : Forall (fun l => is_blank l = true) (lines p0))
      by exact Hblank.
    unfold more_lines. rewrite drop_blank_all by assumption. reflexivity. }
  rewrite Hm. cbn [fst snd bind].
  rewrite bool_decide_eq_false_2 by (intros H; now apply H).
  reflexivity.
Qed.

End FirstStatement.

Lemma first_statement_is_refused_witness :
  parse imp_sprites imp_actions insertion_order
        (text [""; "   "; "  Stop"; "TROO A 1"])
  = Raise (StatesParseException (Some (1 + Z.of_nat (length [""; "   "])))
                                (first_error "  Stop")).
Proof.
  apply (first_statement_is_refused imp_sprites imp_actions insertion_order
           (text [""; "   "; "  Stop"; "TROO A 1"]) [""; "   "] "  Stop"
           ["TROO A 1"]).
  - reflexivity.
  - repeat constructor.
  - reflexivity.
  - reflexivity.
  - reflexivity.
Defined.

Lemma blank_text_is_empty_witness :
  exists null,
    new state_t [] [] = Ok null /\
    parse imp_sprites imp_actions insertion_order (text [""; "   "; ""])
    = Ok ([null], ∅).
Proof.
  apply (blank_text_is_empty imp_sprites imp_actions insertion_order
           (text [""; "   "; ""])).
  repeat constructor.
Defined.

End FirstLineFacts.

(** ** The links of remapped states *)

Module ClosureFacts.
Import C StatesParser StructSpec RemapSpec LinkSpec.

(** X20. After a successful [remap_states] of a well-linked source
    into a pool of distinct indices that are not negative, the state
    written for a source state has as link the table entry of the
    link of the source state: 0 when the source state links to the
    NULL state, and else a slot taken from the pool, the one of the
    state linked to. So the copied states link to one another and to
    state 0 only. *)
Theorem remapped_links_stay_in_pool
    (pop_choice : list Z -> nat) (old new : list Struct) (pool : list Z)
    (table : list Z) (new' : list Struct) (pool' : list Z) :
  Forall (linked (length old)) old ->
  NoDup pool ->
  Forall (fun i => 0 <= i) pool ->
  remap_states pop_choice old new pool = Ok (table, new', pool') ->
  forall j src,
    (1 <= j)%nat -> old !! j = Some src ->
    exists x dst n t,
      table !! j = Some x /\
      new' !! Z.to_nat x = Some dst /\
      getattr src "nextstate" = Ok (PInt n) /\
      0 <= n < Z.of_nat (length old) /\
      table !! Z.to_nat n = Some t /\
      getattr dst "nextstate" = Ok (PInt t) /\
      ((n = 0 /\ t = 0) \/ (1 <= n /\ t ∈ pool /\ (t ∉ pool'))).
Proof.
  intros Hold Hnd Hpos H j src Hj Hsrc.
  destruct (RemapSafety.remap_table _ _ _ _ _ _ _ Hnd Hpos H)
    as (Hcopy & Hlen & Hslots & Hinj & _ & Hzero).
  pose proof (lookup_lt_Some _ _ _ Hsrc) as Hlt.
  destruct (RemapFacts.copy_loop old table (length old - 1) 1 new new' Hcopy)
    as (_ & _ & Hmain).
  { intros i x Hi Hx. now apply (Hslots i x). }
  { intros i i' x Hi Hi'. apply Hinj; lia. }
  destruct (Hmain j) as (x & src' & dst & Hx & Hsrc' & Hdst & Hlink); [lia|].
  assert (src' = src) as -> by congruence.
  rewrite Forall_forall in Hold.
  destruct (Hold src) as (_ & _ & n & Hn & Hrange);
    [eapply list_elem_of_lookup_2; eauto|].
  destruct Hlink as (link & Hl & [[-> _]|(Hne & i & t & -> & Ht & Hd)]).
  { rewrite Hn in Hl. injection Hl as ->. lia. }
  rewrite Hn in Hl. injection Hl as <-.
  apply RemapFacts.py_getitem_nonneg in Ht; [|lia].
  exists x, dst, n, t. split; [assumption|]. split; [assumption|].
  split; [assumption|]. split; [assumption|]. split; [assumption|].
  split; [assumption|].
  destruct (decide (n = 0)) as [->|Hn0].
  - left. split; [reflexivity|].
    change (Z.to_nat 0) with 0%nat in Ht.
    rewrite Hzero in Ht by (intros ->; cbn in Hlt; lia). congruence.
  - right. split; [lia|].
    destruct (Hslots (Z.to_nat n) t) as (Hin & Hout & _); [lia|assumption|].
    auto.
Qed.

Lemma remapped_links_stay_in_pool_witness :
  exists x dst n t,
    [0; 1; 3] !! 1%nat = Some x /\
    table_after two_state_source small_table [3; 1] !! Z.to_nat x
    = Some dst /\
    getattr (state_of [("tics", PInt 5); ("action", PNone);
                       ("nextstate", PInt 2)]) "nextstate"
    = Ok (PInt n) /\
    0 <= n < Z.of_nat (length two_state_source) /\
    [0; 1; 3] !! Z.to_nat n = Some t /\
    getattr dst "nextstate" = Ok (PInt t) /\
    ((n = 0 /\ t = 0) \/ (1 <= n /\ t ∈ [3; 1] /\ (t ∉ (@nil Z)))).
Proof.
  apply (remapped_links_stay_in_pool pop_first two_state_source small_table
           [3; 1] [0; 1; 3]
           (table_after two_state_source small_table [3; 1]) [])
    with (j := 1%nat).
  - repeat apply Forall_cons_2; [| | |apply Forall_nil_2].
    + apply (RemapSafety.constructed_linked [] (state_of []) 3 0);
        [reflexivity|reflexivity|lia].
    + apply (RemapSafety.constructed_linked
               [("tics", PInt 5); ("action", PNone); ("nextstate", PInt 2)]
               (state_of [("tics", PInt 5); ("action", PNone);
                          ("nextstate", PInt 2)])
               3 2); [reflexivity|reflexivity|lia].
    + apply (RemapSafety.constructed_linked
               [("tics", PInt 7); ("action", PAction "A_Look");
                ("nextstate", PInt 1)]
               (state_of [("tics", PInt 7); ("action", PAction "A_Look");
                          ("nextstate", PInt 1)])
               3 1); [reflexivity|reflexivity|lia].
  - apply (bool_decide_unpack (NoDup [3; 1])). vm_compute. exact I.
  - repeat constructor; lia.
  - vm_compute. reflexivity.
  - lia.
  - reflexivity.
Defined.

End ClosureFacts.

(** ** Reading back an assigned field *)

Module FieldFacts.
Import C StructSpec RecordSpec.

(** X21. After an assignment to a declared field, reading the field
    gives the assigned value and every other field reads as before;
    the class of the instance and what [original()] returns do not
    change; and of two assignments to one field only the second
    counts. *)
Theorem field_assignment_round_trip (s : Struct) (g : string) (v : pyval) :
  g ∈ field_names (stype s) ->
  getattr (setattr s g v) g = Ok v /\
  (forall f, f <> g -> getattr (setattr s g v) f = getattr s f) /\
  stype (setattr s g v) = stype s /\
  original (setattr s g v) = original s /\
  (forall w, setattr (setattr s g v) g w = setattr s g w).
Proof.
  intros Hg.
  split; [now apply StructFacts.getattr_setattr_same|].
  split; [intros f Hf; now apply StructFacts.getattr_setattr_other|].
  split; [apply StructFacts.stype_setattr|].
  split; [apply RecordFacts.original_setattr|].
  intros w. destruct (StructFacts.index_of_is_Some _ _ Hg) as [i Hi].
  unfold setattr. rewrite Hi. cbn [stype _fields _original_values].
  rewrite Hi. cbn [stype _fields _original_values].
  now rewrite insert_insert_eq.
Qed.

Lemma field_assignment_round_trip_witness :
  getattr (setattr (instance_of Coordinate [PInt 20; PInt 30] []) "x" (PInt 3))
          "x" = Ok (PInt 3) /\
  (forall f, f <> "x" ->
             getattr (setattr (instance_of Coordinate [PInt 20; PInt 30] [])
                              "x" (PInt 3)) f
             = getattr (instance_of Coordinate [PInt 20; PInt 30] []) f) /\
  stype (setattr (instance_of Coordinate [PInt 20; PInt 30] []) "x" (PInt 3))
  = stype (instance_of Coordinate [PInt 20; PInt 30] []) /\
  original (setattr (instance_of Coordinate [PInt 20; PInt 30] []) "x" (PInt 3))
  = original (instance_of Coordinate [PInt 20; PInt 30] []) /\
  (forall w,
      setattr (setattr (instance_of Coordinate [PInt 20; PInt 30] [])
                       "x" (PInt 3)) "x" w
      = setattr (instance_of Coordinate [PInt 20; PInt 30] []) "x" w).
Proof.
  apply (field_assignment_round_trip
           (instance_of Coordinate [PInt 20; PInt 30] []) "x" (PInt 3)).
  apply (bool_decide_unpack
           ("x" ∈ field_names
                    (stype (instance_of Coordinate [PInt 20; PInt 30] [])))).
  vm_compute. exact I.
Defined.

End FieldFacts.
